(** * SQLiteStorage: a shallow embedding of [src/storage-sqlite.js]

    The file follows the source top to bottom: the JavaScript values the
    store handles, the host's JSON codec, the SQL engine the store talks
    to (tables, statements, failures), the store itself (lifecycle,
    recovery wrapper, repositories, codec helpers) and finally the
    properties of the store.

    Conventions of the model
    - JavaScript numbers are integers ([Z]); [x | 0] is written out as the
      signed 32-bit wrap-around [ToInt32].
    - Objects are ordered property lists, as [JSON.stringify] observes them.
    - The engine (expo-sqlite) is not part of the repository.  Its tables
      are finite maps keyed by the declared primary keys; each statement the
      store issues is given its SQL meaning on those maps.  A row holds the
      values that were bound (column affinity conversions are not modelled).
      Rows that a statement's ORDER BY leaves unordered (no ORDER BY, or
      equal sort keys) are listed in key order; SQL does not fix their
      order, and where a LIMIT cuts among them the properties speak of the
      sort key only.
    - Engine calls may fail.  The outcomes of the upcoming engine calls are
      a script carried by the state ([faults]); an empty script means that
      every call succeeds.  Engine calls and callback deliveries are
      recorded in ghost logs ([trace], [delivered]). *)

From Stdlib Require Import ZArith List String Ascii Bool Lia.
From Stdlib Require Import DecimalString DecimalZ.
From stdpp Require Import base option list sorting gmap strings fin_maps.

Set Warnings "-register-all".

Local Open Scope Z_scope.
Local Open Scope string_scope.

(** ** JavaScript values *)

Module Js.

(** A Date is kept as the ISO-8601 text [toISOString] prints for it;
    [JInvalidDate] is the Date whose time value is NaN. *)
Inductive JsVal : Type :=
| JUndef
| JNull
| JBool (b : bool)
| JNum (n : Z)
| JStr (s : string)
| JDate (iso : string)
| JInvalidDate
| JArr (items : list JsVal)
| JObj (props : list (string * JsVal)).

Definition Obj : Type := list (string * JsVal).

(** [ToBoolean]: what [if (v)], [v || w] and [v ? a : b] test. *)
Definition truthy (v : JsVal) : bool :=
  match v with
  | JUndef | JNull => false
  | JBool b => b
  | JNum n => negb (Z.eqb n 0)
  | JStr s => negb (String.eqb s "")
  | JDate _ | JInvalidDate | JArr _ | JObj _ => true
  end.

(** [typeof v === 'object' && v !== null] *)
Definition is_object (v : JsVal) : bool :=
  match v with
  | JDate _ | JInvalidDate | JArr _ | JObj _ => true
  | _ => false
  end.

Definition is_boolean (v : JsVal) : bool :=
  match v with JBool _ => true | _ => false end.

Definition isArray (v : JsVal) : bool :=
  match v with JArr _ => true | _ => false end.

(** [v instanceof Date] *)
Definition is_date (v : JsVal) : bool :=
  match v with JDate _ | JInvalidDate => true | _ => false end.

(** [a || b] *)
Definition or_else (a b : JsVal) : JsVal := if truthy a then a else b.

(** Own properties: [o.hasOwnProperty(k)], [o[k]] and [o[k] = v]. *)
Fixpoint hasOwnProperty (k : string) (o : Obj) : bool :=
  match o with
  | [] => false
  | (k', _) :: o' => if String.eqb k k' then true else hasOwnProperty k o'
  end.

Fixpoint get (k : string) (o : Obj) : JsVal :=
  match o with
  | [] => JUndef
  | (k', v) :: o' => if String.eqb k k' then v else get k o'
  end.

Fixpoint set (k : string) (v : JsVal) (o : Obj) : Obj :=
  match o with
  | [] => [(k, v)]
  | (k', v') :: o' =>
      if String.eqb k k' then (k', v) :: o' else (k', v') :: set k v o'
  end.

(** Signed 32-bit conversion of an integer-valued number. *)
Definition ToInt32 (n : Z) : Z := (n + 2 ^ 31) mod 2 ^ 32 - 2 ^ 31.

(** [ToNumber] of the values that occur where the store applies [| 0],
    [>] or [-]; [None] stands for NaN.  Text counts as a number when it is
    a plain decimal integer; values that are never counters (dates,
    arrays, objects) are taken to NaN. *)
Definition ToNumber (v : JsVal) : option Z :=
  match v with
  | JNull => Some 0
  | JBool b => Some (if b then 1 else 0)
  | JNum n => Some n
  | JStr s =>
      if String.eqb s "" then Some 0
      else option_map Z.of_int (NilZero.int_of_string s)
  | _ => None
  end.

(** [v | 0] : NaN becomes 0, numbers wrap to 32 bits. *)
Definition bitor0 (v : JsVal) : Z :=
  match ToNumber v with
  | Some n => ToInt32 n
  | None => 0
  end.

(** [v > 0] : false for NaN. *)
Definition gt0 (v : JsVal) : bool :=
  match ToNumber v with
  | Some n => Z.ltb 0 n
  | None => false
  end.

(** The value of an operand that is known to be a number. *)
Definition number (v : JsVal) : Z :=
  match v with
  | JNum n => n
  | _ => 0
  end.

Definition MAX_SAFE_INTEGER : Z := 2 ^ 53 - 1.

(** [hay.includes(needle)] *)
Definition includes (hay needle : string) : bool :=
  match String.index 0 needle hay with
  | Some _ => true
  | None => false
  end.

End Js.
Export Js.

(** ** The host's JSON codec

    [JSON.stringify] and [JSON.parse] are built-ins of the JavaScript
    host.  The printer emits what the host emits for the values above; the
    parser accepts JSON text with integer numbers and code units below 256
    (text with fractions, exponents or wider escapes lies outside the
    integer model and is rejected here). *)

Module JSON.

Definition dquote : ascii := ascii_of_nat 34.
Definition backslash : ascii := ascii_of_nat 92.

Definition hex_digit (n : nat) : ascii :=
  ascii_of_nat (if Nat.ltb n 10 then 48 + n else 87 + n).

(** One code unit inside a string literal. *)
Definition escape_char (c : ascii) : string :=
  let n := nat_of_ascii c in
  if Nat.eqb n 34 then String backslash (String dquote EmptyString)
  else if Nat.eqb n 92 then String backslash (String backslash EmptyString)
  else if Nat.eqb n 8 then String backslash "b"
  else if Nat.eqb n 12 then String backslash "f"
  else if Nat.eqb n 10 then String backslash "n"
  else if Nat.eqb n 13 then String backslash "r"
  else if Nat.eqb n 9 then String backslash "t"
  else if Nat.ltb n 32 then
    String backslash
      (String "u" (String "0" (String "0"
        (String (hex_digit (Nat.div n 16))
          (String (hex_digit (Nat.modulo n 16)) EmptyString)))))
  else String c EmptyString.

Fixpoint escape (s : string) : string :=
  match s with
  | EmptyString => EmptyString
  | String c s' => escape_char c ++ escape s'
  end.

Definition quote (s : string) : string :=
  String dquote (escape s ++ String dquote EmptyString).

Definition print_Z (n : Z) : string :=
  NilZero.string_of_int (Z.to_int n).

Fixpoint join (sep : string) (l : list string) : string :=
  match l with
  | [] => ""
  | [x] => x
  | x :: l' => x ++ sep ++ join sep l'
  end.

(** [None] is the host's [undefined]: the value has no JSON text. *)
Fixpoint serialize (v : JsVal) : option string :=
  match v with
  | JUndef => None
  | JNull => Some "null"
  | JBool true => Some "true"
  | JBool false => Some "false"
  | JNum n => Some (print_Z n)
  | JStr s => Some (quote s)
  | JDate iso => Some (quote iso)
  | JInvalidDate => Some "null"
  | JArr items =>
      let fix elements (l : list JsVal) : list string :=
        match l with
        | [] => []
        | x :: l' =>
            match serialize x with
            | Some t => t
            | None => "null"
            end :: elements l'
        end in
      Some ("[" ++ join "," (elements items) ++ "]")
  | JObj props =>
      let fix members (l : list (string * JsVal)) : list string :=
        match l with
        | [] => []
        | (k, x) :: l' =>
            match serialize x with
            | Some t => (quote k ++ ":" ++ t) :: members l'
            | None => members l'
            end
        end in
      Some ("{" ++ join "," (members props) ++ "}")
  end.

(** [JSON.stringify(v)] as a JavaScript value. *)
Definition stringify (v : JsVal) : JsVal :=
  match serialize v with
  | Some t => JStr t
  | None => JUndef
  end.

(** *** Parsing *)

Definition is_ws (c : ascii) : bool :=
  let n := nat_of_ascii c in
  Nat.eqb n 32 || Nat.eqb n 9 || Nat.eqb n 10 || Nat.eqb n 13.

Fixpoint skip_ws (s : string) : string :=
  match s with
  | String c s' => if is_ws c then skip_ws s' else s
  | EmptyString => s
  end.

Definition digit_of (c : ascii) : option nat :=
  let n := nat_of_ascii c in
  if Nat.leb 48 n && Nat.leb n 57 then Some (n - 48)%nat else None.

Definition hex_of (c : ascii) : option nat :=
  let n := nat_of_ascii c in
  if Nat.leb 48 n && Nat.leb n 57 then Some (n - 48)%nat
  else if Nat.leb 97 n && Nat.leb n 102 then Some (n - 87)%nat
  else if Nat.leb 65 n && Nat.leb n 70 then Some (n - 55)%nat
  else None.

(** The characters of a string literal after its opening quote. *)
Fixpoint parse_chars (s : string) : option (string * string) :=
  match s with
  | EmptyString => None
  | String c s1 =>
      let n := nat_of_ascii c in
      if Nat.eqb n 34 then Some (EmptyString, s1)
      else if Nat.eqb n 92 then
        match s1 with
        | String e s2 =>
            let cont (d : ascii) (k : option (string * string)) :=
              match k with
              | Some (t, r) => Some (String d t, r)
              | None => None
              end in
            let m := nat_of_ascii e in
            if Nat.eqb m 34 then cont dquote (parse_chars s2)
            else if Nat.eqb m 92 then cont backslash (parse_chars s2)
            else if Nat.eqb m 47 then cont "/"%char (parse_chars s2)
            else if Nat.eqb m 98 then cont (ascii_of_nat 8) (parse_chars s2)
            else if Nat.eqb m 102 then cont (ascii_of_nat 12) (parse_chars s2)
            else if Nat.eqb m 110 then cont (ascii_of_nat 10) (parse_chars s2)
            else if Nat.eqb m 114 then cont (ascii_of_nat 13) (parse_chars s2)
            else if Nat.eqb m 116 then cont (ascii_of_nat 9) (parse_chars s2)
            else if Nat.eqb m 117 then
              match s2 with
              | String h1 (String h2 (String h3 (String h4 s3))) =>
                  match hex_of h1, hex_of h2, hex_of h3, hex_of h4 with
                  | Some 0%nat, Some 0%nat, Some a, Some b =>
                      cont (ascii_of_nat (16 * a + b)) (parse_chars s3)
                  | _, _, _, _ => None
                  end
              | _ => None
              end
            else None
        | EmptyString => None
        end
      else if Nat.ltb n 32 then None
      else
        match parse_chars s1 with
        | Some (t, r) => Some (String c t, r)
        | None => None
        end
  end.

(** The digits of a number, most significant first. *)
Fixpoint parse_digits (s : string) (acc : Z) : Z * string :=
  match s with
  | String c s' =>
      match digit_of c with
      | Some d => parse_digits s' (10 * acc + Z.of_nat d)
      | None => (acc, s)
      end
  | EmptyString => (acc, s)
  end.

Definition starts_fraction (s : string) : bool :=
  match s with
  | String c _ =>
      let n := nat_of_ascii c in
      Nat.eqb n 46 || Nat.eqb n 101 || Nat.eqb n 69
  | EmptyString => false
  end.

(** An unsigned integer literal: a single 0, or digits not starting
    with 0. *)
Definition parse_unsigned (s : string) : option (Z * string) :=
  match s with
  | String c s' =>
      match digit_of c with
      | Some 0%nat =>
          match s' with
          | String c' _ =>
              match digit_of c' with
              | Some _ => None
              | None => if starts_fraction s' then None else Some (0, s')
              end
          | EmptyString => Some (0, s')
          end
      | Some d =>
          let '(n, r) := parse_digits s' (Z.of_nat d) in
          if starts_fraction r then None else Some (n, r)
      | None => None
      end
  | EmptyString => None
  end.

Definition expect (lit : string) (s : string) : option string :=
  if String.prefix lit s
  then Some (String.substring (String.length lit)
               (String.length s - String.length lit) s)
  else None.

Fixpoint parse_value (fuel : nat) (s : string) : option (JsVal * string) :=
  match fuel with
  | O => None
  | S fuel' =>
      match skip_ws s with
      | EmptyString => None
      | String c s1 =>
          let n := nat_of_ascii c in
          if Nat.eqb n 110 then
            option_map (fun r => (JNull, r)) (expect "ull" s1)
          else if Nat.eqb n 116 then
            option_map (fun r => (JBool true, r)) (expect "rue" s1)
          else if Nat.eqb n 102 then
            option_map (fun r => (JBool false, r)) (expect "alse" s1)
          else if Nat.eqb n 34 then
            option_map (fun tr => (JStr (fst tr), snd tr)) (parse_chars s1)
          else if Nat.eqb n 45 then
            option_map (fun nr => (JNum (- fst nr), snd nr)) (parse_unsigned s1)
          else if Nat.eqb n 91 then
            match skip_ws s1 with
            | String c' s2 =>
                if Nat.eqb (nat_of_ascii c') 93 then Some (JArr [], s2)
                else option_map (fun lr => (JArr (fst lr), snd lr))
                                (parse_elements fuel' s1)
            | EmptyString => None
            end
          else if Nat.eqb n 123 then
            match skip_ws s1 with
            | String c' s2 =>
                if Nat.eqb (nat_of_ascii c') 125 then Some (JObj [], s2)
                else option_map (fun lr => (JObj (fst lr), snd lr))
                                (parse_members fuel' s1 [])
            | EmptyString => None
            end
          else
            option_map (fun nr => (JNum (fst nr), snd nr))
                       (parse_unsigned (String c s1))
      end
  end

with parse_elements (fuel : nat) (s : string) : option (list JsVal * string) :=
  match fuel with
  | O => None
  | S fuel' =>
      match parse_value fuel' s with
      | Some (v, r) =>
          match skip_ws r with
          | String c r' =>
              let n := nat_of_ascii c in
              if Nat.eqb n 93 then Some ([v], r')
              else if Nat.eqb n 44 then
                option_map (fun lr => (v :: fst lr, snd lr))
                           (parse_elements fuel' r')
              else None
          | EmptyString => None
          end
      | None => None
      end
  end

with parse_members (fuel : nat) (s : string) (acc : Obj)
  : option (Obj * string) :=
  match fuel with
  | O => None
  | S fuel' =>
      match skip_ws s with
      | String q s1 =>
          if Nat.eqb (nat_of_ascii q) 34 then
            match parse_chars s1 with
            | Some (k, r0) =>
                match skip_ws r0 with
                | String colon r1 =>
                    if Nat.eqb (nat_of_ascii colon) 58 then
                      match parse_value fuel' r1 with
                      | Some (v, r) =>
                          match skip_ws r with
                          | String c r' =>
                              let n := nat_of_ascii c in
                              if Nat.eqb n 125 then Some (set k v acc, r')
                              else if Nat.eqb n 44 then
                                parse_members fuel' r' (set k v acc)
                              else None
                          | EmptyString => None
                          end
                      | None => None
                      end
                    else None
                | EmptyString => None
                end
            | None => None
            end
          else None
      | EmptyString => None
      end
  end.

(** [ToString], applied by [JSON.parse] to its argument.  A Date prints
    as a host-specific sentence that begins with a weekday name; only its
    first word is kept. *)
Fixpoint ToString (v : JsVal) : string :=
  match v with
  | JUndef => "undefined"
  | JNull => "null"
  | JBool true => "true"
  | JBool false => "false"
  | JNum n => print_Z n
  | JStr s => s
  | JDate _ => "Date"
  | JInvalidDate => "Invalid Date"
  | JArr items =>
      let fix elements (l : list JsVal) : list string :=
        match l with
        | [] => []
        | JUndef :: l' | JNull :: l' => "" :: elements l'
        | x :: l' => ToString x :: elements l'
        end in
      join "," (elements items)
  | JObj _ => "[object Object]"
  end.

(** [JSON.parse(text)]; [None] is a thrown SyntaxError. *)
Definition parse (text : string) : option JsVal :=
  match parse_value (S (String.length text)) text with
  | Some (v, r) =>
      match skip_ws r with
      | EmptyString => Some v
      | _ => None
      end
  | None => None
  end.

End JSON.

(** ** The SQL engine

    What expo-sqlite keeps on disk, and the meaning of every statement the
    store issues.  Each table is a finite map from its declared primary key
    to the remaining columns, so that INSERT OR REPLACE is map insertion.
    Key columns hold text and integers as declared; a statement that binds
    anything else to a key column is rejected (such parameters cannot be
    given through the typed entry points used below). *)

Module Sql.

Inductive SqlVal : Type :=
| SqlNull
| SqlInt (n : Z)
| SqlText (s : string).

#[global] Instance SqlVal_eq_dec : EqDecision SqlVal.
Proof. solve_decision. Defined.

(** A JavaScript parameter as the binding layer passes it to SQLite;
    [None]: the value cannot be bound. *)
Definition bind_param (v : JsVal) : option SqlVal :=
  match v with
  | JUndef | JNull => Some SqlNull
  | JBool b => Some (SqlInt (if b then 1 else 0))
  | JNum n => Some (SqlInt n)
  | JStr s => Some (SqlText s)
  | JDate _ | JInvalidDate | JArr _ | JObj _ => None
  end.

(** A column value as the row object handed back to JavaScript has it. *)
Definition to_js (v : SqlVal) : JsVal :=
  match v with
  | SqlNull => JNull
  | SqlInt n => JNum n
  | SqlText s => JStr s
  end.

Module TopicRow.
Record t : Type := mk {
  created : SqlVal; updated : SqlVal; deleted : SqlVal; touched : SqlVal;
  read : SqlVal; recv : SqlVal; seq : SqlVal; clear : SqlVal;
  defacs : SqlVal; creds : SqlVal; public : SqlVal; trusted : SqlVal;
  private : SqlVal; _aux : SqlVal; _deleted : SqlVal;
  tags : SqlVal; acs : SqlVal }.
(** [SELECT *]: the row as a JavaScript object, columns in table order. *)
Definition object (name : string) (r : t) : Obj :=
  [ ("name", JStr name);
    ("created", to_js (created r)); ("updated", to_js (updated r));
    ("deleted", to_js (deleted r)); ("touched", to_js (touched r));
    ("read", to_js (read r)); ("recv", to_js (recv r));
    ("seq", to_js (seq r)); ("clear", to_js (clear r));
    ("defacs", to_js (defacs r)); ("creds", to_js (creds r));
    ("public", to_js (public r)); ("trusted", to_js (trusted r));
    ("private", to_js (private r)); ("_aux", to_js (_aux r));
    ("_deleted", to_js (_deleted r));
    ("tags", to_js (tags r)); ("acs", to_js (acs r)) ].
End TopicRow.

Module SubRow.
Record t : Type := mk {
  updated : SqlVal; mode : SqlVal; read : SqlVal; recv : SqlVal;
  clear : SqlVal; lastSeen : SqlVal; userAgent : SqlVal }.
Definition object (topic uid : string) (r : t) : Obj :=
  [ ("topic", JStr topic); ("uid", JStr uid);
    ("updated", to_js (updated r)); ("mode", to_js (mode r));
    ("read", to_js (read r)); ("recv", to_js (recv r));
    ("clear", to_js (clear r)); ("lastSeen", to_js (lastSeen r));
    ("userAgent", to_js (userAgent r)) ].
End SubRow.

Module MsgRow.
Record t : Type := mk {
  ts : SqlVal; _status : SqlVal; from_uid : SqlVal;
  head : SqlVal; content : SqlVal }.
Definition object (topic : string) (seq : Z) (r : t) : Obj :=
  [ ("topic", JStr topic); ("seq", JNum seq);
    ("ts", to_js (ts r)); ("_status", to_js (_status r));
    ("from_uid", to_js (from_uid r));
    ("head", to_js (head r)); ("content", to_js (content r)) ].
End MsgRow.

(** The five tables. *)
Record Database : Type := mkDatabase {
  topics : gmap string TopicRow.t;
  users : gmap string SqlVal;
  subscriptions : gmap (string * string) SubRow.t;
  messages : gmap (string * Z) MsgRow.t;
  dellog : gmap (string * Z * Z) Z }.

Definition empty_database : Database :=
  mkDatabase ∅ ∅ ∅ ∅ ∅.

Definition with_topics (f : gmap string TopicRow.t -> gmap string TopicRow.t)
    (d : Database) : Database :=
  mkDatabase (f (topics d)) (users d) (subscriptions d) (messages d) (dellog d).
Definition with_users (f : gmap string SqlVal -> gmap string SqlVal)
    (d : Database) : Database :=
  mkDatabase (topics d) (f (users d)) (subscriptions d) (messages d) (dellog d).
Definition with_subscriptions
    (f : gmap (string * string) SubRow.t -> gmap (string * string) SubRow.t)
    (d : Database) : Database :=
  mkDatabase (topics d) (users d) (f (subscriptions d)) (messages d) (dellog d).
Definition with_messages
    (f : gmap (string * Z) MsgRow.t -> gmap (string * Z) MsgRow.t)
    (d : Database) : Database :=
  mkDatabase (topics d) (users d) (subscriptions d) (f (messages d)) (dellog d).
Definition with_dellog
    (f : gmap (string * Z * Z) Z -> gmap (string * Z * Z) Z)
    (d : Database) : Database :=
  mkDatabase (topics d) (users d) (subscriptions d) (messages d) (f (dellog d)).

(** An engine error, as the JavaScript [Error] the call rejects with. *)
Record Error : Type := mkError { message : string }.

#[global] Instance Error_eq_dec : EqDecision Error.
Proof. solve_decision. Defined.

(** *** Rows selected by the WHERE clauses *)

Definition msg_of_topic (topic : string) (kv : (string * Z) * MsgRow.t) : bool :=
  String.eqb (fst (fst kv)) topic.

Definition msg_in_range (topic : string) (lo hi : Z)
    (kv : (string * Z) * MsgRow.t) : bool :=
  String.eqb (fst (fst kv)) topic
  && Z.leb lo (snd (fst kv)) && Z.ltb (snd (fst kv)) hi.

(** [ORDER BY seq DESC] *)
Definition seq_desc (a b : (string * Z) * MsgRow.t) : Prop :=
  snd (fst b) <= snd (fst a).

#[global] Instance seq_desc_dec a b : Decision (seq_desc a b).
Proof. unfold seq_desc. apply _. Defined.

(** [ORDER BY clear DESC] *)
Definition clear_desc (a b : (string * Z * Z) * Z) : Prop :=
  snd b <= snd a.

#[global] Instance clear_desc_dec a b : Decision (clear_desc a b).
Proof. unfold clear_desc. apply _. Defined.

Definition msg_object (kv : (string * Z) * MsgRow.t) : Obj :=
  MsgRow.object (fst (fst kv)) (snd (fst kv)) (snd kv).

Definition dellog_object (kv : (string * Z * Z) * Z) : Obj :=
  [ ("topic", JStr (fst (fst (fst kv)))); ("clear", JNum (snd kv));
    ("low", JNum (snd (fst (fst kv)))); ("hi", JNum (snd (fst kv))) ].

(** [SELECT * FROM messages WHERE topic = ? AND seq >= ? AND seq < ?
     ORDER BY seq DESC] *)
Definition select_messages (topic : string) (lo hi : Z) (d : Database)
  : list ((string * Z) * MsgRow.t) :=
  merge_sort seq_desc
    (List.filter (msg_in_range topic lo hi) (map_to_list (messages d))).

(** [LIMIT ?] *)
Definition limit_rows {A} (limit : option Z) (rows : list A) : list A :=
  match limit with
  | Some n => if Z.ltb n 0 then rows else take (Z.to_nat n) rows
  | None => rows
  end.

Definition dellog_low_in (topic : string) (lo hi : Z)
    (kv : (string * Z * Z) * Z) : bool :=
  String.eqb (fst (fst (fst kv))) topic
  && Z.leb lo (snd (fst (fst kv))) && Z.ltb (snd (fst (fst kv))) hi.

Definition dellog_clear_in (topic : string) (lo hi : Z)
    (kv : (string * Z * Z) * Z) : bool :=
  String.eqb (fst (fst (fst kv))) topic
  && Z.leb lo (snd kv) && Z.ltb (snd kv) hi.

Definition dellog_of_topic (topic : string) (kv : (string * Z * Z) * Z) : bool :=
  String.eqb (fst (fst (fst kv))) topic.


(** *** Statements

    One constructor per SQL text in the source; the parameters are the
    values that are bound to its question marks. *)

Inductive Statement : Type :=
| PRAGMA_journal_mode_WAL
| CREATE_TABLE_IF_NOT_EXISTS (table : string)
| CREATE_INDEX_IF_NOT_EXISTS_idx_dellog_topic_clear
| BEGIN
| COMMIT
| ROLLBACK
| SELECT_topics_WHERE_name (name : JsVal)
| INSERT_OR_REPLACE_INTO_topics (params : list JsVal)
| UPDATE_topics_SET_deleted (deleted : Z) (name : string)
| DELETE_FROM_topics_WHERE_name (name : string)
| DELETE_FROM_subscriptions_WHERE_topic (name : string)
| DELETE_FROM_messages_WHERE_topic (name : string)
| DELETE_FROM_dellog_WHERE_topic (name : string)
| SELECT_topics
| INSERT_OR_REPLACE_INTO_users (uid : string) (public : JsVal)
| DELETE_FROM_users_WHERE_uid (uid : string)
| SELECT_users
| SELECT_users_WHERE_uid (uid : string)
| SELECT_subscriptions_WHERE_topic_AND_uid (topic uid : string)
| INSERT_OR_REPLACE_INTO_subscriptions (params : list JsVal)
| SELECT_subscriptions_WHERE_topic (topic : string)
| INSERT_OR_REPLACE_INTO_messages (params : list JsVal)
| UPDATE_messages_SET_status (status : Z) (topic : string) (seq : Z)
| DELETE_FROM_messages_WHERE_range (topic : string) (from : option Z) (to : Z)
| DELETE_FROM_messages_WHERE_seq (topic : string) (from : option Z)
| SELECT_messages_WHERE_range (topic : string) (lo hi : Z) (limit : option Z)
| SELECT_messages_WHERE_seq (topic : string) (low : Z)
| INSERT_OR_REPLACE_INTO_dellog (topic : string) (clear low hi : Z)
| SELECT_dellog_WHERE_low_range (topic : string) (lo hi : Z)
| SELECT_dellog_WHERE_clear_range (topic : string) (lo hi : Z) (limit : option Z)
| SELECT_dellog_ORDER_BY_clear_DESC_LIMIT_1 (topic : string).

Definition constraint_failed : Error := mkError "constraint failed".
Definition bind_failed : Error := mkError "cannot bind parameter".

(** All parameters bound, or none. *)
Fixpoint bind_all (params : list JsVal) : option (list SqlVal) :=
  match params with
  | [] => Some []
  | p :: ps =>
      match bind_param p, bind_all ps with
      | Some v, Some vs => Some (v :: vs)
      | _, _ => None
      end
  end.

(** The rows that the three INSERT OR REPLACE statements with free-form
    parameters write: the key columns first, as in their column lists. *)
Definition topic_of_params (params : list JsVal)
  : Error + (string * TopicRow.t) :=
  match bind_all params with
  | Some [SqlText n; c; u; dl; t; rd; rc; sq; cl; da; cr; pb; tr; pr;
          ax; de; tg; ac] =>
      inr (n, TopicRow.mk c u dl t rd rc sq cl da cr pb tr pr ax de tg ac)
  | Some _ => inl constraint_failed
  | None => inl bind_failed
  end.

Definition subscription_of_params (params : list JsVal)
  : Error + ((string * string) * SubRow.t) :=
  match bind_all params with
  | Some [SqlText topic; SqlText uid; u; m; rd; rc; cl; ls; ua] =>
      inr ((topic, uid), SubRow.mk u m rd rc cl ls ua)
  | Some _ => inl constraint_failed
  | None => inl bind_failed
  end.

Definition message_of_params (params : list JsVal)
  : Error + ((string * Z) * MsgRow.t) :=
  match bind_all params with
  | Some [SqlText topic; SqlInt seq; ts; st; from; hd; ct] =>
      inr ((topic, seq), MsgRow.mk ts st from hd ct)
  | Some _ => inl constraint_failed
  | None => inl bind_failed
  end.

(** The meaning of a statement: the rows it returns and the database it
    leaves.  A failed statement leaves the database as it was. *)
Definition exec (st : Statement) (d : Database)
  : Error + (list Obj * Database) :=
  match st with
  | PRAGMA_journal_mode_WAL
  | CREATE_TABLE_IF_NOT_EXISTS _
  | CREATE_INDEX_IF_NOT_EXISTS_idx_dellog_topic_clear
  | BEGIN | COMMIT | ROLLBACK => inr ([], d)
  | SELECT_topics_WHERE_name name =>
      match name with
      | JStr n =>
          match topics d !! n with
          | Some r => inr ([TopicRow.object n r], d)
          | None => inr ([], d)
          end
      | _ => inr ([], d)
      end
  | INSERT_OR_REPLACE_INTO_topics params =>
      match topic_of_params params with
      | inr (name, row) => inr ([], with_topics (insert name row) d)
      | inl e => inl e
      end
  | UPDATE_topics_SET_deleted deleted name =>
      inr ([], with_topics
                 (alter (fun r =>
                    TopicRow.mk (TopicRow.created r) (TopicRow.updated r)
                      (TopicRow.deleted r) (TopicRow.touched r)
                      (TopicRow.read r) (TopicRow.recv r) (TopicRow.seq r)
                      (TopicRow.clear r) (TopicRow.defacs r)
                      (TopicRow.creds r) (TopicRow.public r)
                      (TopicRow.trusted r) (TopicRow.private r)
                      (TopicRow._aux r) (SqlInt deleted)
                      (TopicRow.tags r) (TopicRow.acs r)) name) d)
  | DELETE_FROM_topics_WHERE_name name =>
      inr ([], with_topics (delete name) d)
  | DELETE_FROM_subscriptions_WHERE_topic name =>
      inr ([], with_subscriptions
                 (filter (fun kv => fst (fst kv) <> name)) d)
  | DELETE_FROM_messages_WHERE_topic name =>
      inr ([], with_messages (filter (fun kv => fst (fst kv) <> name)) d)
  | DELETE_FROM_dellog_WHERE_topic name =>
      inr ([], with_dellog
                 (filter (fun kv => fst (fst (fst kv)) <> name)) d)
  | SELECT_topics =>
      inr (List.map (fun kv => TopicRow.object (fst kv) (snd kv))
             (map_to_list (topics d)), d)
  | INSERT_OR_REPLACE_INTO_users uid public =>
      match bind_param public with
      | Some v => inr ([], with_users (insert uid v) d)
      | None => inl bind_failed
      end
  | DELETE_FROM_users_WHERE_uid uid =>
      inr ([], with_users (delete uid) d)
  | SELECT_users =>
      inr (List.map (fun kv => [("uid", JStr (fst kv));
                                ("public", to_js (snd kv))])
             (map_to_list (users d)), d)
  | SELECT_users_WHERE_uid uid =>
      match users d !! uid with
      | Some v => inr ([[("uid", JStr uid); ("public", to_js v)]], d)
      | None => inr ([], d)
      end
  | SELECT_subscriptions_WHERE_topic_AND_uid topic uid =>
      match subscriptions d !! (topic, uid) with
      | Some r => inr ([SubRow.object topic uid r], d)
      | None => inr ([], d)
      end
  | INSERT_OR_REPLACE_INTO_subscriptions params =>
      match subscription_of_params params with
      | inr (key, row) => inr ([], with_subscriptions (insert key row) d)
      | inl e => inl e
      end
  | SELECT_subscriptions_WHERE_topic topic =>
      inr (List.map (fun kv => SubRow.object (fst (fst kv)) (snd (fst kv))
                                 (snd kv))
             (List.filter (fun kv => String.eqb (fst (fst kv)) topic)
                (map_to_list (subscriptions d))), d)
  | INSERT_OR_REPLACE_INTO_messages params =>
      match message_of_params params with
      | inr (key, row) => inr ([], with_messages (insert key row) d)
      | inl e => inl e
      end
  | UPDATE_messages_SET_status status topic seq =>
      inr ([], with_messages
                 (alter (fun r =>
                    MsgRow.mk (MsgRow.ts r) (SqlInt status)
                      (MsgRow.from_uid r) (MsgRow.head r) (MsgRow.content r))
                    (topic, seq)) d)
  | DELETE_FROM_messages_WHERE_range topic from to =>
      match from with
      | Some lo =>
          inr ([], with_messages
                     (filter (fun kv => msg_in_range topic lo to kv = false)) d)
      | None => inr ([], d)
      end
  | DELETE_FROM_messages_WHERE_seq topic from =>
      match from with
      | Some n => inr ([], with_messages (delete (topic, n)) d)
      | None => inr ([], d)
      end
  | SELECT_messages_WHERE_range topic lo hi limit =>
      inr (List.map msg_object
             (limit_rows limit (select_messages topic lo hi d)), d)
  | SELECT_messages_WHERE_seq topic low =>
      match messages d !! (topic, low) with
      | Some r => inr ([MsgRow.object topic low r], d)
      | None => inr ([], d)
      end
  | INSERT_OR_REPLACE_INTO_dellog topic clear low hi =>
      inr ([], with_dellog (insert (topic, low, hi) clear) d)
  | SELECT_dellog_WHERE_low_range topic lo hi =>
      inr (List.map dellog_object
             (merge_sort clear_desc
                (List.filter (dellog_low_in topic lo hi)
                   (map_to_list (dellog d)))), d)
  | SELECT_dellog_WHERE_clear_range topic lo hi limit =>
      inr (List.map dellog_object
             (limit_rows limit
                (merge_sort clear_desc
                   (List.filter (dellog_clear_in topic lo hi)
                      (map_to_list (dellog d))))), d)
  | SELECT_dellog_ORDER_BY_clear_DESC_LIMIT_1 topic =>
      inr (List.map dellog_object
             (take 1 (merge_sort clear_desc
                        (List.filter (dellog_of_topic topic)
                           (map_to_list (dellog d))))), d)
  end.

End Sql.
Export Sql.

(** ** The store object and its environment *)

Inductive Call : Type :=
| OpenDatabase
| CloseDatabase (handle : nat)
| DeleteDatabase
| Execute (handle : nat) (st : Statement).

(** One engine call and how it ended ([None]: it succeeded). *)
Record Event : Type := mkEvent { call : Call; failure : option Error }.

(** The fields of the [SQLiteStorage] instance ([_ready], [_db]) together
    with what lies behind the handle: the database file ([disk]), the
    script of outcomes of the engine calls to come ([faults]), and four
    ghost fields: the engine calls made ([trace]), the arguments handed to
    the caller's callback ([delivered]), the errors passed to [_onError]
    ([reported]) and the number of times the recovery wrapper has called
    an operation ([attempts]). *)
Record Store : Type := mkStore {
  _ready : bool;
  _db : option nat;
  disk : Database;
  faults : list (option Error);
  trace : list Event;
  delivered : list JsVal;
  reported : list Error;
  attempts : nat }.

Definition set_ready (b : bool) (s : Store) : Store :=
  mkStore b (_db s) (disk s) (faults s) (trace s) (delivered s) (reported s)
          (attempts s).
Definition set_db (h : option nat) (s : Store) : Store :=
  mkStore (_ready s) h (disk s) (faults s) (trace s) (delivered s) (reported s)
          (attempts s).
Definition set_disk (d : Database) (s : Store) : Store :=
  mkStore (_ready s) (_db s) d (faults s) (trace s) (delivered s) (reported s)
          (attempts s).
Definition set_faults (f : list (option Error)) (s : Store) : Store :=
  mkStore (_ready s) (_db s) (disk s) f (trace s) (delivered s) (reported s)
          (attempts s).
Definition log_event (e : Event) (s : Store) : Store :=
  mkStore (_ready s) (_db s) (disk s) (faults s) (trace s ++ [e])%list
          (delivered s) (reported s) (attempts s).
Definition log_delivered (v : JsVal) (s : Store) : Store :=
  mkStore (_ready s) (_db s) (disk s) (faults s) (trace s)
          (delivered s ++ [v])%list (reported s) (attempts s).
Definition log_reported (e : Error) (s : Store) : Store :=
  mkStore (_ready s) (_db s) (disk s) (faults s) (trace s) (delivered s)
          (reported s ++ [e])%list (attempts s).
Definition count_attempt (s : Store) : Store :=
  mkStore (_ready s) (_db s) (disk s) (faults s) (trace s) (delivered s)
          (reported s) (S (attempts s)).

(** A freshly constructed store over a database file. *)
Definition new_store (d : Database) (script : list (option Error)) : Store :=
  mkStore false None d script [] [] [] 0.

(** *** Promises

    An asynchronous method is a state transformer that either resolves
    with a value or rejects with an error. *)

Definition M (A : Type) : Type := Store -> (Error + A) * Store.

Definition resolve {A} (a : A) : M A := fun s => (inr a, s).
Definition reject {A} (e : Error) : M A := fun s => (inl e, s).

Definition and_then {A B} (c : M A) (k : A -> M B) : M B :=
  fun s =>
    match c s with
    | (inr a, s') => k a s'
    | (inl e, s') => (inl e, s')
    end.

Definition try_catch {A} (c : M A) (handler : Error -> M A) : M A :=
  fun s =>
    match c s with
    | (inr a, s') => (inr a, s')
    | (inl e, s') => handler e s'
    end.

Notation "'await' x ':=' c 'in' k" := (and_then c (fun x => k))
  (at level 10, x name, c at level 100, k at level 200,
   format "'[v' 'await'  x  ':='  c  'in' '/' k ']'").
Notation "'run' c 'in' k" := (and_then c (fun _ => k))
  (at level 10, c at level 100, k at level 200,
   format "'[v' 'run'  c  'in' '/' k ']'").

Definition update (f : Store -> Store) : M unit := fun s => (inr tt, f s).
Definition inspect {A} (f : Store -> A) : M A := fun s => (inr (f s), s).

(** A loop over a list, leftmost first. *)
Fixpoint for_each {A} (l : list A) (body : A -> M unit) : M unit :=
  match l with
  | [] => resolve tt
  | x :: l' => run body x in for_each l' body
  end.

(** *** Engine calls *)

Definition next_fault (s : Store) : option Error :=
  match faults s with
  | Some e :: _ => Some e
  | _ => None
  end.

Definition drop_fault (s : Store) : Store := set_faults (tail (faults s)) s.

(** [self._db.x(...)] when [self._db] is null. *)
Definition null_dereference : Error :=
  mkError "Cannot read properties of null".

(** A statement sent through the handle in [self._db]. *)
Definition statement (st : Statement) : M (list Obj) :=
  fun s =>
    match _db s with
    | None => (inl null_dereference, s)
    | Some h =>
        match next_fault s with
        | Some e =>
            (inl e, log_event (mkEvent (Execute h st) (Some e)) (drop_fault s))
        | None =>
            match exec st (disk s) with
            | inl e =>
                (inl e,
                 log_event (mkEvent (Execute h st) (Some e)) (drop_fault s))
            | inr (rows, d) =>
                (inr rows,
                 set_disk d
                   (log_event (mkEvent (Execute h st) None) (drop_fault s)))
            end
        end
    end.

Definition execAsync (st : Statement) : M unit :=
  run statement st in resolve tt.
Definition runAsync (st : Statement) : M unit :=
  run statement st in resolve tt.
Definition getAllAsync (st : Statement) : M (list Obj) := statement st.
(** The first row, or null. *)
Definition getFirstAsync (st : Statement) : M (option Obj) :=
  await rows := statement st in resolve (head rows).

(** [SQLite.openDatabaseAsync]: a new handle, numbered by the position of
    the call in the trace. *)
Definition openDatabaseAsync : M nat :=
  fun s =>
    match next_fault s with
    | Some e => (inl e, log_event (mkEvent OpenDatabase (Some e)) (drop_fault s))
    | None =>
        (inr (length (trace s)),
         log_event (mkEvent OpenDatabase None) (drop_fault s))
    end.

Definition closeAsync (h : nat) : M unit :=
  fun s =>
    match next_fault s with
    | Some e =>
        (inl e, log_event (mkEvent (CloseDatabase h) (Some e)) (drop_fault s))
    | None =>
        (inr tt, log_event (mkEvent (CloseDatabase h) None) (drop_fault s))
    end.

(** [withTransactionAsync(task)]: BEGIN, the task, COMMIT; when any of
    them throws, ROLLBACK and throw again.  SQLite's atomic commit is
    taken from the engine: whatever was written since BEGIN is lost
    unless COMMIT succeeded. *)
Definition withTransactionAsync (task : M unit) : M unit :=
  fun s =>
    let before := disk s in
    try_catch
      (run execAsync BEGIN in
       run task in
       execAsync COMMIT)
      (fun e =>
         run update (set_disk before) in
         run execAsync ROLLBACK in
         reject e) s.

(** [SQLite.deleteDatabaseAsync]: the file is gone. *)
Definition deleteDatabaseAsync : M unit :=
  fun s =>
    match next_fault s with
    | Some e =>
        (inl e, log_event (mkEvent DeleteDatabase (Some e)) (drop_fault s))
    | None =>
        (inr tt,
         set_disk empty_database
           (log_event (mkEvent DeleteDatabase None) (drop_fault s)))
    end.

(** ** The host's Date

    [new Date(text)]: the text is accepted when it has the shape
    [toISOString] prints, YYYY-MM-DDTHH:mm:ss.sssZ; other spellings that a
    host may accept are not recognised. *)

Module Date.

Definition is_digit (c : ascii) : bool :=
  let n := nat_of_ascii c in Nat.leb 48 n && Nat.leb n 57.

Fixpoint matches (shape text : string) : bool :=
  match shape, text with
  | EmptyString, EmptyString => true
  | String p shape', String c text' =>
      (if Ascii.eqb p "d" then is_digit c else Ascii.eqb p c)
      && matches shape' text'
  | _, _ => false
  end.

Definition new (v : JsVal) : JsVal :=
  match v with
  | JStr s => if matches "dddd-dd-ddTdd:dd:dd.dddZ" s then JDate s
              else JInvalidDate
  | JDate iso => JDate iso
  | _ => JInvalidDate
  end.

(** [isNaN(date)] *)
Definition isNaN (v : JsVal) : bool :=
  match v with JDate _ => false | _ => true end.

(** [date.toISOString()] throws a RangeError on an invalid date. *)
Definition toISOString (v : JsVal) : Error + JsVal :=
  match v with
  | JDate iso => inr (JStr iso)
  | _ => inl (mkError "Invalid time value")
  end.

End Date.

(** ** The store: [class SQLiteStorage] *)

Module SQLiteStorage.

Definition TOPIC_FIELDS : list string :=
  ["created"; "updated"; "deleted"; "touched"; "read"; "recv"; "seq";
   "clear"; "defacs"; "creds"; "public"; "trusted"; "private"; "_aux";
   "_deleted"].

Definition SUBSCRIPTION_FIELDS : list string :=
  ["updated"; "mode"; "read"; "recv"; "clear"; "lastSeen"; "userAgent"].

Definition MESSAGE_FIELDS : list string :=
  ["topic"; "seq"; "ts"; "_status"; "from"; "head"; "content"].

(** *** Lifecycle *)

Definition _createTables : M unit :=
  run execAsync (CREATE_TABLE_IF_NOT_EXISTS "topics") in
  run execAsync (CREATE_TABLE_IF_NOT_EXISTS "users") in
  run execAsync (CREATE_TABLE_IF_NOT_EXISTS "subscriptions") in
  run execAsync (CREATE_TABLE_IF_NOT_EXISTS "messages") in
  run execAsync (CREATE_TABLE_IF_NOT_EXISTS "dellog") in
  execAsync CREATE_INDEX_IF_NOT_EXISTS_idx_dellog_topic_clear.

Definition initDatabase : M nat :=
  try_catch
    (await db := openDatabaseAsync in
     run update (set_db (Some db)) in
     run execAsync PRAGMA_journal_mode_WAL in
     run _createTables in
     run update (set_ready true) in
     resolve db)
    (fun err =>
       run update (log_reported err) in
       reject err).

Definition deleteDatabase : M bool :=
  try_catch
    (await db := inspect _db in
     run match db with
         | Some h =>
             run closeAsync h in
             update (set_db None)
         | None => resolve tt
         end in
     run deleteDatabaseAsync in
     run update (set_ready false) in
     resolve true)
    (fun err =>
       run update (log_reported err) in
       reject err).

Definition isReady (s : Store) : bool :=
  _ready s && match _db s with Some _ => true | None => false end.

(** *** Recovery *)

Definition _recoverDatabase : M bool :=
  try_catch
    (await db := inspect _db in
     run match db with
         | Some h =>
             run try_catch (closeAsync h) (fun closeErr => resolve tt) in
             update (set_db None)
         | None => resolve tt
         end in
     run update (set_ready false) in
     run initDatabase in
     resolve true)
    (fun err => resolve false).

Definition isStaleHandle (err : Error) : bool :=
  negb (String.eqb (message err) "")
  && (includes (message err) "NullPointerException"
      || includes (message err) "prepareAsync"
      || includes (message err) "database is not open"
      || includes (message err) "SQLiteDatabase").

(** [await operation()], counted in the ghost field [attempts]. *)
Definition attempt {A} (operation : M A) : M A :=
  fun s => operation (count_attempt s).

Definition _withRecovery {A} (operation : M A) : M A :=
  try_catch (attempt operation)
    (fun err =>
       if isStaleHandle err then
         await recovered := _recoverDatabase in
         if recovered then attempt operation else reject err
       else reject err).

(** *** Private helpers *)

Definition _parseJSON (str : JsVal) : JsVal :=
  if negb (truthy str) then JNull
  else match JSON.parse (JSON.ToString str) with
       | Some v => v
       | None => JNull
       end.

Definition _parseDate (str : JsVal) : JsVal :=
  if negb (truthy str) then JNull
  else let date := Date.new str in
       if Date.isNaN date then JNull else date.

(** The topic handed to [updTopic]: its own properties, and, when it is
    a Topic instance, what [getAccessMode().jsonHelper()] returns. *)
Record TopicArg : Type := mkTopicArg {
  own : Obj;
  getAccessMode : option JsVal }.

Definition _serializeTopic (dst : option Obj) (src : TopicArg) : Obj :=
  let res := match dst with
             | Some d => d
             | None => [("name", get "name" (own src))]
             end in
  let res :=
    fold_left
      (fun res f =>
         if hasOwnProperty f (own src) then
           if is_object (get f (own src))
           then set f (JSON.stringify (get f (own src))) res
           else set f (get f (own src)) res
         else res)
      TOPIC_FIELDS res in
  let res :=
    if is_boolean (get "_deleted" res)
    then set "_deleted" (JNum (if truthy (get "_deleted" res) then 1 else 0)) res
    else res in
  let res :=
    if isArray (get "_tags" (own src))
    then set "tags" (JSON.stringify (get "_tags" (own src))) res
    else res in
  let res :=
    if truthy (get "acs" (own src))
    then set "acs"
           (JSON.stringify
              (match getAccessMode src with
               | Some json => json
               | None => get "acs" (own src)
               end)) res
    else res in
  res.

Definition set_if (cond : JsVal) (k : string) (v : JsVal) (o : Obj) : Obj :=
  if truthy cond then set k v o else o.

Definition _deserializeTopicRow (row : Obj) : Obj :=
  let topic :=
    [ ("name", get "name" row);
      ("created", _parseDate (get "created" row));
      ("updated", _parseDate (get "updated" row));
      ("deleted", _parseDate (get "deleted" row));
      ("touched", _parseDate (get "touched" row));
      ("read", or_else (get "read" row) (JNum 0));
      ("recv", or_else (get "recv" row) (JNum 0));
      ("seq", or_else (get "seq" row) (JNum 0));
      ("clear", or_else (get "clear" row) (JNum 0));
      ("_deleted", JBool (match get "_deleted" row with
                          | JNum n => Z.eqb n 1
                          | _ => false
                          end)) ] in
  let topic := set_if (get "defacs" row) "defacs" (_parseJSON (get "defacs" row)) topic in
  let topic := set_if (get "creds" row) "creds" (_parseJSON (get "creds" row)) topic in
  let topic := set_if (get "public" row) "public" (_parseJSON (get "public" row)) topic in
  let topic := set_if (get "trusted" row) "trusted" (_parseJSON (get "trusted" row)) topic in
  let topic := set_if (get "private" row) "private" (_parseJSON (get "private" row)) topic in
  let topic := set_if (get "_aux" row) "_aux" (_parseJSON (get "_aux" row)) topic in
  let topic := set_if (get "tags" row) "tags" (_parseJSON (get "tags" row)) topic in
  let topic := set_if (get "acs" row) "acs" (_parseJSON (get "acs" row)) topic in
  topic.

Definition _serializeSubscription (dst : option Obj) (topicName uid : string)
    (sub : Obj) : Obj :=
  let res := match dst with
             | Some d => d
             | None => [("topic", JStr topicName); ("uid", JStr uid)]
             end in
  fold_left
    (fun res f =>
       if hasOwnProperty f sub then set f (get f sub) res else res)
    SUBSCRIPTION_FIELDS res.

Definition _deserializeSubscriptionRow (row : Obj) : Obj :=
  [ ("topic", get "topic" row);
    ("uid", get "uid" row);
    ("updated", _parseDate (get "updated" row));
    ("mode", get "mode" row);
    ("read", or_else (get "read" row) (JNum 0));
    ("recv", or_else (get "recv" row) (JNum 0));
    ("clear", or_else (get "clear" row) (JNum 0));
    ("lastSeen", _parseDate (get "lastSeen" row));
    ("userAgent", get "userAgent" row) ].

(** One round of the loop over [MESSAGE_FIELDS]; [toISOString] may
    throw. *)
Definition serialize_message_field (msg : Obj) (acc : Error + Obj)
    (f : string) : Error + Obj :=
  match acc with
  | inl e => inl e
  | inr res =>
      if hasOwnProperty f msg then
        if String.eqb f "head" || String.eqb f "content" then
          inr (set f (if is_object (get f msg)
                      then JSON.stringify (get f msg)
                      else get f msg) res)
        else if String.eqb f "ts" then
          if is_date (get f msg) then
            match Date.toISOString (get f msg) with
            | inr iso => inr (set f iso res)
            | inl e => inl e
            end
          else inr (set f (get f msg) res)
        else inr (set f (get f msg) res)
      else inr res
  end.

Definition _serializeMessage (dst : option Obj) (msg : Obj) : Error + Obj :=
  let res := match dst with Some d => d | None => [] end in
  fold_left (serialize_message_field msg) MESSAGE_FIELDS (inr res).

Definition _deserializeMessageRow (row : Obj) : Obj :=
  let msg :=
    [ ("topic", get "topic" row);
      ("seq", get "seq" row);
      ("ts", if truthy (get "ts" row) then Date.new (get "ts" row) else JNull);
      ("_status", or_else (get "_status" row) (JNum 0));
      ("from", get "from_uid" row) ] in
  let msg := set_if (get "head" row) "head" (_parseJSON (get "head" row)) msg in
  let msg := set_if (get "content" row) "content" (_parseJSON (get "content" row)) msg in
  msg.

(** [callback.call(context, v)] for each [v], when a callback is given.
    The callback is an observer: its arguments are logged in order. *)
Definition call_back (callback : bool) (args : list JsVal) : M unit :=
  if callback then for_each args (fun v => update (log_delivered v))
  else resolve tt.

Definition guarded {A} (empty : A) (operation : M A) : M A :=
  fun s => if negb (isReady s) then resolve empty s
           else _withRecovery operation s.

(** *** Topics *)

(** The parameter array of the INSERT in [updTopic]. *)
Definition updTopic_params (data : Obj) : list JsVal :=
  [ get "name" data; get "created" data; get "updated" data;
    get "deleted" data; get "touched" data;
    get "read" data; get "recv" data; get "seq" data; get "clear" data;
    get "defacs" data; get "creds" data; get "public" data;
    get "trusted" data; get "private" data;
    get "_aux" data; get "_deleted" data; get "tags" data; get "acs" data ].

Definition updTopic (topic : TopicArg) : M unit :=
  if truthy (get "_new" (own topic)) then resolve tt
  else
    guarded tt
      (await existing :=
         getFirstAsync (SELECT_topics_WHERE_name (get "name" (own topic))) in
       let data := _serializeTopic existing topic in
       runAsync (INSERT_OR_REPLACE_INTO_topics (updTopic_params data))).

Definition markTopicAsDeleted (name : string) (deleted : bool) : M unit :=
  guarded tt
    (runAsync (UPDATE_topics_SET_deleted (if deleted then 1 else 0) name)).

Definition remTopic (name : string) : M unit :=
  guarded tt
    (withTransactionAsync
       (run runAsync (DELETE_FROM_topics_WHERE_name name) in
        run runAsync (DELETE_FROM_subscriptions_WHERE_topic name) in
        run runAsync (DELETE_FROM_messages_WHERE_topic name) in
        runAsync (DELETE_FROM_dellog_WHERE_topic name))).

Definition mapTopics (callback : bool) : M (list Obj) :=
  guarded []
    (await rows := getAllAsync SELECT_topics in
     let topics := List.map _deserializeTopicRow rows in
     run call_back callback (List.map JObj topics) in
     resolve topics).

(** [topic.setAccessMode(acs)] belongs to the Topic class; here it
    records the access mode on the topic. *)
Definition setAccessMode (acs : JsVal) (topic : Obj) : Obj :=
  set "acs" acs topic.

Definition deserializeTopic (topic src : Obj) : Obj :=
  let topic :=
    fold_left
      (fun topic f =>
         if hasOwnProperty f src then set f (get f src) topic else topic)
      TOPIC_FIELDS topic in
  let topic :=
    if isArray (get "tags" src) then set "_tags" (get "tags" src) topic
    else topic in
  let topic :=
    if truthy (get "acs" src) then setAccessMode (get "acs" src) topic
    else topic in
  let topic := set "seq" (JNum (bitor0 (get "seq" topic))) topic in
  let topic := set "read" (JNum (bitor0 (get "read" topic))) topic in
  set "unread"
    (JNum (Z.max 0 (number (get "seq" topic) - number (get "read" topic))))
    topic.

(** *** Users *)

Definition user_of_row (row : Obj) : Obj :=
  [ ("uid", get "uid" row); ("public", _parseJSON (get "public" row)) ].

(** An absent second argument is [JUndef]. *)
Definition updUser (uid : string) (pub : JsVal) : M unit :=
  match pub with
  | JUndef => resolve tt
  | _ =>
      guarded tt
        (runAsync (INSERT_OR_REPLACE_INTO_users uid (JSON.stringify pub)))
  end.

Definition remUser (uid : string) : M unit :=
  guarded tt (runAsync (DELETE_FROM_users_WHERE_uid uid)).

Definition mapUsers (callback : bool) : M (list Obj) :=
  guarded []
    (await rows := getAllAsync SELECT_users in
     let users := List.map user_of_row rows in
     run call_back callback (List.map JObj users) in
     resolve users).

(** [None] is [undefined]. *)
Definition getUser (uid : string) : M (option Obj) :=
  guarded None
    (await row := getFirstAsync (SELECT_users_WHERE_uid uid) in
     match row with
     | None => resolve None
     | Some row => resolve (Some (user_of_row row))
     end).

(** *** Subscriptions *)

Definition updSubscription (topicName uid : string) (sub : Obj) : M unit :=
  guarded tt
    (await existing :=
       getFirstAsync (SELECT_subscriptions_WHERE_topic_AND_uid topicName uid) in
     let data := _serializeSubscription existing topicName uid sub in
     runAsync
       (INSERT_OR_REPLACE_INTO_subscriptions
          [ get "topic" data; get "uid" data; get "updated" data;
            get "mode" data; get "read" data; get "recv" data;
            get "clear" data; get "lastSeen" data; get "userAgent" data ])).

Definition mapSubscriptions (topicName : string) (callback : bool)
  : M (list Obj) :=
  guarded []
    (await rows := getAllAsync (SELECT_subscriptions_WHERE_topic topicName) in
     let subs := List.map _deserializeSubscriptionRow rows in
     run call_back callback (List.map JObj subs) in
     resolve subs).

(** *** Messages *)

(** [v !== undefined ? v : null] *)
Definition undefined_to_null (v : JsVal) : JsVal :=
  match v with JUndef => JNull | _ => v end.

(** [const params = [...]] in [addMessage]. *)
Definition addMessage_params (data : Obj) : list JsVal :=
  [ get "topic" data;
    get "seq" data;
    undefined_to_null (get "ts" data);
    undefined_to_null (get "_status" data);
    undefined_to_null (get "from" data);
    undefined_to_null (get "head" data);
    undefined_to_null (get "content" data) ].

Definition addMessage (msg : Obj) : M unit :=
  guarded tt
    (match _serializeMessage None msg with
     | inl e => reject e
     | inr data =>
         let params := addMessage_params data in
         runAsync (INSERT_OR_REPLACE_INTO_messages params)
     end).

Definition updMessageStatus (topicName : string) (seq status : Z) : M unit :=
  guarded tt (runAsync (UPDATE_messages_SET_status status topicName seq)).

(** [!n] for an optional number *)
Definition falsy_num (n : option Z) : bool :=
  match n with
  | Some n => Z.eqb n 0
  | None => true
  end.

Definition positive_num (n : option Z) : bool :=
  match n with
  | Some n => Z.ltb 0 n
  | None => false
  end.

Definition remMessages (topicName : string) (from to : option Z) : M unit :=
  guarded tt
    (if falsy_num from && falsy_num to then
       runAsync (DELETE_FROM_messages_WHERE_topic topicName)
     else
       match to with
       | Some t =>
           if Z.ltb 0 t
           then runAsync (DELETE_FROM_messages_WHERE_range topicName from t)
           else runAsync (DELETE_FROM_messages_WHERE_seq topicName from)
       | None => runAsync (DELETE_FROM_messages_WHERE_seq topicName from)
       end).

(** [{low, hi}] with [hi] optional. *)
Record IdRange : Type := mkIdRange { low : Z; hi : option Z }.

(** The query object of [readMessages] and [readDelLog]. *)
Record Query : Type := mkQuery {
  since : option Z;
  before : option Z;
  limit : option Z;
  ranges : option (list IdRange) }.

Definition empty_query : Query := mkQuery None None None None.

(** [n > 0 ? n : fallback] *)
Definition positive_or (n : option Z) (fallback : Z) : Z :=
  match n with
  | Some n => if Z.ltb 0 n then n else fallback
  | None => fallback
  end.

(** [n | 0] for an optional number *)
Definition int32_of (n : option Z) : Z :=
  match n with
  | Some n => ToInt32 n
  | None => 0
  end.

(** The loop over [query.ranges] in [readMessages]. *)
Fixpoint readMessages_ranges (topicName : string) (callback : bool)
    (ranges : list IdRange) (result : list Obj) : M (list Obj) :=
  match ranges with
  | [] => resolve result
  | range :: rest =>
      await msgs :=
        match hi range with
        | Some h =>
            if Z.eqb h 0
            then getAllAsync (SELECT_messages_WHERE_seq topicName (low range))
            else getAllAsync
                   (SELECT_messages_WHERE_range topicName (low range) h None)
        | None =>
            getAllAsync (SELECT_messages_WHERE_seq topicName (low range))
        end in
      let deserialized := List.map _deserializeMessageRow msgs in
      run call_back callback [JArr (List.map JObj deserialized)] in
      readMessages_ranges topicName callback rest (result ++ deserialized)%list
  end.

Definition readMessages (topicName : string) (query : option Query)
    (callback : bool) : M (list Obj) :=
  let query := match query with Some q => q | None => empty_query end in
  guarded []
    (match ranges query with
     | Some ranges => readMessages_ranges topicName callback ranges []
     | None =>
         let since := positive_or (since query) 0 in
         let before := positive_or (before query) MAX_SAFE_INTEGER in
         let limit := int32_of (limit query) in
         await rows :=
           getAllAsync
             (SELECT_messages_WHERE_range topicName since before
                (if Z.ltb 0 limit then Some limit else None)) in
         let result := List.map _deserializeMessageRow rows in
         run call_back callback (List.map JObj result) in
         resolve result
     end).

(** *** Delete log *)

(** [r.hi || (r.low + 1)] *)
Definition hi_or_next (r : IdRange) : Z :=
  match hi r with
  | Some h => if Z.eqb h 0 then low r + 1 else h
  | None => low r + 1
  end.

Definition addDelLog (topicName : string) (delId : Z) (ranges : list IdRange)
  : M unit :=
  guarded tt
    (withTransactionAsync
       (for_each ranges
          (fun r =>
             runAsync
               (INSERT_OR_REPLACE_INTO_dellog topicName delId (low r)
                  (hi_or_next r))))).

Definition low_hi (entry : Obj) : Obj :=
  [ ("low", get "low" entry); ("hi", get "hi" entry) ].

(** The loop over [query.ranges] in [readDelLog]. *)
Fixpoint readDelLog_ranges (topicName : string) (ranges : list IdRange)
    (result : list Obj) : M (list Obj) :=
  match ranges with
  | [] => resolve result
  | range :: rest =>
      await entries :=
        getAllAsync
          (SELECT_dellog_WHERE_low_range topicName (low range)
             (hi_or_next range)) in
      readDelLog_ranges topicName rest (result ++ List.map low_hi entries)%list
  end.

Definition readDelLog (topicName : string) (query : option Query)
  : M (list Obj) :=
  let query := match query with Some q => q | None => empty_query end in
  guarded []
    (match ranges query with
     | Some ranges => readDelLog_ranges topicName ranges []
     | None =>
         let since := positive_or (since query) 0 in
         let before := positive_or (before query) MAX_SAFE_INTEGER in
         let limit := int32_of (limit query) in
         await rows :=
           getAllAsync
             (SELECT_dellog_WHERE_clear_range topicName since before
                (if Z.ltb 0 limit then Some limit else None)) in
         resolve (List.map low_hi rows)
     end).

Definition maxDelId (topicName : string) : M (option Obj) :=
  guarded None
    (await row :=
       getFirstAsync (SELECT_dellog_ORDER_BY_clear_DESC_LIMIT_1 topicName) in
     match row with
     | None => resolve None
     | Some row =>
         resolve (Some [ ("topic", get "topic" row); ("clear", get "clear" row);
                         ("low", get "low" row); ("hi", get "hi" row) ])
     end).

End SQLiteStorage.
Export SQLiteStorage.

(** ** The public contract, one request per repository method *)

Inductive Request : Type :=
| UpdTopic (topic : TopicArg)
| MarkTopicAsDeleted (name : string) (deleted : bool)
| RemTopic (name : string)
| MapTopics (callback : bool)
| UpdUser (uid : string) (pub : JsVal)
| RemUser (uid : string)
| MapUsers (callback : bool)
| GetUser (uid : string)
| UpdSubscription (topicName uid : string) (sub : Obj)
| MapSubscriptions (topicName : string) (callback : bool)
| AddMessage (msg : Obj)
| UpdMessageStatus (topicName : string) (seq status : Z)
| RemMessages (topicName : string) (from to : option Z)
| ReadMessages (topicName : string) (query : option Query) (callback : bool)
| AddDelLog (topicName : string) (delId : Z) (ranges : list IdRange)
| ReadDelLog (topicName : string) (query : option Query)
| MaxDelId (topicName : string).

(** What the returned promise resolves with. *)
Inductive Reply : Type :=
| Void
| Undefined
| Array (rows : list Obj)
| Object (row : Obj).

Definition void (c : M unit) : M Reply := run c in resolve Void.
Definition array (c : M (list Obj)) : M Reply :=
  await rows := c in resolve (Array rows).
Definition object_or_undefined (c : M (option Obj)) : M Reply :=
  await row := c in
  resolve (match row with Some o => Object o | None => Undefined end).

Definition perform (r : Request) : M Reply :=
  match r with
  | UpdTopic topic => void (updTopic topic)
  | MarkTopicAsDeleted name deleted => void (markTopicAsDeleted name deleted)
  | RemTopic name => void (remTopic name)
  | MapTopics callback => array (mapTopics callback)
  | UpdUser uid pub => void (updUser uid pub)
  | RemUser uid => void (remUser uid)
  | MapUsers callback => array (mapUsers callback)
  | GetUser uid => object_or_undefined (getUser uid)
  | UpdSubscription topicName uid sub => void (updSubscription topicName uid sub)
  | MapSubscriptions topicName callback =>
      array (mapSubscriptions topicName callback)
  | AddMessage msg => void (addMessage msg)
  | UpdMessageStatus topicName seq status =>
      void (updMessageStatus topicName seq status)
  | RemMessages topicName from to => void (remMessages topicName from to)
  | ReadMessages topicName query callback =>
      array (readMessages topicName query callback)
  | AddDelLog topicName delId ranges => void (addDelLog topicName delId ranges)
  | ReadDelLog topicName query => array (readDelLog topicName query)
  | MaxDelId topicName => object_or_undefined (maxDelId topicName)
  end.

(** The reply of a store that is not ready: an empty array for
    enumerations and range reads, undefined for single-row reads, void
    for mutations. *)
Definition idle_reply (r : Request) : Reply :=
  match r with
  | MapTopics _ | MapUsers _ | MapSubscriptions _ _
  | ReadMessages _ _ _ | ReadDelLog _ _ => Array []
  | GetUser _ | MaxDelId _ => Undefined
  | _ => Void
  end.

(** * Vocabulary of the properties

    Predicates on operations, the rows and results the statements below
    speak of, and the sample stores used to run the code. *)

(** [preserves proj c]: running [c] leaves the component [proj] of the
    state as it was, whether [c] resolves or rejects. *)
Definition preserves {A X} (proj : Store -> X) (c : M A) : Prop :=
  forall s, proj (snd (c s)) = proj s.

(** Components that engine calls do not touch. *)
Definition engine_frame {X} (proj : Store -> X) : Prop :=
  (forall e s, proj (log_event e s) = proj s)
  /\ (forall s, proj (drop_fault s) = proj s).

(** Components that a write to the database file does not touch. *)
Definition disk_frame {X} (proj : Store -> X) : Prop :=
  forall d s, proj (set_disk d s) = proj s.

(** Statements that do not write. *)
Definition read_only (st : Statement) : Prop :=
  forall d, match exec st d with
            | inr (_, d') => d' = d
            | inl _ => True
            end.

(** What the table holds for a counter: an integer, or NULL, which reads
    as 0. *)
Definition counter_value (v : SqlVal) : option Z :=
  match v with
  | SqlNull => Some 0
  | SqlInt n => Some n
  | SqlText _ => None
  end.

(** A stored topic as the client loads it: [mapTopics] hands over
    [_deserializeTopicRow] of the row and [deserializeTopic] copies that
    into the topic object. *)
Definition load_topic (name : string) (row : TopicRow.t) (topic : Obj) : Obj :=
  deserializeTopic topic (_deserializeTopicRow (TopicRow.object name row)).

(** The numbers [| 0] leaves as they are. *)
Definition int32_range (n : Z) : Prop := - 2 ^ 31 <= n < 2 ^ 31.

(** [computes op rel]: whenever [op] resolves, the database before, the
    value it resolves with and the database after are related by [rel]. *)
Definition computes {A} (op : M A) (rel : Database -> A -> Database -> Prop)
  : Prop :=
  forall s a s', op s = (inr a, s') -> rel (disk s) a (disk s').

(** [atomic op]: whenever [op] rejects, the database is as it was. *)
Definition atomic {A} (op : M A) : Prop :=
  forall s e s', op s = (inl e, s') -> disk s' = disk s.

(** The rows a query returns. *)
Definition rows_of (st : Statement) (d : Database) : list Obj :=
  match exec st d with
  | inr (rows, _) => rows
  | inl _ => []
  end.

(** No engine failure is scripted. *)
Definition calm (s : Store) : bool :=
  forallb (fun o => match o with None => true | Some _ => false end) (faults s).

(** The store is ready and no failure is scripted. *)
Definition steady (s : Store) : Prop := isReady s = true /\ calm s = true.

(** The database without topic [name]: its topic row and every
    subscription, message and deletion-log row scoped to it are gone. *)
Definition purge (name : string) (d : Database) : Database :=
  mkDatabase
    (delete name (topics d))
    (users d)
    (filter (fun kv => fst (fst kv) <> name) (subscriptions d))
    (filter (fun kv => fst (fst kv) <> name) (messages d))
    (filter (fun kv => fst (fst (fst kv)) <> name) (dellog d)).

(** The four DELETE statements of [remTopic]. *)
Definition remTopic_task (name : string) : M unit :=
  run runAsync (DELETE_FROM_topics_WHERE_name name) in
  run runAsync (DELETE_FROM_subscriptions_WHERE_topic name) in
  run runAsync (DELETE_FROM_messages_WHERE_topic name) in
  runAsync (DELETE_FROM_dellog_WHERE_topic name).

(** [reads op f]: [op] resolves only with [f] of the database, and never
    writes. *)
Definition reads {A} (op : M A) (f : Database -> A) : Prop :=
  computes op (fun d a d' => a = f d /\ d' = d) /\ atomic op.

(** The statement [readMessages] sends for one range. *)
Definition range_statement (topicName : string) (range : IdRange) : Statement :=
  match hi range with
  | Some h =>
      if Z.eqb h 0 then SELECT_messages_WHERE_seq topicName (low range)
      else SELECT_messages_WHERE_range topicName (low range) h None
  | None => SELECT_messages_WHERE_seq topicName (low range)
  end.

(** The messages [readMessages] returns for one range. *)
Definition range_group (topicName : string) (d : Database) (range : IdRange)
  : list Obj :=
  List.map _deserializeMessageRow (rows_of (range_statement topicName range) d).

(** The statement of the single bounded scan. *)
Definition scan_statement (topicName : string) (query : Query) : Statement :=
  SELECT_messages_WHERE_range topicName
    (positive_or (since query) 0)
    (positive_or (before query) MAX_SAFE_INTEGER)
    (if Z.ltb 0 (int32_of (limit query)) then Some (int32_of (limit query))
     else None).

(** What [readMessages] returns, as a function of the database. *)
Definition readMessages_result (topicName : string) (query : option Query)
    (d : Database) : list Obj :=
  let query := match query with Some q => q | None => empty_query end in
  match ranges query with
  | Some ranges => flat_map (range_group topicName d) ranges
  | None =>
      List.map _deserializeMessageRow (rows_of (scan_statement topicName query) d)
  end.

(** Likewise for the deletion log. *)
Definition readDelLog_result (topicName : string) (query : option Query)
    (d : Database) : list Obj :=
  let query := match query with Some q => q | None => empty_query end in
  match ranges query with
  | Some ranges =>
      flat_map
        (fun range =>
           List.map low_hi
             (rows_of (SELECT_dellog_WHERE_low_range topicName (low range)
                         (hi_or_next range)) d))
        ranges
  | None =>
      List.map low_hi
        (rows_of
           (SELECT_dellog_WHERE_clear_range topicName
              (positive_or (since query) 0)
              (positive_or (before query) MAX_SAFE_INTEGER)
              (if Z.ltb 0 (int32_of (limit query))
               then Some (int32_of (limit query)) else None)) d)
  end.

(** The entry [maxDelId] builds from the row it gets. *)
Definition maxDelId_result (row : option Obj) : option Obj :=
  match row with
  | None => None
  | Some row =>
      Some [ ("topic", get "topic" row); ("clear", get "clear" row);
             ("low", get "low" row); ("hi", get "hi" row) ]
  end.

(** The row [addMessage(msg)] writes, with its key; [None] when the
    message cannot be stored (a timestamp that is an invalid Date, a
    missing topic or sequence number). *)
Definition written_by (msg : Obj) : option ((string * Z) * MsgRow.t) :=
  match _serializeMessage None msg with
  | inr data =>
      match message_of_params (addMessage_params data) with
      | inr kr => Some kr
      | inl _ => None
      end
  | inl _ => None
  end.

(** The operation [addMessage] hands to [_withRecovery]. *)
Definition addMessage_body (msg : Obj) : M unit :=
  match _serializeMessage None msg with
  | inl e => reject e
  | inr data => runAsync (INSERT_OR_REPLACE_INTO_messages (addMessage_params data))
  end.

(** The column value kept for a JavaScript value: objects (arrays, dates
    included) as their JSON text, everything else as it is bound. *)
Definition stored (v : JsVal) : SqlVal :=
  match v with
  | JUndef | JNull => SqlNull
  | JBool b => SqlInt (if b then 1 else 0)
  | JNum n => SqlInt n
  | JStr s => SqlText s
  | JDate _ | JInvalidDate | JArr _ | JObj _ =>
      match JSON.serialize v with
      | Some text => SqlText text
      | None => SqlNull
      end
  end.

(** [typeof v === 'object' && v !== null ? JSON.stringify(v) : v] *)
Definition encode (v : JsVal) : JsVal :=
  if is_object v then JSON.stringify v else v.

(** The value one round of the loop in [_serializeMessage] assigns. *)
Definition message_field (msg : Obj) (f : string) : Error + JsVal :=
  if String.eqb f "head" || String.eqb f "content" then inr (encode (get f msg))
  else if String.eqb f "ts" then
    if is_date (get f msg) then Date.toISOString (get f msg)
    else inr (get f msg)
  else inr (get f msg).

(** The JSON text kept for a value, NULL when it has none. *)
Definition stored_json (v : JsVal) : SqlVal :=
  match JSON.serialize v with
  | Some text => SqlText text
  | None => SqlNull
  end.

(** A plain value: [undefined], [null], a boolean, a number or a string;
    no object, array or Date. *)
Definition plain (v : JsVal) : bool := negb (is_object v).

(** A message for (topic, seq): its [topic] is that string and its [seq]
    that number.  Its status and sender are plain values and its
    timestamp is a valid Date or a plain value; its head and content are
    any values, objects and arrays included. *)
Definition message_for (topic : string) (seq : Z) (msg : Obj) : bool :=
  match get "topic" msg, get "seq" msg with
  | JStr t, JNum n =>
      String.eqb t topic && Z.eqb n seq
      && plain (get "_status" msg) && plain (get "from" msg)
      && match get "ts" msg with
         | JDate _ => true
         | ts => plain ts
         end
  | _, _ => false
  end.

(** The row kept for a message: a Date timestamp as its ISO text, the
    other columns as the stored form of the message's properties. *)
Definition message_row (msg : Obj) : MsgRow.t :=
  MsgRow.mk
    (match get "ts" msg with
     | JDate iso => SqlText iso
     | ts => stored ts
     end)
    (stored (get "_status" msg)) (stored (get "from" msg))
    (stored (get "head" msg)) (stored (get "content" msg)).

(** The rule of the loop over [TOPIC_FIELDS] in [_serializeTopic], which
    is the patch rule of the specification: a column whose field is
    present on the incoming object takes the stored form of the incoming
    value; a column whose field is absent keeps its old value. *)
Definition patched (incoming : Obj) (field : string) (old : SqlVal) : SqlVal :=
  if hasOwnProperty field incoming then stored (get field incoming) else old.

(** The row [_serializeTopic] makes of the stored row [old] and the
    incoming topic, column by column as the code has it.  The columns of
    [TOPIC_FIELDS] follow [patched].  The last two do not: the tag column
    is replaced only under the code's test [Array.isArray(src._tags)], and
    the access column only under its test [if (src.acs)] (through
    [getAccessMode] when the topic has that method); a present [_tags]
    that is no array, or a present [acs] that is falsy, keeps the old
    value. *)
Definition patch (old : TopicRow.t) (incoming : TopicArg) : TopicRow.t :=
  let o := own incoming in
  TopicRow.mk
    (patched o "created" (TopicRow.created old))
    (patched o "updated" (TopicRow.updated old))
    (patched o "deleted" (TopicRow.deleted old))
    (patched o "touched" (TopicRow.touched old))
    (patched o "read" (TopicRow.read old))
    (patched o "recv" (TopicRow.recv old))
    (patched o "seq" (TopicRow.seq old))
    (patched o "clear" (TopicRow.clear old))
    (patched o "defacs" (TopicRow.defacs old))
    (patched o "creds" (TopicRow.creds old))
    (patched o "public" (TopicRow.public old))
    (patched o "trusted" (TopicRow.trusted old))
    (patched o "private" (TopicRow.private old))
    (patched o "_aux" (TopicRow._aux old))
    (patched o "_deleted" (TopicRow._deleted old))
    (if isArray (get "_tags" o) then stored_json (get "_tags" o)
     else TopicRow.tags old)
    (if truthy (get "acs" o)
     then stored_json (match getAccessMode incoming with
                       | Some json => json
                       | None => get "acs" o
                       end)
     else TopicRow.acs old).

(** The columns of a topic row besides its key, the value each holds, and
    the field of the incoming topic that feeds it. *)
Inductive TopicColumn : Type :=
| Created | Updated | Deleted | Touched | Read | Recv | Seq | Clear
| Defacs | Creds | Public | Trusted | Private | Aux | DeletedFlag
| Tags | Acs.

(** The value a row holds in a column. *)
Definition column (c : TopicColumn) (r : TopicRow.t) : SqlVal :=
  match c with
  | Created => TopicRow.created r | Updated => TopicRow.updated r
  | Deleted => TopicRow.deleted r | Touched => TopicRow.touched r
  | Read => TopicRow.read r | Recv => TopicRow.recv r
  | Seq => TopicRow.seq r | Clear => TopicRow.clear r
  | Defacs => TopicRow.defacs r | Creds => TopicRow.creds r
  | Public => TopicRow.public r | Trusted => TopicRow.trusted r
  | Private => TopicRow.private r | Aux => TopicRow._aux r
  | DeletedFlag => TopicRow._deleted r
  | Tags => TopicRow.tags r | Acs => TopicRow.acs r
  end.

(** The field of the incoming topic that feeds a column. *)
Definition field_of (c : TopicColumn) : string :=
  match c with
  | Created => "created" | Updated => "updated" | Deleted => "deleted"
  | Touched => "touched" | Read => "read" | Recv => "recv" | Seq => "seq"
  | Clear => "clear" | Defacs => "defacs" | Creds => "creds"
  | Public => "public" | Trusted => "trusted" | Private => "private"
  | Aux => "_aux" | DeletedFlag => "_deleted"
  | Tags => "_tags" | Acs => "acs"
  end.

(** The merged row in the words of the specification, the same rule for
    every column: a column whose field is present on the incoming object
    is overwritten with the stored form of the incoming value, a column
    whose field is absent keeps its old value. *)
Definition patch_as_specified (old : TopicRow.t) (incoming : TopicArg)
  : TopicRow.t :=
  let merged c := patched (own incoming) (field_of c) (column c old) in
  TopicRow.mk (merged Created) (merged Updated) (merged Deleted)
    (merged Touched) (merged Read) (merged Recv) (merged Seq) (merged Clear)
    (merged Defacs) (merged Creds) (merged Public) (merged Trusted)
    (merged Private) (merged Aux) (merged DeletedFlag) (merged Tags)
    (merged Acs).

(** The operation [updTopic] hands to [_withRecovery]. *)
Definition updTopic_body (topic : TopicArg) : M unit :=
  await existing :=
    getFirstAsync (SELECT_topics_WHERE_name (get "name" (own topic))) in
  let data := _serializeTopic existing topic in
  runAsync (INSERT_OR_REPLACE_INTO_topics (updTopic_params data)).

(** Queries: statements that always answer and never write. *)
Definition is_query (st : Statement) : Prop :=
  forall d, exec st d = inr (rows_of st d, d).

(** Strictly descending sequence numbers: most recent first. *)
Definition newer_first (a b : (string * Z) * MsgRow.t) : Prop :=
  snd (fst b) < snd (fst a).

(** The message object returned for a stored row. *)
Definition load_message (kv : (string * Z) * MsgRow.t) : Obj :=
  _deserializeMessageRow (msg_object kv).

(** The rows the single bounded scan matches: the stored messages with
    [since <= seq < before] (defaults 0 and [MAX_SAFE_INTEGER]), most
    recent first. *)
Definition scan_matching (topicName : string) (query : Query) (d : Database)
  : list ((string * Z) * MsgRow.t) :=
  select_messages topicName (positive_or (since query) 0)
    (positive_or (before query) MAX_SAFE_INTEGER) d.

(** The same, cut to the first [limit | 0] rows when that is positive. *)
Definition scan_returned (topicName : string) (query : Query) (d : Database)
  : list ((string * Z) * MsgRow.t) :=
  if Z.ltb 0 (int32_of (limit query))
  then take (Z.to_nat (int32_of (limit query))) (scan_matching topicName query d)
  else scan_matching topicName query d.

(** Sample data: three messages in topic grp1, and a store that is ready. *)
Definition sample_row (text : string) : MsgRow.t :=
  MsgRow.mk SqlNull (SqlInt 0) (SqlText "usrA") SqlNull (SqlText text).

Definition sample_database : Database :=
  with_messages
    (fun m => <[("grp1", 7) := sample_row "{}"]>
                (<[("grp1", 5) := sample_row "{}"]>
                   (<[("grp1", 6) := sample_row "{}"]> m)))
    empty_database.

Definition ready_store (d : Database) : Store :=
  mkStore true (Some 0%nat) d [] [] [] [] 0.

(** The sequence numbers a range of the query matches: [low <= seq < hi]
    when [hi] is a non-zero number, [seq = low] when [hi] is absent or
    zero. *)
Definition matches_range (range : IdRange) (n : Z) : Prop :=
  match hi range with
  | Some h => if Z.eqb h 0 then n = low range else low range <= n < h
  | None => n = low range
  end.

(** The stored rows behind the group of one range. *)
Definition range_rows (topicName : string) (d : Database) (range : IdRange)
  : list ((string * Z) * MsgRow.t) :=
  match hi range with
  | Some h =>
      if Z.eqb h 0 then
        match messages d !! (topicName, low range) with
        | Some r => [((topicName, low range), r)]
        | None => []
        end
      else select_messages topicName (low range) h d
  | None =>
      match messages d !! (topicName, low range) with
      | Some r => [((topicName, low range), r)]
      | None => []
      end
  end.

(** The entries [readDelLog] selects for one range of the query: those
    of the topic whose [low] lies in [low, hi) of the range ([hi]
    defaulting to [low + 1]), by descending clear id. *)
Definition dellog_rows (topicName : string) (d : Database) (range : IdRange)
  : list ((string * Z * Z) * Z) :=
  merge_sort clear_desc
    (List.filter (dellog_low_in topicName (low range) (hi_or_next range))
       (map_to_list (dellog d))).

(** The [{low, hi}] pair returned for an entry. *)
Definition low_hi_pair (kv : (string * Z * Z) * Z) : Obj :=
  [ ("low", JNum (snd (fst (fst kv)))); ("hi", JNum (snd (fst kv))) ].

(** Two half-open intervals that share a sequence number. *)
Definition overlaps (lo hi lo' hi' : Z) : Prop :=
  exists n, (lo <= n < hi) /\ (lo' <= n < hi').

(** A deletion log with one tombstone, [1, 10) under clear id 3. *)
Definition sample_dellog : Database :=
  with_dellog (fun m => <[("grp1", 1, 10) := 3]> m) empty_database.

(** An error the engine raises on a handle that went stale. *)
Definition stale : Error :=
  mkError "Call to function 'NativeDatabase.prepareAsync' has been rejected".

(** A database holding one topic. *)
Definition sample_topic_row : TopicRow.t :=
  TopicRow.mk (SqlText "2024-01-01T00:00:00.000Z") SqlNull SqlNull SqlNull
    (SqlInt 3) (SqlInt 4) (SqlInt 9) SqlNull SqlNull SqlNull
    (SqlText "{}") SqlNull SqlNull SqlNull (SqlInt 0) SqlNull SqlNull.

Definition sample_topics : Database :=
  with_topics (fun m => <["grp1" := sample_topic_row]> m) empty_database.

(** A database holding one topic that has a tag set and an access mode. *)
Definition sample_tagged_row : TopicRow.t :=
  TopicRow.mk (SqlText "2024-01-01T00:00:00.000Z") SqlNull SqlNull SqlNull
    (SqlInt 3) (SqlInt 4) (SqlInt 9) SqlNull SqlNull SqlNull
    (SqlText "{}") SqlNull SqlNull SqlNull (SqlInt 0)
    (SqlText "[1,2]") (SqlText "{}").

Definition sample_tagged : Database :=
  with_topics (fun m => <["grp1" := sample_tagged_row]> m) empty_database.

(** Keys that are pairwise distinct. *)
Fixpoint distinct (keys : list string) : bool :=
  match keys with
  | [] => true
  | k :: keys' => negb (existsb (String.eqb k) keys') && distinct keys'
  end.

(** JSON-like values: null, booleans, numbers, strings, arrays of such
    and objects of such (an object has each key once). *)
Fixpoint json_like (v : JsVal) : bool :=
  match v with
  | JNull | JBool _ | JNum _ | JStr _ => true
  | JArr items => forallb json_like items
  | JObj props =>
      forallb (fun kv => json_like (snd kv)) props
      && distinct (List.map fst props)
  | JUndef | JDate _ | JInvalidDate => false
  end.

(** The JSON text of a value, as an array element. *)
Definition text_of (v : JsVal) : string :=
  match JSON.serialize v with
  | Some t => t
  | None => "null"
  end.

Definition member_text (kv : string * JsVal) : string :=
  JSON.quote (fst kv) ++ ":" ++ text_of (snd kv).

(** What may follow a value in JSON text: the end, a comma or a closing
    bracket. *)
Definition ends_token (rest : string) : bool :=
  match rest with
  | EmptyString => true
  | String c _ =>
      let n := nat_of_ascii c in
      Nat.eqb n 44 || Nat.eqb n 93 || Nat.eqb n 125
  end.

(** The number a digit sequence denotes after the digits read so far. *)
Fixpoint uint_value (d : Decimal.uint) (acc : Z) : Z :=
  match d with
  | Decimal.Nil => acc
  | Decimal.D0 l => uint_value l (10 * acc + 0)
  | Decimal.D1 l => uint_value l (10 * acc + 1)
  | Decimal.D2 l => uint_value l (10 * acc + 2)
  | Decimal.D3 l => uint_value l (10 * acc + 3)
  | Decimal.D4 l => uint_value l (10 * acc + 4)
  | Decimal.D5 l => uint_value l (10 * acc + 5)
  | Decimal.D6 l => uint_value l (10 * acc + 6)
  | Decimal.D7 l => uint_value l (10 * acc + 7)
  | Decimal.D8 l => uint_value l (10 * acc + 8)
  | Decimal.D9 l => uint_value l (10 * acc + 9)
  end.

(** The columns of a topic row that hold JSON text. *)
Definition is_blob (c : TopicColumn) : bool :=
  match c with
  | Defacs | Creds | Public | Trusted | Private | Aux => true
  | _ => false
  end.

(** What one complete pass of [readMessages] hands to the callback, in
    order: with a list of ranges one array per range, holding the group
    of that range; otherwise the returned messages one at a time. *)
Definition deliveries (topicName : string) (query : Query) (d : Database)
  : list JsVal :=
  match ranges query with
  | Some rs =>
      List.map
        (fun range =>
           JArr (List.map JObj
                   (List.map load_message (range_rows topicName d range))))
        rs
  | None => List.map JObj (readMessages_result topicName (Some query) d)
  end.

(** ** Vocabulary of the further properties *)

(** The five tables, and what a database holds in one of them. *)
Inductive Table : Type := Topics | Users | Subscriptions | Messages | Dellog.

Inductive Content : Type :=
| TopicsOf (m : gmap string TopicRow.t)
| UsersOf (m : gmap string SqlVal)
| SubscriptionsOf (m : gmap (string * string) SubRow.t)
| MessagesOf (m : gmap (string * Z) MsgRow.t)
| DellogOf (m : gmap (string * Z * Z) Z).

Definition content (t : Table) (d : Database) : Content :=
  match t with
  | Topics => TopicsOf (topics d)
  | Users => UsersOf (users d)
  | Subscriptions => SubscriptionsOf (subscriptions d)
  | Messages => MessagesOf (messages d)
  | Dellog => DellogOf (dellog d)
  end.

(** The table named in the INSERT, UPDATE or DELETE of a statement. *)
Definition written_table (st : Statement) : option Table :=
  match st with
  | INSERT_OR_REPLACE_INTO_topics _ | UPDATE_topics_SET_deleted _ _
  | DELETE_FROM_topics_WHERE_name _ => Some Topics
  | INSERT_OR_REPLACE_INTO_users _ _ | DELETE_FROM_users_WHERE_uid _ =>
      Some Users
  | INSERT_OR_REPLACE_INTO_subscriptions _
  | DELETE_FROM_subscriptions_WHERE_topic _ => Some Subscriptions
  | INSERT_OR_REPLACE_INTO_messages _ | UPDATE_messages_SET_status _ _ _
  | DELETE_FROM_messages_WHERE_topic _ | DELETE_FROM_messages_WHERE_range _ _ _
  | DELETE_FROM_messages_WHERE_seq _ _ => Some Messages
  | INSERT_OR_REPLACE_INTO_dellog _ _ _ _ | DELETE_FROM_dellog_WHERE_topic _ =>
      Some Dellog
  | _ => None
  end.

(** The tables whose INSERT, UPDATE or DELETE statements occur in the
    method behind a request. *)
Definition writes (r : Request) (t : Table) : bool :=
  match r, t with
  | (UpdTopic _ | MarkTopicAsDeleted _ _), Topics => true
  | RemTopic _, (Topics | Subscriptions | Messages | Dellog) => true
  | (UpdUser _ _ | RemUser _), Users => true
  | UpdSubscription _ _ _, Subscriptions => true
  | (AddMessage _ | UpdMessageStatus _ _ _ | RemMessages _ _ _), Messages =>
      true
  | AddDelLog _ _ _, Dellog => true
  | _, _ => false
  end.

(** [keeps p st]: statement [st] leaves [p] of the database as it was. *)
Definition keeps {X} (p : Database -> X) (st : Statement) : Prop :=
  forall d rows d', exec st d = inr (rows, d') -> p d' = p d.

(** The statements [initDatabase] sends after opening the file, in
    order. *)
Definition schema_statements : list Statement :=
  [ PRAGMA_journal_mode_WAL;
    CREATE_TABLE_IF_NOT_EXISTS "topics";
    CREATE_TABLE_IF_NOT_EXISTS "users";
    CREATE_TABLE_IF_NOT_EXISTS "subscriptions";
    CREATE_TABLE_IF_NOT_EXISTS "messages";
    CREATE_TABLE_IF_NOT_EXISTS "dellog";
    CREATE_INDEX_IF_NOT_EXISTS_idx_dellog_topic_clear ].

(** A topic row with every column NULL: what an INSERT finds when no row
    is stored under the name. *)
Definition null_topic_row : TopicRow.t :=
  TopicRow.mk SqlNull SqlNull SqlNull SqlNull SqlNull SqlNull SqlNull SqlNull
    SqlNull SqlNull SqlNull SqlNull SqlNull SqlNull SqlNull SqlNull SqlNull.

(** [SET _deleted = ?] on a topic row. *)
Definition flagged (deleted : bool) (r : TopicRow.t) : TopicRow.t :=
  TopicRow.mk (TopicRow.created r) (TopicRow.updated r) (TopicRow.deleted r)
    (TopicRow.touched r) (TopicRow.read r) (TopicRow.recv r) (TopicRow.seq r)
    (TopicRow.clear r) (TopicRow.defacs r) (TopicRow.creds r)
    (TopicRow.public r) (TopicRow.trusted r) (TopicRow.private r)
    (TopicRow._aux r) (SqlInt (if deleted then 1 else 0))
    (TopicRow.tags r) (TopicRow.acs r).

(** The topic object [mapTopics] returns for a stored row. *)
Definition load_row (kv : string * TopicRow.t) : Obj :=
  _deserializeTopicRow (TopicRow.object (fst kv) (snd kv)).

(** The user object returned for a stored user. *)
Definition load_user (kv : string * SqlVal) : Obj :=
  [("uid", JStr (fst kv)); ("public", _parseJSON (to_js (snd kv)))].

(** A subscription row with every column NULL. *)
Definition null_sub_row : SubRow.t :=
  SubRow.mk SqlNull SqlNull SqlNull SqlNull SqlNull SqlNull SqlNull.

(** The columns of a subscription row besides its key, and the field of
    the incoming subscription that feeds each. *)
Inductive SubColumn : Type :=
| SubUpdated | SubMode | SubRead | SubRecv | SubClear | SubLastSeen
| SubUserAgent.

Definition sub_col (c : SubColumn) (r : SubRow.t) : SqlVal :=
  match c with
  | SubUpdated => SubRow.updated r | SubMode => SubRow.mode r
  | SubRead => SubRow.read r | SubRecv => SubRow.recv r
  | SubClear => SubRow.clear r | SubLastSeen => SubRow.lastSeen r
  | SubUserAgent => SubRow.userAgent r
  end.

Definition sub_field (c : SubColumn) : string :=
  match c with
  | SubUpdated => "updated" | SubMode => "mode" | SubRead => "read"
  | SubRecv => "recv" | SubClear => "clear" | SubLastSeen => "lastSeen"
  | SubUserAgent => "userAgent"
  end.

(** The value a column takes when [sub] is merged into a row: what the
    field of [sub] binds to when [sub] has the field ([None] when it
    cannot be bound), the old value otherwise. *)
Definition sub_column (sub : Obj) (f : string) (old : SqlVal) : option SqlVal :=
  if hasOwnProperty f sub then bind_param (get f sub) else Some old.

Definition sub_patch (old : SubRow.t) (sub : Obj) : option SubRow.t :=
  match sub_column sub "updated" (SubRow.updated old),
        sub_column sub "mode" (SubRow.mode old),
        sub_column sub "read" (SubRow.read old),
        sub_column sub "recv" (SubRow.recv old),
        sub_column sub "clear" (SubRow.clear old),
        sub_column sub "lastSeen" (SubRow.lastSeen old),
        sub_column sub "userAgent" (SubRow.userAgent old) with
  | Some u, Some m, Some rd, Some rc, Some cl, Some ls, Some ua =>
      Some (SubRow.mk u m rd rc cl ls ua)
  | _, _, _, _, _, _, _ => None
  end.

(** The subscription object [mapSubscriptions] returns for a stored
    row. *)
Definition load_sub (kv : (string * string) * SubRow.t) : Obj :=
  _deserializeSubscriptionRow
    (SubRow.object (fst (fst kv)) (snd (fst kv)) (snd kv)).

(** The stored subscriptions of a topic. *)
Definition subs_of (topicName : string) (d : Database)
  : list ((string * string) * SubRow.t) :=
  List.filter (fun kv => String.eqb (fst (fst kv)) topicName)
    (map_to_list (subscriptions d)).

Definition updSubscription_body (topicName uid : string) (sub : Obj) : M unit :=
  await existing :=
    getFirstAsync (SELECT_subscriptions_WHERE_topic_AND_uid topicName uid) in
  let data := _serializeSubscription existing topicName uid sub in
  runAsync
    (INSERT_OR_REPLACE_INTO_subscriptions
       [ get "topic" data; get "uid" data; get "updated" data;
         get "mode" data; get "read" data; get "recv" data;
         get "clear" data; get "lastSeen" data; get "userAgent" data ]).

(** [SET _status = ?] on a message row. *)
Definition with_status (status : Z) (r : MsgRow.t) : MsgRow.t :=
  MsgRow.mk (MsgRow.ts r) (SqlInt status) (MsgRow.from_uid r) (MsgRow.head r)
    (MsgRow.content r).

(** The statement [remMessages] sends. *)
Definition remMessages_statement (topicName : string) (from to : option Z)
  : Statement :=
  if falsy_num from && falsy_num to then
    DELETE_FROM_messages_WHERE_topic topicName
  else
    match to with
    | Some t =>
        if Z.ltb 0 t then DELETE_FROM_messages_WHERE_range topicName from t
        else DELETE_FROM_messages_WHERE_seq topicName from
    | None => DELETE_FROM_messages_WHERE_seq topicName from
    end.

(** The sequence numbers [remMessages(topic, from, to)] removes: all of
    them when [from] and [to] are both absent or zero; those with
    [from <= seq < to] when [to] is positive; only [from] otherwise. *)
Definition removed_by (from : Z) (to : option Z) (n : Z) : bool :=
  if Z.eqb from 0 && falsy_num to then true
  else
    match to with
    | Some t => if Z.ltb 0 t then Z.leb from n && Z.ltb n t else Z.eqb n from
    | None => Z.eqb n from
    end.

(** The text [toISOString] prints, which [new Date] reads back. *)
Definition iso_text (iso : string) : Prop :=
  Date.new (JStr iso) = JDate iso.

(** The deletion log after [addDelLog(topic, delId, ranges)]: one entry
    per range, keyed by (topic, low, hi) with [hi] defaulting to
    [low + 1], holding [delId]. *)
Definition logged (topicName : string) (delId : Z) (ranges : list IdRange)
    (d : Database) : Database :=
  fold_left
    (fun d r =>
       with_dellog (insert (topicName, low r, hi_or_next r) delId) d)
    ranges d.

(** The loop of [addDelLog]. *)
Definition addDelLog_task (topicName : string) (delId : Z)
    (ranges : list IdRange) : M unit :=
  for_each ranges
    (fun r =>
       runAsync
         (INSERT_OR_REPLACE_INTO_dellog topicName delId (low r)
            (hi_or_next r))).

(** The stored deletion-log entries of a topic, greatest clear id
    first. *)
Definition dellog_of (topicName : string) (d : Database)
  : list ((string * Z * Z) * Z) :=
  merge_sort clear_desc
    (List.filter (dellog_of_topic topicName) (map_to_list (dellog d))).

(** The entries the bounded scan of [readDelLog] matches: those of the
    topic with [since <= clear < before] (defaults 0 and
    [MAX_SAFE_INTEGER]), greatest clear id first; and what it returns:
    the first [limit | 0] of them when that is positive. *)
Definition dellog_matching (topicName : string) (query : Query) (d : Database)
  : list ((string * Z * Z) * Z) :=
  merge_sort clear_desc
    (List.filter
       (dellog_clear_in topicName (positive_or (since query) 0)
          (positive_or (before query) MAX_SAFE_INTEGER))
       (map_to_list (dellog d))).

Definition dellog_returned (topicName : string) (query : Query) (d : Database)
  : list ((string * Z * Z) * Z) :=
  if Z.ltb 0 (int32_of (limit query))
  then take (Z.to_nat (int32_of (limit query)))
         (dellog_matching topicName query d)
  else dellog_matching topicName query d.

(** The entry [maxDelId] returns for a stored one. *)
Definition max_entry (kv : (string * Z * Z) * Z) : Obj :=
  [ ("topic", JStr (fst (fst (fst kv)))); ("clear", JNum (snd kv));
    ("low", JNum (snd (fst (fst kv)))); ("hi", JNum (snd (fst kv))) ].

(** A database holding two users, and one holding subscriptions to two
    topics. *)
Definition sample_users : Database :=
  with_users
    (fun m => <["usr1" := SqlText "{}"]> (<["usr2" := SqlText "[1,2]"]> m))
    empty_database.

Definition sample_subscriptions : Database :=
  with_subscriptions
    (fun m =>
       <[("grp1", "usr1") :=
           SubRow.mk SqlNull (SqlText "JRWPS") (SqlInt 3) (SqlInt 4)
             SqlNull SqlNull SqlNull]>
         (<[("grp2", "usr1") := null_sub_row]> m))
    empty_database.

(** * Properties *)

Lemma guarded_not_ready {A} (empty : A) (operation : M A) s :
  isReady s = false -> guarded empty operation s = (inr empty, s).
Proof. intros H. unfold guarded. now rewrite H. Qed.

Lemma guarded_ready {A} (empty : A) (operation : M A) s :
  isReady s = true -> guarded empty operation s = _withRecovery operation s.
Proof. intros H. unfold guarded. now rewrite H. Qed.

(** C8: every repository method called on a store that is not ready
    resolves at once with the empty reply of its kind (an empty array,
    undefined or void), does not reject, and leaves the whole state (the
    database, the fields of the store, the engine-call log, the callback
    log) as it was. *)
Theorem not_ready_is_noop (r : Request) (s : Store) :
  isReady s = false -> perform r s = (inr (idle_reply r), s).
Proof.
  intros H.
  destruct r; simpl;
    unfold void, array, object_or_undefined, and_then,
           updTopic, markTopicAsDeleted, remTopic, mapTopics, updUser,
           remUser, mapUsers, getUser, updSubscription, mapSubscriptions,
           addMessage, updMessageStatus, remMessages, readMessages,
           addDelLog, readDelLog, maxDelId;
    try (rewrite guarded_not_ready by exact H; reflexivity).
  - destruct (truthy (get "_new" (own topic))); [reflexivity|].
    now rewrite guarded_not_ready.
  - destruct pub; try reflexivity; now rewrite guarded_not_ready.
Qed.

Lemma not_ready_is_noop_witness :
  perform (ReadMessages "grp1" None true) (new_store empty_database [])
  = (inr (Array []), new_store empty_database []).
Proof. apply (not_ready_is_noop (ReadMessages "grp1" None true)). reflexivity. Defined.

(** ** Frame rules

    [preserves proj c]: running [c] leaves the component [proj] of the
    state as it was, whether [c] resolves or rejects. *)

Section Frame.
Context {X : Type} (proj : Store -> X).

Lemma preserves_resolve {A} (a : A) : preserves proj (resolve a).
Proof. now intros s. Qed.

Lemma preserves_reject {A} (e : Error) : preserves proj (@reject A e).
Proof. now intros s. Qed.

Lemma preserves_inspect {A} (f : Store -> A) : preserves proj (inspect f).
Proof. now intros s. Qed.

Lemma preserves_update (f : Store -> Store) :
  (forall s, proj (f s) = proj s) -> preserves proj (update f).
Proof. intros H s. apply H. Qed.

Lemma preserves_and_then {A B} (c : M A) (k : A -> M B) :
  preserves proj c -> (forall a, preserves proj (k a)) ->
  preserves proj (and_then c k).
Proof.
  intros Hc Hk s. unfold and_then. specialize (Hc s).
  destruct (c s) as [[e|a] s']; simpl in *; [exact Hc|].
  now rewrite Hk.
Qed.

Lemma preserves_try_catch {A} (c : M A) (h : Error -> M A) :
  preserves proj c -> (forall e, preserves proj (h e)) ->
  preserves proj (try_catch c h).
Proof.
  intros Hc Hh s. unfold try_catch. specialize (Hc s).
  destruct (c s) as [[e|a] s']; simpl in *; [|exact Hc].
  now rewrite Hh.
Qed.

Lemma preserves_for_each {A} (l : list A) (body : A -> M unit) :
  (forall x, preserves proj (body x)) -> preserves proj (for_each l body).
Proof.
  intros H. induction l as [|x l IH]; simpl.
  - apply preserves_resolve.
  - apply preserves_and_then; auto.
Qed.

Hypothesis engine : engine_frame proj.

Lemma preserves_openDatabaseAsync : preserves proj openDatabaseAsync.
Proof.
  destruct engine as [Hl Hd]. intros s. unfold openDatabaseAsync.
  destruct (next_fault s); simpl; now rewrite Hl, Hd.
Qed.

Lemma preserves_closeAsync h : preserves proj (closeAsync h).
Proof.
  destruct engine as [Hl Hd]. intros s. unfold closeAsync.
  destruct (next_fault s); simpl; now rewrite Hl, Hd.
Qed.

Lemma preserves_read st : read_only st -> preserves proj (statement st).
Proof.
  destruct engine as [Hl Hd]. intros Hro s. unfold statement.
  destruct (_db s); [|reflexivity].
  destruct (next_fault s); simpl; [now rewrite Hl, Hd|].
  specialize (Hro (disk s)).
  destruct (exec st (disk s)) as [e|[rows d]]; simpl.
  - now rewrite Hl, Hd.
  - subst d.
    replace (set_disk (disk s) _) with
      (log_event (mkEvent (Execute n st) None) (drop_fault s))
      by now destruct s.
    now rewrite Hl, Hd.
Qed.

Hypothesis disk_free : disk_frame proj.

Lemma preserves_statement st : preserves proj (statement st).
Proof.
  destruct engine as [Hl Hd]. intros s. unfold statement.
  destruct (_db s); [|reflexivity].
  destruct (next_fault s); simpl; [now rewrite Hl, Hd|].
  destruct (exec st (disk s)) as [e|[rows d]]; simpl.
  - now rewrite Hl, Hd.
  - now rewrite disk_free, Hl, Hd.
Qed.

Lemma preserves_deleteDatabaseAsync : preserves proj deleteDatabaseAsync.
Proof.
  destruct engine as [Hl Hd]. intros s. unfold deleteDatabaseAsync.
  destruct (next_fault s); simpl; [|rewrite disk_free]; now rewrite Hl, Hd.
Qed.
End Frame.

Lemma engine_frame_attempts : engine_frame attempts.
Proof. split; reflexivity. Qed.
Lemma disk_frame_attempts : disk_frame attempts.
Proof. intros d s. reflexivity. Qed.
Lemma engine_frame_disk : engine_frame disk.
Proof. split; reflexivity. Qed.
Lemma engine_frame_delivered : engine_frame delivered.
Proof. split; reflexivity. Qed.
Lemma disk_frame_delivered : disk_frame delivered.
Proof. intros d s. reflexivity. Qed.

Lemma read_only_schema st :
  match st with
  | PRAGMA_journal_mode_WAL | CREATE_TABLE_IF_NOT_EXISTS _
  | CREATE_INDEX_IF_NOT_EXISTS_idx_dellog_topic_clear
  | BEGIN | COMMIT | ROLLBACK
  | SELECT_topics_WHERE_name _ | SELECT_topics | SELECT_users
  | SELECT_users_WHERE_uid _ | SELECT_subscriptions_WHERE_topic_AND_uid _ _
  | SELECT_subscriptions_WHERE_topic _
  | SELECT_messages_WHERE_range _ _ _ _ | SELECT_messages_WHERE_seq _ _
  | SELECT_dellog_WHERE_low_range _ _ _
  | SELECT_dellog_WHERE_clear_range _ _ _ _
  | SELECT_dellog_ORDER_BY_clear_DESC_LIMIT_1 _ => read_only st
  | _ => True
  end.
Proof.
  destruct st; try exact I; intros d; simpl; try reflexivity;
    try (destruct name; try reflexivity);
    match goal with
    | |- context [?m !! ?k] => destruct (m !! k)
    end; reflexivity.
Qed.

(** Discharges [preserves proj c] for code built from the combinators;
    what it cannot decide is left to [auto] with the facts in scope. *)
Ltac frame_step :=
  lazymatch goal with
  | |- preserves _ (and_then _ _) => apply preserves_and_then
  | |- preserves _ (try_catch _ _) => apply preserves_try_catch
  | |- preserves _ (for_each _ _) => apply preserves_for_each
  | |- preserves _ (update _) => apply preserves_update
  | |- preserves _ (resolve _) => apply preserves_resolve
  | |- preserves _ (reject _) => apply preserves_reject
  | |- preserves _ (inspect _) => apply preserves_inspect
  | |- preserves attempts (statement _) =>
      apply (preserves_statement attempts engine_frame_attempts
               disk_frame_attempts)
  | |- preserves delivered (statement _) =>
      apply (preserves_statement delivered engine_frame_delivered
               disk_frame_delivered)
  | |- preserves disk (statement ?st) =>
      apply (preserves_read disk engine_frame_disk st);
      exact (read_only_schema st)
  | |- preserves attempts openDatabaseAsync =>
      apply (preserves_openDatabaseAsync attempts engine_frame_attempts)
  | |- preserves disk openDatabaseAsync =>
      apply (preserves_openDatabaseAsync disk engine_frame_disk)
  | |- preserves attempts (closeAsync _) =>
      apply (preserves_closeAsync attempts engine_frame_attempts)
  | |- preserves disk (closeAsync _) =>
      apply (preserves_closeAsync disk engine_frame_disk)
  | |- preserves _ (execAsync _) => unfold execAsync
  | |- preserves _ (runAsync _) => unfold runAsync
  | |- preserves _ (getAllAsync _) => unfold getAllAsync
  | |- preserves _ (getFirstAsync _) => unfold getFirstAsync
  | |- preserves _ (match ?x with _ => _ end) => destruct x
  | |- preserves _ _ => solve [auto]
  | |- forall _, _ => intro; cbv beta
  | |- _ = _ => reflexivity
  end.

Ltac frame := repeat frame_step.

Lemma initDatabase_keeps_attempts : preserves attempts initDatabase.
Proof. unfold initDatabase, _createTables. frame. Qed.

Lemma initDatabase_keeps_disk : preserves disk initDatabase.
Proof. unfold initDatabase, _createTables. frame. Qed.

Lemma recoverDatabase_keeps_attempts : preserves attempts _recoverDatabase.
Proof.
  pose proof initDatabase_keeps_attempts. unfold _recoverDatabase. frame.
Qed.

(** Recovery reopens the file; it does not change what is in it. *)
Lemma recoverDatabase_keeps_disk : preserves disk _recoverDatabase.
Proof.
  pose proof initDatabase_keeps_disk. unfold _recoverDatabase. frame.
Qed.

(** ** The recovery wrapper *)

(** [_recoverDatabase] never rejects, and is: close the handle (whatever
    the close answers), forget it, then all of [initDatabase]. *)
Lemma recoverDatabase_unfold (s : Store) :
  _recoverDatabase s =
    let closed := match _db s with
                  | Some h => snd (closeAsync h s)
                  | None => s
                  end in
    match initDatabase (set_ready false (set_db None closed)) with
    | (inr _, s') => (inr true, s')
    | (inl _, s') => (inr false, s')
    end.
Proof.
  unfold _recoverDatabase, try_catch, and_then, inspect. simpl.
  destruct (_db s) as [h|] eqn:Hdb; simpl.
  - destruct (closeAsync h s) as [[e|[]] s1]; simpl;
      unfold update; simpl;
      destruct (initDatabase _) as [[e'|h'] s2]; reflexivity.
  - unfold update; simpl.
    replace (set_db None s) with s by (destruct s; simpl in *; now subst).
    destruct (initDatabase _) as [[e'|h'] s2]; reflexivity.
Qed.

(** C9: what [_withRecovery] does with an operation.  When the operation
    resolves, or rejects with an error that lacks the stale-handle
    signature, that outcome is final.  When it rejects with the stale
    signature, the store closes the handle (the outcome of the close is
    discarded), runs [initDatabase] in full, and then either calls the
    operation once more, whose outcome (resolved or rejected) is final, or,
    when initialisation failed, rejects with the original error.  In all
    cases the operation has been called once or twice, never more. *)
Theorem stale_handle_recovery {A} (operation : M A) (s : Store) :
  preserves attempts operation ->
  let closed (s1 : Store) :=
    match _db s1 with
    | Some h => snd (closeAsync h s1)
    | None => s1
    end in
  _withRecovery operation s =
    match attempt operation s with
    | (inr a, s1) => (inr a, s1)
    | (inl err, s1) =>
        if isStaleHandle err then
          match initDatabase (set_ready false (set_db None (closed s1))) with
          | (inr _, s2) => attempt operation s2
          | (inl _, s2) => (inl err, s2)
          end
        else (inl err, s1)
    end
  /\ (attempts s < attempts (snd (_withRecovery operation s)) <= attempts s + 2)%nat.
Proof.
  intros Hk closed.
  assert (Heq : _withRecovery operation s =
    match attempt operation s with
    | (inr a, s1) => (inr a, s1)
    | (inl err, s1) =>
        if isStaleHandle err then
          match initDatabase (set_ready false (set_db None (closed s1))) with
          | (inr _, s2) => attempt operation s2
          | (inl _, s2) => (inl err, s2)
          end
        else (inl err, s1)
    end).
  { unfold _withRecovery, try_catch.
    destruct (attempt operation s) as [[err|a] s1]; [|reflexivity].
    destruct (isStaleHandle err); [|reflexivity].
    unfold and_then. rewrite recoverDatabase_unfold. cbv zeta.
    fold (closed s1).
    destruct (initDatabase _) as [[e'|h'] s2]; reflexivity. }
  split; [exact Heq|].
  rewrite Heq.
  assert (Hatt : forall s0, attempts (snd (attempt operation s0)) = S (attempts s0)).
  { intros s0. unfold attempt. now rewrite Hk. }
  pose proof (Hatt s) as H1.
  destruct (attempt operation s) as [[err|a] s1]; simpl in *; [|lia].
  destruct (isStaleHandle err); simpl; [|lia].
  assert (Hc : attempts (closed s1) = attempts s1).
  { unfold closed. destruct (_db s1); [|reflexivity].
    apply (preserves_closeAsync attempts engine_frame_attempts). }
  pose proof (initDatabase_keeps_attempts
                (set_ready false (set_db None (closed s1)))) as Hi.
  destruct (initDatabase _) as [[e'|h'] s2]; simpl in *.
  - lia.
  - rewrite Hatt. lia.
Qed.

(** ** Property lists *)

Lemma get_set (k k' : string) (v : JsVal) (o : Obj) :
  get k (set k' v o) = if String.eqb k k' then v else get k o.
Proof.
  induction o as [|[k0 v0] o IH]; simpl.
  - reflexivity.
  - destruct (String.eqb_spec k' k0) as [->|Hne]; simpl.
    + destruct (String.eqb_spec k k0); reflexivity.
    + destruct (String.eqb_spec k k0) as [->|Hne'].
      * destruct (String.eqb_spec k0 k'); [congruence|reflexivity].
      * exact IH.
Qed.

Lemma has_set (k k' : string) (v : JsVal) (o : Obj) :
  hasOwnProperty k (set k' v o) = String.eqb k k' || hasOwnProperty k o.
Proof.
  induction o as [|[k0 v0] o IH]; simpl.
  - now destruct (String.eqb k k').
  - destruct (String.eqb_spec k' k0) as [->|Hne]; simpl.
    + destruct (String.eqb_spec k k0); reflexivity.
    + destruct (String.eqb_spec k k0) as [->|Hne'].
      * now rewrite orb_true_r.
      * exact IH.
Qed.

Lemma get_set_if (k k' : string) (c v : JsVal) (o : Obj) :
  get k (set_if c k' v o)
  = if truthy c && String.eqb k k' then v else get k o.
Proof.
  unfold set_if. destruct (truthy c); simpl; [apply get_set|reflexivity].
Qed.

Lemma has_set_if (k k' : string) (c v : JsVal) (o : Obj) :
  hasOwnProperty k (set_if c k' v o)
  = truthy c && String.eqb k k' || hasOwnProperty k o.
Proof.
  unfold set_if. destruct (truthy c); simpl; [apply has_set|reflexivity].
Qed.

(** The loop [FIELDS.forEach(f => { if (src.hasOwnProperty(f)) dst[f] =
    enc(src[f]) })], read at one property. *)
Lemma get_copy_fields (enc : JsVal -> JsVal) (src : Obj) (fields : list string)
    (dst : Obj) (k : string) :
  get k (fold_left
           (fun res f =>
              if hasOwnProperty f src then set f (enc (get f src)) res else res)
           fields dst)
  = if existsb (String.eqb k) fields && hasOwnProperty k src
    then enc (get k src) else get k dst.
Proof.
  revert dst. induction fields as [|f fields IH]; intros dst; simpl.
  - reflexivity.
  - rewrite IH. destruct (String.eqb_spec k f) as [->|Hne]; simpl.
    + destruct (hasOwnProperty f src) eqn:Hf.
      * rewrite get_set, String.eqb_refl.
        now destruct (existsb (String.eqb f) fields).
      * now rewrite andb_false_r.
    + destruct (hasOwnProperty f src); [|reflexivity].
      rewrite get_set.
      destruct (String.eqb_spec k f); [congruence|reflexivity].
Qed.

(** ** Loading a topic *)

Lemma ToInt32_id (n : Z) : int32_range n -> ToInt32 n = n.
Proof.
  unfold int32_range, ToInt32. intros H.
  rewrite Z.mod_small by lia. lia.
Qed.

Lemma ToInt32_range (n : Z) : int32_range (ToInt32 n).
Proof.
  unfold int32_range, ToInt32.
  pose proof (Z.mod_pos_bound (n + 2 ^ 31) (2 ^ 32) ltac:(lia)). lia.
Qed.

Lemma loaded_counter (v : SqlVal) (n : Z) :
  counter_value v = Some n ->
  bitor0 (or_else (to_js v) (JNum 0)) = ToInt32 n.
Proof.
  destruct v as [|m|t]; simpl; intros H; inversion H; subst; clear H.
  - reflexivity.
  - unfold or_else. simpl. destruct (Z.eqb_spec n 0) as [->|]; reflexivity.
Qed.

Lemma deserializeTopic_unread (topic src : Obj) :
  let seq := bitor0 (if hasOwnProperty "seq" src then get "seq" src
                     else get "seq" topic) in
  let read := bitor0 (if hasOwnProperty "read" src then get "read" src
                      else get "read" topic) in
  let loaded := deserializeTopic topic src in
  get "seq" loaded = JNum seq /\ get "read" loaded = JNum read
  /\ get "unread" loaded = JNum (Z.max 0 (seq - read)).
Proof.
  cbv zeta. unfold deserializeTopic, setAccessMode.
  set (copy := fold_left _ TOPIC_FIELDS topic).
  assert (Hc : forall k, get k copy =
     if existsb (String.eqb k) TOPIC_FIELDS && hasOwnProperty k src
     then get k src else get k topic).
  { intros k. unfold copy.
    apply (get_copy_fields (fun v => v) src TOPIC_FIELDS topic k). }
  set (t1 := if isArray (get "tags" src) then _ else copy).
  assert (H1 : forall k, String.eqb k "_tags" = false -> get k t1 = get k copy).
  { intros k Hk. unfold t1. destruct (isArray _); [|reflexivity].
    now rewrite get_set, Hk. }
  set (t2 := if truthy (get "acs" src) then _ else t1).
  assert (H2 : forall k, String.eqb k "acs" = false -> get k t2 = get k t1).
  { intros k Hk. unfold t2. destruct (truthy _); [|reflexivity].
    now rewrite get_set, Hk. }
  assert (Hseq : get "seq" t2 = if hasOwnProperty "seq" src then get "seq" src
                               else get "seq" topic).
  { rewrite H2, H1, Hc by reflexivity. reflexivity. }
  assert (Hread : get "read" t2 = if hasOwnProperty "read" src then get "read" src
                                 else get "read" topic).
  { rewrite H2, H1, Hc by reflexivity. reflexivity. }
  repeat rewrite get_set. simpl.
  rewrite Hseq, Hread. repeat split.
Qed.

Lemma has_row_seq name row :
  hasOwnProperty "seq" (_deserializeTopicRow (TopicRow.object name row)) = true
  /\ hasOwnProperty "read" (_deserializeTopicRow (TopicRow.object name row)) = true.
Proof.
  unfold _deserializeTopicRow. repeat rewrite has_set_if. simpl.
  repeat rewrite andb_false_r. split; reflexivity.
Qed.

Lemma get_row_seq name row :
  get "seq" (_deserializeTopicRow (TopicRow.object name row))
  = or_else (to_js (TopicRow.seq row)) (JNum 0)
  /\ get "read" (_deserializeTopicRow (TopicRow.object name row))
     = or_else (to_js (TopicRow.read row)) (JNum 0).
Proof.
  unfold _deserializeTopicRow. repeat rewrite get_set_if. simpl.
  repeat rewrite andb_false_r. split; reflexivity.
Qed.

Lemma fold_left_ext_in {A B} (f g : A -> B -> A) (l : list B) (a : A) :
  (forall acc x, In x l -> f acc x = g acc x) ->
  fold_left f l a = fold_left g l a.
Proof.
  revert a. induction l as [|x l IH]; intros a H; simpl; [reflexivity|].
  rewrite H by now left. apply IH. intros acc y Hy. apply H. now right.
Qed.

Lemma and_then_ext {A B} (c : M A) (k1 k2 : A -> M B) (s : Store) :
  (forall a s', k1 a s' = k2 a s') -> and_then c k1 s = and_then c k2 s.
Proof.
  intros H. unfold and_then. destruct (c s) as [[e|a] s']; [reflexivity|apply H].
Qed.

Lemma withRecovery_ext {A} (op1 op2 : M A) :
  (forall s, op1 s = op2 s) ->
  forall s, _withRecovery op1 s = _withRecovery op2 s.
Proof.
  intros H s. unfold _withRecovery, try_catch, attempt. rewrite H.
  destruct (op2 (count_attempt s)) as [[e|a] s1]; [|reflexivity].
  destruct (isStaleHandle e); [|reflexivity].
  unfold and_then. destruct (_recoverDatabase s1) as [[e'|[]] s2];
    try reflexivity. apply H.
Qed.

Lemma guarded_ext {A} (empty : A) (op1 op2 : M A) :
  (forall s, op1 s = op2 s) ->
  forall s, guarded empty op1 s = guarded empty op2 s.
Proof.
  intros H s. unfold guarded. destruct (negb (isReady s)); [reflexivity|].
  now apply withRecovery_ext.
Qed.

(** The [unread] property of the incoming topic never reaches a
    statement: [updTopic] behaves the same whatever it is. *)
Lemma updTopic_ignores_unread (topic : TopicArg) (v : JsVal) (s : Store) :
  updTopic (mkTopicArg (set "unread" v (own topic)) (getAccessMode topic)) s
  = updTopic topic s.
Proof.
  assert (Hg : forall k, String.eqb k "unread" = false ->
            get k (set "unread" v (own topic)) = get k (own topic)).
  { intros k Hk. now rewrite get_set, Hk. }
  assert (Hh : forall k, String.eqb k "unread" = false ->
            hasOwnProperty k (set "unread" v (own topic))
            = hasOwnProperty k (own topic)).
  { intros k Hk. now rewrite has_set, Hk. }
  assert (Hs : forall dst,
            _serializeTopic dst
              (mkTopicArg (set "unread" v (own topic)) (getAccessMode topic))
            = _serializeTopic dst topic).
  { intros dst. unfold _serializeTopic. cbn [own getAccessMode].
    repeat rewrite Hg by reflexivity.
    rewrite (fold_left_ext_in _
               (fun res f =>
                  if hasOwnProperty f (own topic) then
                    if is_object (get f (own topic))
                    then set f (JSON.stringify (get f (own topic))) res
                    else set f (get f (own topic)) res
                  else res)); [reflexivity|].
    intros acc f Hin.
    assert (Hf : String.eqb f "unread" = false).
    { unfold TOPIC_FIELDS in Hin. simpl in Hin.
      repeat (destruct Hin as [<-|Hin]; [reflexivity|]). destruct Hin. }
    now rewrite Hg, Hh. }
  unfold updTopic. cbn [own getAccessMode].
  rewrite (Hg "_new") by reflexivity. rewrite (Hg "name") by reflexivity.
  destruct (truthy (get "_new" (own topic))); [reflexivity|].
  apply guarded_ext. intros s0. apply and_then_ext. intros existing s1.
  cbv zeta. now rewrite Hs.
Qed.

(** C2, as the code has it: the topic loaded from a stored row has
    [unread = max(0, seq' - read')], where [seq'] and [read'] are the stored
    counters after the signed 32-bit conversion that loading applies
    ([| 0]).  For stored counters within the signed 32-bit range this is
    [max(0, seq - read)], and 0 when [read > seq].  [unread] is computed by
    [deserializeTopic] from the row that [mapTopics] enumerates, and is
    never stored: no statement depends on the [unread] of the incoming
    topic. *)
Theorem unread_recomputed_on_load (name : string) (row : TopicRow.t)
    (topic : Obj) (seq read : Z) :
  counter_value (TopicRow.seq row) = Some seq ->
  counter_value (TopicRow.read row) = Some read ->
  let loaded := load_topic name row topic in
  get "unread" loaded = JNum (Z.max 0 (ToInt32 seq - ToInt32 read))
  /\ (int32_range seq -> int32_range read ->
      get "unread" loaded = JNum (Z.max 0 (seq - read))
      /\ (seq < read -> get "unread" loaded = JNum 0))
  /\ (forall (incoming : TopicArg) (v : JsVal) (s : Store),
        updTopic (mkTopicArg (set "unread" v (own incoming))
                             (getAccessMode incoming)) s
        = updTopic incoming s).
Proof.
  intros Hseq Hread loaded.
  assert (H : get "unread" loaded = JNum (Z.max 0 (ToInt32 seq - ToInt32 read))).
  { unfold loaded, load_topic.
    destruct (deserializeTopic_unread topic
                (_deserializeTopicRow (TopicRow.object name row)))
      as (_ & _ & Hu).
    rewrite Hu.
    destruct (has_row_seq name row) as [Hs1 Hs2]. rewrite Hs1, Hs2.
    destruct (get_row_seq name row) as [Hg1 Hg2]. rewrite Hg1, Hg2.
    now rewrite (loaded_counter _ _ Hseq), (loaded_counter _ _ Hread). }
  split; [exact H|]. split.
  - intros Rs Rr. rewrite H, (ToInt32_id _ Rs), (ToInt32_id _ Rr).
    split; [reflexivity|]. intros Hlt. f_equal. lia.
  - intros incoming v s. apply updTopic_ignores_unread.
Qed.

Lemma unread_recomputed_on_load_witness :
  let row := TopicRow.mk SqlNull SqlNull SqlNull SqlNull (SqlInt 9) SqlNull
               (SqlInt 7) SqlNull SqlNull SqlNull SqlNull SqlNull SqlNull
               SqlNull SqlNull SqlNull SqlNull in
  get "unread" (load_topic "grp1" row []) = JNum (Z.max 0 (ToInt32 7 - ToInt32 9)).
Proof.
  intros row.
  refine (proj1 (unread_recomputed_on_load "grp1" row [] 7 9 _ _));
    reflexivity.
Defined.

(** C2 as stated fails beyond 32 bits: a topic stored with seq = 2^31
    and read = 0 loads with unread = 0, not 2^31. *)
Lemma unread_wraps_at_32_bits :
  let row := TopicRow.mk SqlNull SqlNull SqlNull SqlNull (SqlInt 0) SqlNull
               (SqlInt 2147483648) SqlNull SqlNull SqlNull SqlNull SqlNull
               SqlNull SqlNull SqlNull SqlNull SqlNull in
  get "unread" (load_topic "grp1" row []) = JNum 0
  /\ get "unread" (load_topic "grp1" row [])
     <> JNum (Z.max 0 (2147483648 - 0)).
Proof. split; [vm_compute; reflexivity|vm_compute; discriminate]. Qed.

(** ** What an operation computes

    [computes op rel]: whenever [op] resolves, the database before, the
    value it resolves with and the database after are related by [rel].
    [atomic op]: whenever [op] rejects, the database is as it was.  Both
    hold whatever the engine's failures are. *)

Lemma and_then_inr {A B} (c : M A) (k : A -> M B) s b s'' :
  and_then c k s = (inr b, s'') ->
  exists a s', c s = (inr a, s') /\ k a s' = (inr b, s'').
Proof.
  unfold and_then. destruct (c s) as [[e|a] s'] eqn:Hc; [discriminate|].
  intros H. now exists a, s'.
Qed.

Lemma and_then_inl {A B} (c : M A) (k : A -> M B) s e s'' :
  and_then c k s = (inl e, s'') ->
  c s = (inl e, s'')
  \/ exists a s', c s = (inr a, s') /\ k a s' = (inl e, s'').
Proof.
  unfold and_then. destruct (c s) as [[e'|a] s'] eqn:Hc.
  - intros H. left. now inversion H.
  - intros H. right. now exists a, s'.
Qed.

Lemma computes_weaken {A} (op : M A) (rel rel' : Database -> A -> Database -> Prop) :
  computes op rel -> (forall d a d', rel d a d' -> rel' d a d') ->
  computes op rel'.
Proof. intros H Hw s a s' Hop. apply Hw. now apply (H s). Qed.

Lemma computes_resolve {A} (a : A) :
  computes (resolve a) (fun d b d' => b = a /\ d' = d).
Proof. intros s b s' H. inversion H. now subst. Qed.

Lemma computes_and_then {A B} (c : M A) (k : A -> M B) relc relk :
  computes c relc -> (forall a, computes (k a) (relk a)) ->
  computes (and_then c k)
    (fun d b d'' => exists a d', relc d a d' /\ relk a d' b d'').
Proof.
  intros Hc Hk s b s'' H.
  apply and_then_inr in H as (a & s' & H1 & H2).
  exists a, (disk s'). split; [now apply (Hc s)|now apply (Hk a s')].
Qed.

Lemma computes_statement st :
  computes (statement st) (fun d rows d' => exec st d = inr (rows, d')).
Proof.
  intros s rows s'. unfold statement.
  destruct (_db s); [|discriminate].
  destruct (next_fault s); [discriminate|].
  destruct (exec st (disk s)) as [e|[rows' d]]; [discriminate|].
  intros H. inversion H. reflexivity.
Qed.

Lemma atomic_statement st : atomic (statement st).
Proof.
  intros s e s'. unfold statement.
  destruct (_db s); [|intros H; inversion H; subst; reflexivity].
  destruct (next_fault s); [intros H; inversion H; subst; reflexivity|].
  destruct (exec st (disk s)) as [e'|[rows' d]]; [|discriminate].
  intros H. inversion H; subst; reflexivity.
Qed.

(** A query resolves with its rows and writes nothing. *)
Lemma computes_query st :
  read_only st ->
  computes (statement st) (fun d rows d' => rows = rows_of st d /\ d' = d).
Proof.
  intros Hro. eapply computes_weaken; [apply computes_statement|].
  intros d rows d' H. unfold rows_of. specialize (Hro d). rewrite H in *.
  now subst.
Qed.

Lemma computes_preserved {A} (c : M A) :
  preserves disk c -> computes c (fun d _ d' => d' = d).
Proof. intros H s a s' Hc. specialize (H s). now rewrite Hc in H. Qed.

Lemma atomic_preserved {A} (c : M A) : preserves disk c -> atomic c.
Proof. intros H s a s' Hc. specialize (H s). now rewrite Hc in H. Qed.

(** A step that writes nothing, followed by atomic steps, is atomic. *)
Lemma atomic_and_then {A B} (c : M A) (k : A -> M B) :
  preserves disk c -> (forall a, atomic (k a)) -> atomic (and_then c k).
Proof.
  intros Hc Hk s e s'' H. apply and_then_inl in H as [H|(a & s' & H1 & H2)].
  - specialize (Hc s). now rewrite H in Hc.
  - rewrite (Hk a s' e s'' H2). specialize (Hc s). now rewrite H1 in Hc.
Qed.

Lemma atomic_reject {A} (e : Error) : atomic (@reject A e).
Proof. intros s e' s' H. now inversion H. Qed.

Lemma atomic_resolve {A} (a : A) : atomic (resolve a).
Proof. intros s e' s' H. discriminate. Qed.

(** *** Transactions *)

Lemma atomic_transaction (task : M unit) : atomic (withTransactionAsync task).
Proof.
  intros s e s'. unfold withTransactionAsync, try_catch.
  destruct (and_then _ _ s) as [[e0|[]] s0]; [|discriminate].
  intros H. cbv beta in H.
  apply and_then_inl in H as [H|(a & s1 & H1 & H2)]; [discriminate|].
  unfold update in H1. inversion H1; subst; clear H1.
  apply and_then_inl in H2 as [H|(a' & s2 & H1 & H2)].
  - assert (Hp : preserves disk (execAsync ROLLBACK)) by frame.
    specialize (Hp (set_disk (disk s) s0)). now rewrite H in Hp.
  - inversion H2; subst.
    assert (Hp : preserves disk (execAsync ROLLBACK)) by frame.
    specialize (Hp (set_disk (disk s) s0)). now rewrite H1 in Hp.
Qed.

Lemma computes_transaction (task : M unit) rel :
  computes task rel -> computes (withTransactionAsync task) rel.
Proof.
  intros Ht s [] s'. unfold withTransactionAsync, try_catch.
  destruct (and_then _ _ s) as [[e0|[]] s0] eqn:Hrun.
  - intros H. cbv beta in H. apply and_then_inr in H as (a & s1 & _ & H).
    apply and_then_inr in H as (a' & s2 & _ & H). discriminate.
  - intros H. inversion H; subst; clear H.
    apply and_then_inr in Hrun as ([] & s1 & Hb & Hrun).
    apply and_then_inr in Hrun as ([] & s2 & Htask & Hc).
    assert (Hb' : disk s1 = disk s).
    { assert (P : preserves disk (execAsync BEGIN)) by frame.
      specialize (P s). now rewrite Hb in P. }
    assert (Hc' : disk s' = disk s2).
    { assert (P : preserves disk (execAsync COMMIT)) by frame.
      specialize (P s2). now rewrite Hc in P. }
    rewrite Hc', <- Hb'. now apply (Ht s1).
Qed.

(** *** The recovery wrapper is transparent for data *)

Lemma computes_attempt {A} (op : M A) rel :
  computes op rel -> computes (attempt op) rel.
Proof. intros H s a s' Hop. now apply (H (count_attempt s)). Qed.

Lemma atomic_attempt {A} (op : M A) : atomic op -> atomic (attempt op).
Proof. intros H s e s' Hop. exact (H (count_attempt s) e s' Hop). Qed.

Lemma withRecovery_cases {A} (op : M A) s r s' :
  _withRecovery op s = (r, s') ->
  attempt op s = (r, s')
  \/ (exists e s1, attempt op s = (inl e, s1) /\ isStaleHandle e = true
        /\ exists s2, _recoverDatabase s1 = (inr true, s2)
                      /\ attempt op s2 = (r, s'))
  \/ (exists e s1, attempt op s = (inl e, s1) /\ isStaleHandle e = true
        /\ _recoverDatabase s1 = (inr false, s') /\ r = inl e).
Proof.
  unfold _withRecovery, try_catch.
  destruct (attempt op s) as [[e|a] s1] eqn:Ha; [|intros H; now left].
  destruct (isStaleHandle e) eqn:Hst; [|intros H; now left].
  unfold and_then.
  destruct (_recoverDatabase s1) as [[e'|[]] s2] eqn:Hrec.
  - rewrite recoverDatabase_unfold in Hrec. cbv zeta in Hrec.
    destruct (initDatabase _) as [[?|?] ?]; discriminate.
  - intros H. right. left. exists e, s1. repeat split; trivial.
    now exists s2.
  - intros H. inversion H; subst. right. right. now exists e, s1.
Qed.

Lemma computes_withRecovery {A} (op : M A) rel :
  computes op rel -> atomic op -> computes (_withRecovery op) rel.
Proof.
  intros Hc Ha s a s' H.
  apply withRecovery_cases in H
    as [H|[(e & s1 & H1 & _ & s2 & Hrec & H2)|(e & s1 & _ & _ & _ & Hr)]].
  - now apply (computes_attempt op rel Hc s).
  - pose proof (recoverDatabase_keeps_disk s1) as Hd. rewrite Hrec in Hd.
    simpl in Hd.
    rewrite <- (atomic_attempt op Ha s e s1 H1), <- Hd.
    now apply (computes_attempt op rel Hc s2).
  - discriminate.
Qed.

Lemma atomic_withRecovery {A} (op : M A) :
  atomic op -> atomic (_withRecovery op).
Proof.
  intros Ha s e s' H.
  apply withRecovery_cases in H
    as [H|[(e0 & s1 & H1 & _ & s2 & Hrec & H2)|(e0 & s1 & H1 & _ & Hrec & Hr)]].
  - now apply (atomic_attempt op Ha s e).
  - pose proof (recoverDatabase_keeps_disk s1) as Hd. rewrite Hrec in Hd.
    simpl in Hd.
    rewrite (atomic_attempt op Ha s2 e s' H2), Hd.
    now apply (atomic_attempt op Ha s e0).
  - pose proof (recoverDatabase_keeps_disk s1) as Hd. rewrite Hrec in Hd.
    simpl in Hd. rewrite Hd. now apply (atomic_attempt op Ha s e0).
Qed.

Lemma computes_guarded {A} (empty : A) (op : M A) rel s a s' :
  computes op rel -> atomic op -> isReady s = true ->
  guarded empty op s = (inr a, s') -> rel (disk s) a (disk s').
Proof.
  intros Hc Ha Hr. unfold guarded. rewrite Hr. simpl.
  now apply computes_withRecovery.
Qed.

Lemma atomic_guarded {A} (empty : A) (op : M A) :
  atomic op -> atomic (guarded empty op).
Proof.
  intros Ha s e s'. unfold guarded. destruct (negb (isReady s)).
  - discriminate.
  - now apply atomic_withRecovery.
Qed.

(** ** Runs without engine failures

    [steady s]: the store is ready and no failure is scripted. *)

Lemma steady_next_fault s : steady s -> next_fault s = None.
Proof.
  intros [_ H]. unfold calm in H. unfold next_fault.
  destruct (faults s) as [|[e|] f]; simpl in *; congruence.
Qed.

Lemma steady_db s : steady s -> exists h, _db s = Some h.
Proof.
  intros [H _]. unfold isReady in H. destruct (_db s) as [h|].
  - now exists h.
  - now rewrite andb_false_r in H.
Qed.

Lemma steady_drop_fault s : steady s -> steady (drop_fault s).
Proof.
  intros [H1 H2]. split; [exact H1|]. unfold calm in *. simpl.
  destruct (faults s) as [|o f]; simpl in *; [reflexivity|].
  now apply andb_true_iff in H2 as [_ H2].
Qed.

Lemma steady_log_event e s : steady s -> steady (log_event e s).
Proof. intros H. exact H. Qed.

Lemma steady_set_disk d s : steady s -> steady (set_disk d s).
Proof. intros H. exact H. Qed.

Lemma steady_count_attempt s : steady s -> steady (count_attempt s).
Proof. intros H. exact H. Qed.

Lemma steady_log_delivered v s : steady s -> steady (log_delivered v s).
Proof. intros H. exact H. Qed.

(** In a steady store a statement does what [exec] says. *)
Lemma statement_steady st s :
  steady s ->
  exists s', steady s' /\ delivered s' = delivered s
    /\ match exec st (disk s) with
       | inr (rows, d) => statement st s = (inr rows, s') /\ disk s' = d
       | inl e => statement st s = (inl e, s') /\ disk s' = disk s
       end.
Proof.
  intros H. destruct (steady_db s H) as [h Hh].
  unfold statement. rewrite Hh, (steady_next_fault s H).
  destruct (exec st (disk s)) as [e|[rows d]]; eexists; (split; [|split; [|split; reflexivity]]);
    try reflexivity;
    auto using steady_set_disk, steady_log_event, steady_drop_fault.
Qed.

Lemma topic_of_params_error params :
  match topic_of_params params with
  | inl e => e = constraint_failed \/ e = bind_failed
  | inr _ => True
  end.
Proof.
  unfold topic_of_params. destruct (bind_all params) as [l|]; [|now right].
  repeat match goal with
         | |- context [match ?x with _ => _ end] => is_var x; destruct x
         end; auto.
Qed.

Lemma subscription_of_params_error params :
  match subscription_of_params params with
  | inl e => e = constraint_failed \/ e = bind_failed
  | inr _ => True
  end.
Proof.
  unfold subscription_of_params. destruct (bind_all params) as [l|]; [|now right].
  repeat match goal with
         | |- context [match ?x with _ => _ end] => is_var x; destruct x
         end; auto.
Qed.

Lemma message_of_params_error params :
  match message_of_params params with
  | inl e => e = constraint_failed \/ e = bind_failed
  | inr _ => True
  end.
Proof.
  unfold message_of_params. destruct (bind_all params) as [l|]; [|now right].
  repeat match goal with
         | |- context [match ?x with _ => _ end] => is_var x; destruct x
         end; auto.
Qed.

Lemma exec_error_not_stale st d e :
  exec st d = inl e -> isStaleHandle e = false.
Proof.
  assert (Hb : forall e0, e0 = constraint_failed \/ e0 = bind_failed ->
                isStaleHandle e0 = false) by (intros e0 [->| ->]; reflexivity).
  destruct st; simpl; try discriminate;
    try (destruct name; try discriminate);
    repeat match goal with
           | |- context [topic_of_params ?p] =>
               pose proof (topic_of_params_error p);
               destruct (topic_of_params p) as [?|[? ?]]
           | |- context [subscription_of_params ?p] =>
               pose proof (subscription_of_params_error p);
               destruct (subscription_of_params p) as [?|[? ?]]
           | |- context [message_of_params ?p] =>
               pose proof (message_of_params_error p);
               destruct (message_of_params p) as [?|[? ?]]
           | |- context [match ?x with _ => _ end] => destruct x
           end; try discriminate; intros H'; inversion H'; subst; auto.
Qed.

(** With nothing to recover from, the wrapper is the operation. *)
Lemma withRecovery_resolved {A} (op : M A) s a s' :
  attempt op s = (inr a, s') -> _withRecovery op s = (inr a, s').
Proof. intros H. unfold _withRecovery, try_catch. now rewrite H. Qed.

Lemma withRecovery_rejected {A} (op : M A) s e s' :
  attempt op s = (inl e, s') -> isStaleHandle e = false ->
  _withRecovery op s = (inl e, s').
Proof. intros H He. unfold _withRecovery, try_catch. now rewrite H, He. Qed.

Lemma guarded_resolved {A} (empty : A) (op : M A) s a s' :
  isReady s = true -> op (count_attempt s) = (inr a, s') ->
  guarded empty op s = (inr a, s').
Proof.
  intros Hr H. rewrite guarded_ready by exact Hr.
  now apply withRecovery_resolved.
Qed.

Lemma for_each_delivered (args : list JsVal) s :
  for_each args (fun v => update (log_delivered v)) s
  = (inr tt,
     mkStore (_ready s) (_db s) (disk s) (faults s) (trace s)
             (delivered s ++ args)%list (reported s) (attempts s)).
Proof.
  revert s. induction args as [|v args IH]; intros s; simpl.
  - unfold resolve. rewrite app_nil_r. now destruct s.
  - unfold and_then, update. rewrite IH. simpl.
    now rewrite <- app_assoc.
Qed.

(** The callback changes nothing but its own log. *)
Lemma call_back_run (callback : bool) (args : list JsVal) s :
  exists s', call_back callback args s = (inr tt, s')
    /\ disk s' = disk s /\ isReady s' = isReady s /\ calm s' = calm s
    /\ delivered s' = (delivered s ++ if callback then args else [])%list.
Proof.
  unfold call_back. destruct callback.
  - rewrite for_each_delivered. eexists. split; [reflexivity|].
    repeat split.
  - exists s. unfold resolve. rewrite app_nil_r. repeat split.
Qed.

Lemma call_back_keeps_disk callback args :
  preserves disk (call_back callback args).
Proof.
  intros s. destruct (call_back_run callback args s) as (s' & -> & H & _).
  exact H.
Qed.

(** ** Removing a topic *)

Lemma runAsync_inr st s s' :
  runAsync st s = (inr tt, s') ->
  exists rows, exec st (disk s) = inr (rows, disk s').
Proof.
  unfold runAsync. intros H. apply and_then_inr in H as (rows & s1 & H & Hr).
  inversion Hr; subst. exists rows. now apply (computes_statement st s).
Qed.

Lemma remTopic_task_computes name :
  computes (remTopic_task name) (fun d _ d' => d' = purge name d).
Proof.
  intros s [] s' H. unfold remTopic_task in H.
  apply and_then_inr in H as ([] & s1 & H1 & H).
  apply and_then_inr in H as ([] & s2 & H2 & H).
  apply and_then_inr in H as ([] & s3 & H3 & H4).
  apply runAsync_inr in H1 as (r1 & H1), H2 as (r2 & H2),
    H3 as (r3 & H3), H4 as (r4 & H4).
  simpl in *. injection H1 as _ E1. injection H2 as _ E2.
  injection H3 as _ E3. injection H4 as _ E4.
  rewrite <- E4, <- E3, <- E2, <- E1. reflexivity.
Qed.

Lemma remTopic_task_succeeds name s :
  steady s ->
  exists s', remTopic_task name s = (inr tt, s') /\ steady s'.
Proof.
  intros H0. unfold remTopic_task, runAsync, and_then.
  destruct (statement_steady (DELETE_FROM_topics_WHERE_name name) s H0)
    as (s1 & H1 & _ & E1 & _). simpl in E1. rewrite E1.
  destruct (statement_steady (DELETE_FROM_subscriptions_WHERE_topic name) s1 H1)
    as (s2 & H2 & _ & E2 & _). simpl in E2. unfold resolve. rewrite E2.
  destruct (statement_steady (DELETE_FROM_messages_WHERE_topic name) s2 H2)
    as (s3 & H3 & _ & E3 & _). simpl in E3. rewrite E3.
  destruct (statement_steady (DELETE_FROM_dellog_WHERE_topic name) s3 H3)
    as (s4 & H4 & _ & E4 & _). simpl in E4. rewrite E4.
  now exists s4.
Qed.

Lemma transaction_succeeds (task : M unit) s :
  steady s ->
  (forall s0, steady s0 -> exists s1, task s0 = (inr tt, s1) /\ steady s1) ->
  exists s', withTransactionAsync task s = (inr tt, s') /\ steady s'.
Proof.
  intros H0 Ht. unfold withTransactionAsync, try_catch, and_then, execAsync.
  destruct (statement_steady BEGIN s H0) as (s1 & H1 & _ & E1 & _).
  simpl in E1. unfold and_then. rewrite E1. unfold resolve.
  destruct (Ht s1 H1) as (s2 & E2 & H2). rewrite E2.
  destruct (statement_steady COMMIT s2 H2) as (s3 & H3 & _ & E3 & _).
  simpl in E3. rewrite E3. now exists s3.
Qed.

Lemma filter_all_false {A} (f : A -> bool) (l : list A) :
  (forall x, In x l -> f x = false) -> List.filter f l = [].
Proof.
  induction l as [|x l IH]; intros H; simpl; [reflexivity|].
  rewrite (H x) by now left. apply IH. intros y Hy. apply H. now right.
Qed.

Section Purged.
Variables (name : string) (d : Database).

Lemma purge_topics other :
  topics (purge name d) !! other
  = if decide (name = other) then None else topics d !! other.
Proof. simpl. apply lookup_delete. Qed.

Lemma purge_subscriptions topic uid :
  subscriptions (purge name d) !! (topic, uid)
  = if decide (topic = name) then None else subscriptions d !! (topic, uid).
Proof.
  simpl. destruct (decide (topic = name)) as [->|Hne].
  - apply map_lookup_filter_None. right. intros x _ Hx. now apply Hx.
  - destruct (subscriptions d !! (topic, uid)) as [r|] eqn:E.
    + now apply map_lookup_filter_Some.
    + apply map_lookup_filter_None. now left.
Qed.

Lemma purge_messages topic seq :
  messages (purge name d) !! (topic, seq)
  = if decide (topic = name) then None else messages d !! (topic, seq).
Proof.
  simpl. destruct (decide (topic = name)) as [->|Hne].
  - apply map_lookup_filter_None. right. intros x _ Hx. now apply Hx.
  - destruct (messages d !! (topic, seq)) as [r|] eqn:E.
    + now apply map_lookup_filter_Some.
    + apply map_lookup_filter_None. now left.
Qed.

Lemma purge_dellog topic lo hi :
  dellog (purge name d) !! (topic, lo, hi)
  = if decide (topic = name) then None else dellog d !! (topic, lo, hi).
Proof.
  simpl. destruct (decide (topic = name)) as [->|Hne].
  - apply map_lookup_filter_None. right. intros x _ Hx. now apply Hx.
  - destruct (dellog d !! (topic, lo, hi)) as [r|] eqn:E.
    + now apply map_lookup_filter_Some.
    + apply map_lookup_filter_None. now left.
Qed.

Lemma purge_users : users (purge name d) = users d.
Proof. reflexivity. Qed.

(** Every query scoped to the removed topic comes back empty. *)
Lemma purged_subscriptions :
  rows_of (SELECT_subscriptions_WHERE_topic name) (purge name d) = [].
Proof.
  unfold rows_of. simpl. rewrite filter_all_false; [reflexivity|].
  intros [[t u] r] Hin. apply list_elem_of_In, elem_of_map_to_list in Hin.
  apply map_lookup_filter_Some in Hin as [_ Hne]. simpl in *.
  now apply String.eqb_neq.
Qed.

Lemma purged_select_messages lo hi : select_messages name lo hi (purge name d) = [].
Proof.
  unfold select_messages. rewrite filter_all_false; [reflexivity|].
  intros [[t n] r] Hin. apply list_elem_of_In, elem_of_map_to_list in Hin.
  apply map_lookup_filter_Some in Hin as [_ Hne]. simpl in *.
  unfold msg_in_range. simpl.
  apply String.eqb_neq in Hne. now rewrite Hne.
Qed.

Lemma purged_messages_range lo hi limit :
  rows_of (SELECT_messages_WHERE_range name lo hi limit) (purge name d) = [].
Proof.
  unfold rows_of. cbn [exec]. rewrite purged_select_messages.
  unfold limit_rows. destruct limit as [n|]; [|reflexivity].
  destruct (Z.ltb n 0); [reflexivity|]. now destruct (Z.to_nat n).
Qed.

Lemma purged_messages_seq n :
  rows_of (SELECT_messages_WHERE_seq name n) (purge name d) = [].
Proof.
  unfold rows_of. cbn [exec]. rewrite purge_messages.
  now rewrite decide_True.
Qed.

Lemma purged_dellog_filter (f : (string * Z * Z) * Z -> bool) :
  (forall kv, f kv = true -> fst (fst (fst kv)) = name) ->
  List.filter f (map_to_list (dellog (purge name d))) = [].
Proof.
  intros Hf. apply filter_all_false.
  intros [[[t lo] hi] c] Hin.
  apply list_elem_of_In, elem_of_map_to_list in Hin.
  apply map_lookup_filter_Some in Hin as [_ Hne]. simpl in *.
  destruct (f (t, lo, hi, c)) eqn:E; [|reflexivity].
  apply Hf in E. simpl in E. congruence.
Qed.

Lemma purged_dellog_low lo hi :
  rows_of (SELECT_dellog_WHERE_low_range name lo hi) (purge name d) = [].
Proof.
  unfold rows_of. cbn [exec]. rewrite purged_dellog_filter; [reflexivity|].
  intros kv H. unfold dellog_low_in in H.
  apply andb_true_iff in H as [H _]. apply andb_true_iff in H as [H _].
  now apply String.eqb_eq.
Qed.

Lemma purged_dellog_clear lo hi limit :
  rows_of (SELECT_dellog_WHERE_clear_range name lo hi limit) (purge name d) = [].
Proof.
  unfold rows_of. cbn [exec]. rewrite purged_dellog_filter.
  - unfold limit_rows. destruct limit as [n|]; [|reflexivity].
    destruct (Z.ltb n 0); [reflexivity|]. now destruct (Z.to_nat n).
  - intros kv H. unfold dellog_clear_in in H.
    apply andb_true_iff in H as [H _]. apply andb_true_iff in H as [H _].
    now apply String.eqb_eq.
Qed.

Lemma purged_dellog_max :
  rows_of (SELECT_dellog_ORDER_BY_clear_DESC_LIMIT_1 name) (purge name d) = [].
Proof.
  unfold rows_of. cbn [exec]. rewrite purged_dellog_filter; [reflexivity|].
  intros kv H. now apply String.eqb_eq.
Qed.
End Purged.

(** ** Reading *)

Lemma reads_guarded {A} (empty : A) (op : M A) f s a s' :
  reads op f -> guarded empty op s = (inr a, s') ->
  disk s' = disk s /\ (a = f (disk s) \/ (isReady s = false /\ a = empty)).
Proof.
  intros [Hc Ha] H. destruct (isReady s) eqn:Hr.
  - apply (computes_guarded empty op _ s a s' Hc Ha Hr) in H as [-> ->].
    split; [reflexivity|now left].
  - rewrite guarded_not_ready in H by exact Hr. inversion H; subst.
    split; [reflexivity|now right].
Qed.

(** A query, the callback on what it gave, and the value returned. *)
Lemma reads_query {A} st (g : list Obj -> A) (args : list Obj -> list JsVal)
    (callback : bool) :
  read_only st ->
  reads (await rows := getAllAsync st in
         run call_back callback (args rows) in
         resolve (g rows))
        (fun d => g (rows_of st d)).
Proof.
  intros Hro. split.
  - intros s a s' H.
    apply and_then_inr in H as (rows & s1 & H1 & H).
    apply and_then_inr in H as ([] & s2 & H2 & H3).
    apply (computes_query st Hro) in H1 as [-> E1].
    pose proof (call_back_keeps_disk callback (args (rows_of st (disk s))) s1) as E2.
    rewrite H2 in E2. simpl in E2. inversion H3; subst.
    split; [reflexivity|congruence].
  - apply atomic_preserved. pose proof call_back_keeps_disk.
    unfold getAllAsync. apply preserves_and_then.
    + apply (preserves_read disk engine_frame_disk st Hro).
    + intros rows. frame.
Qed.

Lemma reads_first {A} st (g : option Obj -> A) :
  read_only st ->
  reads (await row := getFirstAsync st in resolve (g row))
        (fun d => g (head (rows_of st d))).
Proof.
  intros Hro. split.
  - intros s a s' H.
    apply and_then_inr in H as (row & s1 & H1 & H).
    unfold getFirstAsync in H1.
    apply and_then_inr in H1 as (rows & s0 & H0 & H1).
    apply (computes_query st Hro) in H0 as [-> E1].
    inversion H1; subst. inversion H; subst. split; [reflexivity|exact E1].
  - apply atomic_preserved. unfold getFirstAsync.
    repeat apply preserves_and_then;
      try (intros; apply preserves_resolve).
    apply (preserves_read disk engine_frame_disk st Hro).
Qed.

Lemma read_only_range topicName range :
  read_only (range_statement topicName range).
Proof.
  unfold range_statement. destruct (hi range) as [h|].
  - destruct (Z.eqb h 0).
    + exact (read_only_schema (SELECT_messages_WHERE_seq topicName (low range))).
    + exact (read_only_schema
               (SELECT_messages_WHERE_range topicName (low range) h None)).
  - exact (read_only_schema (SELECT_messages_WHERE_seq topicName (low range))).
Qed.

Lemma readMessages_ranges_step topicName callback range rest result s :
  readMessages_ranges topicName callback (range :: rest) result s
  = (await msgs := getAllAsync (range_statement topicName range) in
     run call_back callback
           [JArr (List.map JObj (List.map _deserializeMessageRow msgs))] in
     readMessages_ranges topicName callback rest
       (result ++ List.map _deserializeMessageRow msgs)%list) s.
Proof.
  simpl. unfold range_statement.
  destruct (hi range) as [h|]; [destruct (Z.eqb h 0)|]; reflexivity.
Qed.

Lemma readMessages_ranges_reads topicName callback ranges result :
  reads (readMessages_ranges topicName callback ranges result)
        (fun d => (result ++ flat_map (range_group topicName d) ranges)%list).
Proof.
  revert result. induction ranges as [|range rest IH]; intros result.
  - split.
    + intros s a s' H. inversion H; subst. simpl. now rewrite app_nil_r.
    + apply atomic_resolve.
  - split.
    + intros s a s' H. rewrite readMessages_ranges_step in H.
      apply and_then_inr in H as (rows & s1 & H1 & H).
      apply and_then_inr in H as ([] & s2 & H2 & H3).
      apply (computes_query _ (read_only_range topicName range)) in H1
        as [-> E1].
      pose proof (call_back_keeps_disk callback
        [JArr (List.map JObj (List.map _deserializeMessageRow
           (rows_of (range_statement topicName range) (disk s))))] s1) as E2.
      rewrite H2 in E2. simpl in E2.
      destruct (IH (result ++ List.map _deserializeMessageRow
           (rows_of (range_statement topicName range) (disk s)))%list)
        as [Hc _].
      apply Hc in H3 as [-> E3]. split; [|congruence].
      simpl. unfold range_group at 2.
      rewrite <- app_assoc. now rewrite E2, E1.
    + intros s e s' H. rewrite readMessages_ranges_step in H.
      apply and_then_inl in H as [H|(rows & s1 & H1 & H)].
      * now apply atomic_statement in H.
      * apply (computes_query _ (read_only_range topicName range)) in H1
          as [-> E1].
        apply and_then_inl in H as [H|([] & s2 & H2 & H)].
        -- destruct (call_back_run callback
             [JArr (List.map JObj (List.map _deserializeMessageRow
                (rows_of (range_statement topicName range) (disk s))))] s1)
             as (s2 & E & _). rewrite E in H. discriminate.
        -- pose proof (call_back_keeps_disk callback
             [JArr (List.map JObj (List.map _deserializeMessageRow
                (rows_of (range_statement topicName range) (disk s))))] s1)
             as E2.
           rewrite H2 in E2. simpl in E2.
           destruct (IH (result ++ List.map _deserializeMessageRow
             (rows_of (range_statement topicName range) (disk s)))%list)
             as [_ Ha].
           apply Ha in H. congruence.
Qed.

Lemma readMessages_reads topicName query callback s rows s' :
  readMessages topicName query callback s = (inr rows, s') ->
  disk s' = disk s
  /\ (rows = readMessages_result topicName query (disk s)
      \/ (isReady s = false /\ rows = [])).
Proof.
  unfold readMessages, readMessages_result.
  destruct (ranges (match query with Some q => q | None => empty_query end))
    as [rs|] eqn:Hr.
  - intros H.
    apply (reads_guarded [] _
             (fun d => flat_map (range_group topicName d) rs)) in H;
      [exact H|].
    apply (readMessages_ranges_reads topicName callback rs []).
  - intros H.
    apply (reads_guarded [] _
             (fun d => List.map _deserializeMessageRow
                         (rows_of (scan_statement topicName
                            match query with Some q => q | None => empty_query end)
                            d))) in H; [exact H|].
    apply (reads_query (scan_statement topicName _)
             (List.map _deserializeMessageRow)
             (fun rows => List.map JObj (List.map _deserializeMessageRow rows))
             callback).
    exact (read_only_schema (scan_statement topicName _)).
Qed.

Lemma readDelLog_ranges_reads topicName ranges result :
  reads (readDelLog_ranges topicName ranges result)
        (fun d =>
           (result ++
            flat_map
              (fun range =>
                 List.map low_hi
                   (rows_of (SELECT_dellog_WHERE_low_range topicName
                               (low range) (hi_or_next range)) d))
              ranges)%list).
Proof.
  revert result. induction ranges as [|range rest IH]; intros result.
  - split.
    + intros s a s' H. inversion H; subst. simpl. now rewrite app_nil_r.
    + apply atomic_resolve.
  - pose proof (read_only_schema
      (SELECT_dellog_WHERE_low_range topicName (low range) (hi_or_next range)))
      as Hro. cbv beta iota in Hro.
    split.
    + intros s a s' H. simpl in H.
      apply and_then_inr in H as (rows & s1 & H1 & H).
      apply (computes_query _ Hro) in H1 as [-> E1].
      destruct (IH (result ++ List.map low_hi
        (rows_of (SELECT_dellog_WHERE_low_range topicName (low range)
                    (hi_or_next range)) (disk s)))%list) as [Hc _].
      apply Hc in H as [-> E3]. split; [|congruence].
      simpl. rewrite <- app_assoc. now rewrite E1.
    + intros s e s' H. simpl in H.
      apply and_then_inl in H as [H|(rows & s1 & H1 & H)].
      * now apply atomic_statement in H.
      * apply (computes_query _ Hro) in H1 as [-> E1].
        destruct (IH (result ++ List.map low_hi
          (rows_of (SELECT_dellog_WHERE_low_range topicName (low range)
                      (hi_or_next range)) (disk s)))%list) as [_ Ha].
        apply Ha in H. congruence.
Qed.

Lemma resolve_after_query {A} st (g : list Obj -> A) :
  read_only st ->
  reads (await rows := getAllAsync st in resolve (g rows))
        (fun d => g (rows_of st d)).
Proof.
  intros Hro. split.
  - intros s a s' H. apply and_then_inr in H as (rows & s1 & H1 & H).
    apply (computes_query st Hro) in H1 as [-> E1].
    inversion H; subst. now split.
  - apply atomic_preserved. unfold getAllAsync. apply preserves_and_then.
    + apply (preserves_read disk engine_frame_disk st Hro).
    + intros rows. apply preserves_resolve.
Qed.

Lemma readDelLog_reads topicName query s rows s' :
  readDelLog topicName query s = (inr rows, s') ->
  disk s' = disk s
  /\ (rows = readDelLog_result topicName query (disk s)
      \/ (isReady s = false /\ rows = [])).
Proof.
  unfold readDelLog, readDelLog_result.
  destruct (ranges (match query with Some q => q | None => empty_query end))
    as [rs|] eqn:Hr.
  - intros H.
    apply (reads_guarded [] _
             (fun d =>
                flat_map
                  (fun range =>
                     List.map low_hi
                       (rows_of (SELECT_dellog_WHERE_low_range topicName
                                   (low range) (hi_or_next range)) d)) rs))
      in H; [exact H|].
    apply (readDelLog_ranges_reads topicName rs []).
  - intros H.
    apply (reads_guarded [] _
             (fun d =>
                List.map low_hi
                  (rows_of
                     (SELECT_dellog_WHERE_clear_range topicName
                        (positive_or (since
                           match query with Some q => q | None => empty_query end) 0)
                        (positive_or (before
                           match query with Some q => q | None => empty_query end)
                           MAX_SAFE_INTEGER)
                        (if Z.ltb 0 (int32_of (limit
                           match query with Some q => q | None => empty_query end))
                         then Some (int32_of (limit
                           match query with Some q => q | None => empty_query end))
                         else None)) d))) in H; [exact H|].
    apply (resolve_after_query _ (List.map low_hi)).
    exact (read_only_schema (SELECT_dellog_WHERE_clear_range topicName _ _ _)).
Qed.

Lemma mapSubscriptions_reads topicName callback s rows s' :
  mapSubscriptions topicName callback s = (inr rows, s') ->
  disk s' = disk s
  /\ (rows = List.map _deserializeSubscriptionRow
               (rows_of (SELECT_subscriptions_WHERE_topic topicName) (disk s))
      \/ (isReady s = false /\ rows = [])).
Proof.
  unfold mapSubscriptions. intros H.
  apply (reads_guarded [] _
           (fun d => List.map _deserializeSubscriptionRow
                       (rows_of (SELECT_subscriptions_WHERE_topic topicName) d)))
    in H; [exact H|].
  apply (reads_query (SELECT_subscriptions_WHERE_topic topicName)
           (List.map _deserializeSubscriptionRow)
           (fun rows => List.map JObj (List.map _deserializeSubscriptionRow rows))
           callback).
  exact (read_only_schema (SELECT_subscriptions_WHERE_topic topicName)).
Qed.

Lemma maxDelId_reads topicName s r s' :
  maxDelId topicName s = (inr r, s') ->
  disk s' = disk s
  /\ (r = maxDelId_result
            (head (rows_of (SELECT_dellog_ORDER_BY_clear_DESC_LIMIT_1 topicName)
                     (disk s)))
      \/ (isReady s = false /\ r = None)).
Proof.
  unfold maxDelId. intros H.
  apply (reads_guarded None _
           (fun d => maxDelId_result
                       (head (rows_of
                          (SELECT_dellog_ORDER_BY_clear_DESC_LIMIT_1 topicName) d))))
    in H; [exact H|].
  assert (E : forall s0,
    (await row := getFirstAsync (SELECT_dellog_ORDER_BY_clear_DESC_LIMIT_1 topicName) in
     match row with
     | Some row0 =>
         resolve (Some [("topic", get "topic" row0); ("clear", get "clear" row0);
                        ("low", get "low" row0); ("hi", get "hi" row0)])
     | None => resolve None
     end) s0
    = (await row := getFirstAsync (SELECT_dellog_ORDER_BY_clear_DESC_LIMIT_1 topicName) in
       resolve (maxDelId_result row)) s0).
  { intros s0. apply and_then_ext. intros [row|] s1; reflexivity. }
  pose proof (reads_first (SELECT_dellog_ORDER_BY_clear_DESC_LIMIT_1 topicName)
                maxDelId_result
                (read_only_schema
                   (SELECT_dellog_ORDER_BY_clear_DESC_LIMIT_1 topicName)))
    as [Hc Ha].
  split.
  - intros s0 a s1 H0. rewrite E in H0. now apply Hc in H0.
  - intros s0 e s1 H0. rewrite E in H0. now apply Ha in H0.
Qed.

Lemma flat_map_nil {A B} (f : A -> list B) (l : list A) :
  (forall x, f x = []) -> flat_map f l = [].
Proof.
  intros H. induction l as [|x l IH]; simpl; [reflexivity|].
  now rewrite H, IH.
Qed.

Lemma remTopic_outcome name s r s' :
  isReady s = true -> remTopic name s = (r, s') ->
  match r with
  | inr _ => disk s' = purge name (disk s)
  | inl _ => disk s' = disk s
  end.
Proof.
  intros Hr H. unfold remTopic in H. fold (remTopic_task name) in H.
  destruct r as [e|[]].
  - now apply (atomic_guarded tt _ (atomic_transaction _)) in H.
  - apply (computes_guarded tt _ (fun d _ d' => d' = purge name d)) in H;
      auto using atomic_transaction.
    apply computes_transaction, remTopic_task_computes.
Qed.

(** C4: [remTopic(name)] is all or nothing, and what it removes is the
    topic row together with every subscription, message and deletion-log
    row of that topic.  When it resolves the database is the purged one;
    when it rejects the database is untouched; with no engine failure it
    resolves.  On the purged database every enumeration scoped to the
    topic is empty (subscriptions, messages under any query, the deletion
    log under any query, its maximum), while the rows of every other
    topic, and the users, are as before. *)
Theorem remTopic_removes_topic_atomically (name : string) (s : Store) :
  isReady s = true ->
  (forall r s', remTopic name s = (r, s') ->
     match r with
     | inr _ => disk s' = purge name (disk s)
     | inl _ => disk s' = disk s
     end)
  /\ (calm s = true -> exists s', remTopic name s = (inr tt, s'))
  /\ (forall s1, disk s1 = purge name (disk s) ->
        (forall callback rows s2,
           mapSubscriptions name callback s1 = (inr rows, s2) -> rows = [])
        /\ (forall query callback rows s2,
              readMessages name query callback s1 = (inr rows, s2) -> rows = [])
        /\ (forall query rows s2,
              readDelLog name query s1 = (inr rows, s2) -> rows = [])
        /\ (forall entry s2,
              maxDelId name s1 = (inr entry, s2) -> entry = None))
  /\ (forall other, other <> name ->
        topics (purge name (disk s)) !! other = topics (disk s) !! other
        /\ (forall uid, subscriptions (purge name (disk s)) !! (other, uid)
                        = subscriptions (disk s) !! (other, uid))
        /\ (forall seq, messages (purge name (disk s)) !! (other, seq)
                        = messages (disk s) !! (other, seq))
        /\ (forall lo hi, dellog (purge name (disk s)) !! (other, lo, hi)
                          = dellog (disk s) !! (other, lo, hi)))
  /\ topics (purge name (disk s)) !! name = None
  /\ users (purge name (disk s)) = users (disk s).
Proof.
  intros Hr.
  split; [|split; [|split; [|split; [|split]]]].
  - intros r s'. now apply remTopic_outcome.
  - intros Hc. unfold remTopic. fold (remTopic_task name).
    assert (Hs : steady (count_attempt s)) by (split; assumption).
    destruct (transaction_succeeds (remTopic_task name) (count_attempt s) Hs
                (remTopic_task_succeeds name)) as (s' & E & _).
    exists s'. now apply guarded_resolved.
  - intros s1 Hd. split; [|split; [|split]].
    + intros callback rows s2 H.
      apply mapSubscriptions_reads in H as [_ [->|[_ ->]]]; [|reflexivity].
      rewrite Hd. now rewrite purged_subscriptions.
    + intros query callback rows s2 H.
      apply readMessages_reads in H as [_ [->|[_ ->]]]; [|reflexivity].
      rewrite Hd. unfold readMessages_result.
      destruct (ranges _) as [rs|].
      * apply flat_map_nil. intros range. unfold range_group, range_statement.
        destruct (hi range) as [h|]; [destruct (Z.eqb h 0)|];
          now rewrite ?purged_messages_seq, ?purged_messages_range.
      * unfold scan_statement. now rewrite purged_messages_range.
    + intros query rows s2 H.
      apply readDelLog_reads in H as [_ [->|[_ ->]]]; [|reflexivity].
      rewrite Hd. unfold readDelLog_result.
      destruct (ranges _) as [rs|].
      * apply flat_map_nil. intros range. now rewrite purged_dellog_low.
      * now rewrite purged_dellog_clear.
    + intros entry s2 H.
      apply maxDelId_reads in H as [_ [->|[_ ->]]]; [|reflexivity].
      rewrite Hd. now rewrite purged_dellog_max.
  - intros other Hne. split; [|split; [|split]].
    + rewrite purge_topics. now rewrite decide_False by congruence.
    + intros uid. rewrite purge_subscriptions. now rewrite decide_False.
    + intros seq. rewrite purge_messages. now rewrite decide_False.
    + intros lo hi. rewrite purge_dellog. now rewrite decide_False.
  - rewrite purge_topics. now rewrite decide_True.
  - reflexivity.
Qed.

(** ** Adding a message *)

Lemma atomic_runAsync st : atomic (runAsync st).
Proof.
  intros s e s' H. unfold runAsync in H.
  apply and_then_inl in H as [H|(rows & s1 & _ & H)]; [|discriminate].
  now apply atomic_statement in H.
Qed.

Lemma addMessage_body_computes msg :
  computes (addMessage_body msg)
    (fun d _ d' => exists key row,
         written_by msg = Some (key, row)
         /\ d' = with_messages (insert key row) d)
  /\ atomic (addMessage_body msg).
Proof.
  unfold addMessage_body, written_by.
  destruct (_serializeMessage None msg) as [e|data].
  - split; [intros s a s' H; discriminate|apply atomic_reject].
  - split; [|apply atomic_runAsync].
    intros s [] s' H. apply runAsync_inr in H as (rows & H). simpl in H.
    destruct (message_of_params (addMessage_params data)) as [e|[key row]];
      [discriminate|].
    exists key, row. split; [reflexivity|]. now inversion H.
Qed.

Lemma addMessage_resolved msg s s' :
  isReady s = true -> addMessage msg s = (inr tt, s') ->
  exists key row, written_by msg = Some (key, row)
    /\ disk s' = with_messages (insert key row) (disk s).
Proof.
  intros Hr H. unfold addMessage in H. cbv zeta in H.
  fold (addMessage_body msg) in H.
  destruct (addMessage_body_computes msg) as [Hc Ha].
  now apply (computes_guarded tt _ _ s tt s' Hc Ha Hr) in H.
Qed.

Lemma addMessage_steady msg key row s :
  steady s -> written_by msg = Some (key, row) ->
  exists s', addMessage msg s = (inr tt, s') /\ steady s'
    /\ disk s' = with_messages (insert key row) (disk s).
Proof.
  intros Hs Hw. unfold addMessage. cbv zeta. unfold written_by in Hw.
  destruct (_serializeMessage None msg) as [e|data] eqn:Hser; [discriminate|].
  destruct (message_of_params (addMessage_params data)) as [e|kr] eqn:Hp;
    [discriminate|]. inversion Hw; subst kr; clear Hw.
  destruct (statement_steady
              (INSERT_OR_REPLACE_INTO_messages (addMessage_params data))
              (count_attempt s) (steady_count_attempt s Hs))
    as (s' & Hs' & _ & Hrun).
  simpl in Hrun. rewrite Hp in Hrun. destruct Hrun as [Hrun Hd].
  exists s'. split; [|split; assumption].
  apply guarded_resolved; [apply Hs|].
  unfold runAsync, and_then. now rewrite Hrun.
Qed.

Lemma bind_encode (v : JsVal) : bind_param (encode v) = Some (stored v).
Proof.
  destruct v; try reflexivity; unfold encode, JSON.stringify; simpl;
    try reflexivity.
Qed.

Lemma bind_stored (v : JsVal) (x : SqlVal) :
  bind_param v = Some x -> x = stored v.
Proof. destruct v; simpl; intros H; now inversion H. Qed.

Lemma bind_to_js (v : SqlVal) : bind_param (to_js v) = Some v.
Proof. now destruct v. Qed.

Lemma serialize_message_field_eq msg acc f :
  serialize_message_field msg acc f
  = match acc with
    | inl e => inl e
    | inr res =>
        if hasOwnProperty f msg then
          match message_field msg f with
          | inr v => inr (set f v res)
          | inl e => inl e
          end
        else inr res
    end.
Proof.
  unfold serialize_message_field, message_field, encode.
  destruct acc as [e|res]; [reflexivity|].
  destruct (hasOwnProperty f msg); [|reflexivity].
  destruct (String.eqb f "head" || String.eqb f "content"); [reflexivity|].
  destruct (String.eqb f "ts"); [|reflexivity].
  destruct (is_date (get f msg)); [|reflexivity].
  now destruct (Date.toISOString (get f msg)).
Qed.

Lemma fold_serialize_message_rejected msg fields e :
  fold_left (serialize_message_field msg) fields (inl e) = inl e.
Proof. induction fields as [|f fields IH]; simpl; [reflexivity|exact IH]. Qed.

Lemma get_serialized_message msg fields res data k :
  fold_left (serialize_message_field msg) fields (inr res) = inr data ->
  if existsb (String.eqb k) fields && hasOwnProperty k msg
  then message_field msg k = inr (get k data)
  else get k data = get k res.
Proof.
  revert res. induction fields as [|f fields IH]; intros res H;
    cbn [fold_left existsb] in *.
  - simpl. now inversion H.
  - rewrite serialize_message_field_eq in H.
    destruct (hasOwnProperty f msg) eqn:Hf.
    + destruct (message_field msg f) as [e|v] eqn:Hv.
      * now rewrite fold_serialize_message_rejected in H.
      * specialize (IH _ H).
        destruct (String.eqb_spec k f) as [->|Hne]; simpl.
        -- rewrite Hf.
           destruct (existsb (String.eqb f) fields); simpl in *.
           ++ rewrite Hf in IH. exact IH.
           ++ rewrite IH, get_set, String.eqb_refl. exact Hv.
        -- destruct (existsb (String.eqb k) fields && hasOwnProperty k msg);
             [exact IH|].
           rewrite IH, get_set.
           destruct (String.eqb_spec k f); [congruence|reflexivity].
    + specialize (IH _ H).
      destruct (String.eqb_spec k f) as [->|Hne]; simpl.
      * rewrite Hf in *. now rewrite andb_false_r in *.
      * exact IH.
Qed.

Lemma get_absent k o : hasOwnProperty k o = false -> get k o = JUndef.
Proof.
  induction o as [|[k' v] o IH]; simpl; [reflexivity|].
  destruct (String.eqb k k'); [discriminate|exact IH].
Qed.

Lemma bind_undefined_to_null v :
  bind_param (undefined_to_null v) = bind_param v.
Proof. now destruct v. Qed.

(** What the written row holds: the key is the stored form of the
    message's topic and seq, and the content, head, status and sender
    columns are the stored form of the corresponding properties. *)
Lemma written_by_fields msg topic seq row :
  written_by msg = Some ((topic, seq), row) ->
  stored (get "topic" msg) = SqlText topic
  /\ stored (get "seq" msg) = SqlInt seq
  /\ MsgRow.content row = stored (get "content" msg)
  /\ MsgRow.head row = stored (get "head" msg)
  /\ MsgRow._status row = stored (get "_status" msg)
  /\ MsgRow.from_uid row = stored (get "from" msg).
Proof.
  unfold written_by.
  destruct (_serializeMessage None msg) as [e|data] eqn:Hser; [discriminate|].
  unfold _serializeMessage in Hser.
  assert (G : forall k,
    existsb (String.eqb k) MESSAGE_FIELDS = true ->
    String.eqb k "ts" = false ->
    if String.eqb k "head" || String.eqb k "content"
    then bind_param (get k data) = Some (stored (get k msg))
    else get k data = get k msg).
  { intros k Hk Hts.
    pose proof (get_serialized_message msg MESSAGE_FIELDS [] data k Hser) as G.
    rewrite Hk in G. simpl in G.
    destruct (hasOwnProperty k msg) eqn:Hh.
    - unfold message_field in G. rewrite Hts in G.
      destruct (String.eqb k "head" || String.eqb k "content");
        injection G as G'; rewrite <- G'; [apply bind_encode|reflexivity].
    - rewrite G, (get_absent _ _ Hh).
      now destruct (String.eqb k "head" || String.eqb k "content"). }
  destruct (message_of_params (addMessage_params data)) as [e|kr] eqn:Hp;
    [discriminate|].
  intros H. inversion H; subst kr; clear H.
  unfold message_of_params, addMessage_params in Hp. simpl in Hp.
  rewrite !bind_undefined_to_null in Hp.
  pose proof (G "topic" eq_refl eq_refl) as Gt.
  pose proof (G "seq" eq_refl eq_refl) as Gs.
  pose proof (G "_status" eq_refl eq_refl) as Gst.
  pose proof (G "from" eq_refl eq_refl) as Gf.
  pose proof (G "head" eq_refl eq_refl) as Gh.
  pose proof (G "content" eq_refl eq_refl) as Gc.
  simpl in Gt, Gs, Gst, Gf, Gh, Gc.
  rewrite Gh, Gc, Gt, Gs, Gst, Gf in Hp.
  destruct (bind_param (get "topic" msg)) as [[| |t0]|] eqn:Bt;
    try discriminate;
    destruct (bind_param (get "seq" msg)) as [[|n0|]|] eqn:Bs;
    try discriminate;
    destruct (bind_param (get "ts" data)) as [ts0|]; try discriminate;
    destruct (bind_param (get "_status" msg)) as [st0|] eqn:Bst;
    try discriminate;
    destruct (bind_param (get "from" msg)) as [fr0|] eqn:Bf;
    try discriminate.
  inversion Hp; subst. simpl.
  apply bind_stored in Bt, Bs, Bst, Bf.
  repeat split; congruence.
Qed.

Lemma serialize_step_resolves msg res f :
  String.eqb f "ts" = false ->
  exists res', serialize_message_field msg (inr res) f = inr res'.
Proof.
  intros Hf. unfold serialize_message_field. rewrite Hf.
  destruct (hasOwnProperty f msg); [|now exists res].
  destruct (String.eqb f "head" || String.eqb f "content"); eauto.
Qed.

(** A message whose timestamp is no invalid Date is serialized. *)
Lemma serializeMessage_resolves msg :
  get "ts" msg <> JInvalidDate ->
  exists data, _serializeMessage None msg = inr data.
Proof.
  intros Hts. unfold _serializeMessage, MESSAGE_FIELDS. cbn [fold_left].
  destruct (serialize_step_resolves msg [] "topic" eq_refl) as (r1 & ->).
  destruct (serialize_step_resolves msg r1 "seq" eq_refl) as (r2 & ->).
  assert (E : exists r3, serialize_message_field msg (inr r2) "ts" = inr r3).
  { unfold serialize_message_field.
    destruct (hasOwnProperty "ts" msg); [|now exists r2].
    cbn [String.eqb Ascii.eqb Bool.eqb orb].
    destruct (get "ts" msg); cbn [is_date Date.toISOString]; eauto.
    congruence. }
  destruct E as (r3 & ->).
  destruct (serialize_step_resolves msg r3 "_status" eq_refl) as (r4 & ->).
  destruct (serialize_step_resolves msg r4 "from" eq_refl) as (r5 & ->).
  destruct (serialize_step_resolves msg r5 "head" eq_refl) as (r6 & ->).
  destruct (serialize_step_resolves msg r6 "content" eq_refl) as (r7 & ->).
  now exists r7.
Qed.

(** What the serialized message holds under each of the message fields,
    present or not. *)
Lemma serialized_field msg data k :
  _serializeMessage None msg = inr data ->
  existsb (String.eqb k) MESSAGE_FIELDS = true ->
  message_field msg k = inr (get k data).
Proof.
  intros Hser Hk. unfold _serializeMessage in Hser.
  pose proof (get_serialized_message msg MESSAGE_FIELDS [] data k Hser) as G.
  rewrite Hk in G. cbn [andb] in G.
  destruct (hasOwnProperty k msg) eqn:Hh; [exact G|].
  rewrite G. unfold message_field. rewrite (get_absent _ _ Hh).
  cbn [get encode is_object is_date].
  destruct (String.eqb k "head" || String.eqb k "content"); [reflexivity|].
  now destruct (String.eqb k "ts").
Qed.

Lemma bind_plain (v : JsVal) :
  plain v = true -> bind_param v = Some (stored v).
Proof. now destruct v. Qed.

(** A message for (topic, seq) is written, under that key, as its
    [message_row]: objects in head and content as their JSON text and a
    Date timestamp as its ISO text. *)
Lemma written_by_message_for (topic : string) (seq : Z) (msg : Obj) :
  message_for topic seq msg = true ->
  written_by msg = Some ((topic, seq), message_row msg).
Proof.
  unfold message_for. intros H.
  destruct (get "topic" msg) as [| | | |t| | | |] eqn:Et; try discriminate.
  destruct (get "seq" msg) as [| | |n| | | | |] eqn:En; try discriminate.
  apply andb_true_iff in H as [H Hts].
  apply andb_true_iff in H as [H Hfrom].
  apply andb_true_iff in H as [H Hst].
  apply andb_true_iff in H as [Ht Hn].
  apply String.eqb_eq in Ht. apply Z.eqb_eq in Hn. subst t n.
  destruct (serializeMessage_resolves msg) as (data & Hser).
  { intros E. rewrite E in Hts. discriminate. }
  unfold written_by. rewrite Hser.
  pose proof (serialized_field msg data "topic" Hser eq_refl) as Gt.
  pose proof (serialized_field msg data "seq" Hser eq_refl) as Gs.
  pose proof (serialized_field msg data "ts" Hser eq_refl) as Gts.
  pose proof (serialized_field msg data "_status" Hser eq_refl) as Gst.
  pose proof (serialized_field msg data "from" Hser eq_refl) as Gf.
  pose proof (serialized_field msg data "head" Hser eq_refl) as Gh.
  pose proof (serialized_field msg data "content" Hser eq_refl) as Gc.
  unfold message_field in Gt, Gs, Gts, Gst, Gf, Gh, Gc.
  cbn [String.eqb Ascii.eqb Bool.eqb orb] in Gt, Gs, Gts, Gst, Gf, Gh, Gc.
  injection Gt as Gt. injection Gs as Gs. injection Gst as Gst.
  injection Gf as Gf. injection Gh as Gh. injection Gc as Gc.
  assert (Bts : bind_param (get "ts" data)
                = Some (MsgRow.ts (message_row msg))).
  { unfold message_row. cbn [MsgRow.ts].
    destruct (get "ts" msg) eqn:E; cbn [is_date Date.toISOString] in Gts;
      try discriminate Hts; injection Gts as Gts; now rewrite <- Gts. }
  unfold message_of_params, addMessage_params. cbn [bind_all].
  rewrite !bind_undefined_to_null.
  rewrite <- Gt, <- Gs, <- Gst, <- Gf, <- Gh, <- Gc, Bts, Et, En.
  rewrite !bind_encode, (bind_plain _ Hst), (bind_plain _ Hfrom).
  reflexivity.
Qed.

Lemma with_messages_insert_twice key row1 row2 d :
  with_messages (insert key row2) (with_messages (insert key row1) d)
  = with_messages (insert key row2) d.
Proof. unfold with_messages. simpl. now rewrite insert_insert_eq. Qed.

Lemma with_messages_insert_same key row d :
  messages d !! key = Some row -> with_messages (insert key row) d = d.
Proof.
  intros H. unfold with_messages. rewrite (insert_id _ _ _ H). now destruct d.
Qed.

(** C3: [addMessage] is insert-or-replace on (topic, seq).  Take two
    messages for the same (topic, seq): any two objects whose [topic] and
    [seq] are that string and that number, with any head and content,
    objects included, and a timestamp that may be a Date.  After the two
    calls the table holds for that key the row of the second message and
    nothing of the first: the database equals the one obtained by adding
    the second message alone, the query by key returns exactly that one
    row, a first row with another content is gone, and all other rows
    are as before.  When the second message has the same row as the
    first, in particular when it is the same message, the second call
    leaves the database as it was.  With no engine failure both calls
    resolve.  The content column of the row is the stored form of the
    second message's content: its JSON text when it is an object. *)
Theorem addMessage_is_idempotent_replace (msg1 msg2 : Obj)
    (topic : string) (seq : Z) (s : Store) :
  isReady s = true ->
  message_for topic seq msg1 = true ->
  message_for topic seq msg2 = true ->
  let row1 := message_row msg1 in
  let row2 := message_row msg2 in
  (forall s1 s2,
     addMessage msg1 s = (inr tt, s1) -> isReady s1 = true ->
     addMessage msg2 s1 = (inr tt, s2) ->
     disk s2 = with_messages (insert (topic, seq) row2) (disk s)
     /\ messages (disk s2) !! (topic, seq) = Some row2
     /\ rows_of (SELECT_messages_WHERE_seq topic seq) (disk s2)
        = [MsgRow.object topic seq row2]
     /\ (forall key, key <> (topic, seq) ->
           messages (disk s2) !! key = messages (disk s) !! key)
     /\ (stored (get "content" msg1) <> stored (get "content" msg2) ->
         messages (disk s2) !! (topic, seq) <> Some row1)
     /\ (row2 = row1 -> disk s2 = disk s1)
     /\ (msg2 = msg1 -> disk s2 = disk s1))
  /\ (calm s = true ->
      exists s1 s2, addMessage msg1 s = (inr tt, s1) /\ isReady s1 = true
                    /\ addMessage msg2 s1 = (inr tt, s2))
  /\ MsgRow.content row2 = stored (get "content" msg2)
  /\ (forall text,
        is_object (get "content" msg2) = true ->
        JSON.serialize (get "content" msg2) = Some text ->
        MsgRow.content row2 = SqlText text).
Proof.
  intros Hr F1 F2 row1 row2.
  pose proof (written_by_message_for topic seq msg1 F1) as W1.
  pose proof (written_by_message_for topic seq msg2 F2) as W2.
  fold row1 in W1. fold row2 in W2.
  split; [|split; [|split]].
  3: { reflexivity. }
  3: { intros text Ho Ht. unfold row2, message_row. cbn [MsgRow.content].
       destruct (get "content" msg2); try discriminate Ho;
         cbn [stored]; now rewrite Ht. }
  - intros s1 s2 H1 Hr1 H2.
    apply addMessage_resolved in H1 as (k1 & r1 & E1 & D1); [|exact Hr].
    apply addMessage_resolved in H2 as (k2 & r2 & E2 & D2); [|exact Hr1].
    rewrite W1 in E1. rewrite W2 in E2. inversion E1; inversion E2; subst.
    rewrite D2, D1, with_messages_insert_twice.
    split; [reflexivity|]. split; [apply lookup_insert_eq|].
    split; [|split; [|split; [|split]]].
    + unfold rows_of. simpl. now rewrite lookup_insert_eq.
    + intros key Hne. simpl. now rewrite lookup_insert_ne.
    + intros Hne. cbn [messages with_messages]. rewrite lookup_insert_eq.
      intros E. apply Hne.
      apply (f_equal (option_map MsgRow.content)) in E.
      unfold row1, row2, message_row in E.
      cbn [option_map MsgRow.content] in E. congruence.
    + now intros ->.
    + intros ->. reflexivity.
  - intros Hc.
    destruct (addMessage_steady msg1 _ _ s (conj Hr Hc) W1) as (s1 & E1 & S1 & _).
    destruct (addMessage_steady msg2 _ _ s1 S1 W2) as (s2 & E2 & _).
    exists s1, s2. split; [exact E1|]. split; [apply S1|exact E2].
Qed.

(** ** Upserting a topic *)

Lemma get_copy_encoded (o dst : Obj) (k : string) :
  get k (fold_left
           (fun res f =>
              if hasOwnProperty f o then
                if is_object (get f o)
                then set f (JSON.stringify (get f o)) res
                else set f (get f o) res
              else res)
           TOPIC_FIELDS dst)
  = if existsb (String.eqb k) TOPIC_FIELDS && hasOwnProperty k o
    then encode (get k o) else get k dst.
Proof.
  rewrite (fold_left_ext_in _
    (fun res f =>
       if hasOwnProperty f o then set f (encode (get f o)) res else res)).
  - apply (get_copy_fields encode o TOPIC_FIELDS dst k).
  - intros acc f _. unfold encode.
    destruct (hasOwnProperty f o); [|reflexivity].
    now destruct (is_object (get f o)).
Qed.

Lemma get_deleted_step (res : Obj) (k : string) :
  get k (if is_boolean (get "_deleted" res)
         then set "_deleted"
                (JNum (if truthy (get "_deleted" res) then 1 else 0)) res
         else res)
  = if String.eqb k "_deleted" && is_boolean (get k res)
    then JNum (if truthy (get k res) then 1 else 0)
    else get k res.
Proof.
  destruct (String.eqb_spec k "_deleted") as [->|Hne]; cbn [andb].
  - destruct (is_boolean (get "_deleted" res)); [|reflexivity].
    now rewrite get_set, String.eqb_refl.
  - destruct (is_boolean (get "_deleted" res)); [|reflexivity].
    rewrite get_set. now destruct (String.eqb_spec k "_deleted").
Qed.

Lemma get_conditional_set (cond : bool) (k' : string) (v : JsVal) (res : Obj)
    (k : string) :
  get k (if cond then set k' v res else res)
  = if cond && String.eqb k k' then v else get k res.
Proof. destruct cond; [apply get_set|reflexivity]. Qed.

(** [_serializeTopic] read at one property. *)
Lemma get_serializeTopic (dst : Obj) (topic : TopicArg) (k : string) :
  get k (_serializeTopic (Some dst) topic) =
    if truthy (get "acs" (own topic)) && String.eqb k "acs" then
      JSON.stringify (match getAccessMode topic with
                      | Some json => json
                      | None => get "acs" (own topic)
                      end)
    else if isArray (get "_tags" (own topic)) && String.eqb k "tags" then
      JSON.stringify (get "_tags" (own topic))
    else if String.eqb k "_deleted"
            && is_boolean
                 (if existsb (String.eqb k) TOPIC_FIELDS
                     && hasOwnProperty k (own topic)
                  then encode (get k (own topic)) else get k dst)
    then
      JNum (if truthy
                 (if existsb (String.eqb k) TOPIC_FIELDS
                     && hasOwnProperty k (own topic)
                  then encode (get k (own topic)) else get k dst)
            then 1 else 0)
    else if existsb (String.eqb k) TOPIC_FIELDS && hasOwnProperty k (own topic)
         then encode (get k (own topic)) else get k dst.
Proof.
  unfold _serializeTopic.
  rewrite get_conditional_set, get_conditional_set, get_deleted_step.
  now rewrite get_copy_encoded.
Qed.

Lemma bind_stringify (v : JsVal) :
  bind_param (JSON.stringify v) = Some (stored_json v).
Proof.
  unfold JSON.stringify, stored_json. now destruct (JSON.serialize v).
Qed.

Lemma stored_json_array (v : JsVal) : isArray v = true -> stored_json v = stored v.
Proof. destruct v; try discriminate. reflexivity. Qed.

(** A column that is copied from the incoming topic or kept from the
    row. *)
Lemma bind_copied (o : Obj) (k : string) (old : SqlVal) :
  bind_param
    (if String.eqb k "_deleted"
        && is_boolean (if hasOwnProperty k o then encode (get k o)
                       else to_js old)
     then JNum (if truthy (if hasOwnProperty k o then encode (get k o)
                           else to_js old) then 1 else 0)
     else if hasOwnProperty k o then encode (get k o) else to_js old)
  = Some (patched o k old).
Proof.
  unfold patched.
  destruct (hasOwnProperty k o).
  - destruct (String.eqb k "_deleted"); simpl.
    + destruct (get k o) as [| |[|]| | | | | |]; reflexivity.
    + apply bind_encode.
  - destruct (String.eqb k "_deleted"); simpl.
    + destruct old; reflexivity.
    + apply bind_to_js.
Qed.

Lemma not_in_fields (k : string) :
  existsb (String.eqb k) TOPIC_FIELDS = true ->
  String.eqb k "acs" = false /\ String.eqb k "tags" = false.
Proof.
  intros H. apply existsb_exists in H as (f & Hin & Hf).
  apply String.eqb_eq in Hf. subst f.
  unfold TOPIC_FIELDS in Hin. simpl in Hin.
  repeat (destruct Hin as [<-|Hin]; [split; reflexivity|]). destruct Hin.
Qed.

(** The parameter bound for a column that is one of [TOPIC_FIELDS]. *)
Lemma bind_field (dst : Obj) (topic : TopicArg) (k : string) (old : SqlVal) :
  existsb (String.eqb k) TOPIC_FIELDS = true ->
  get k dst = to_js old ->
  bind_param (get k (_serializeTopic (Some dst) topic))
  = Some (patched (own topic) k old).
Proof.
  intros Hk Hold. rewrite get_serializeTopic.
  destruct (not_in_fields k Hk) as [Ha Ht]. rewrite Ha, Ht, Hk, Hold.
  rewrite !andb_false_r. cbn [andb].
  apply (bind_copied (own topic) k old).
Qed.

Lemma bind_tags (dst : Obj) (topic : TopicArg) (old : SqlVal) :
  get "tags" dst = to_js old ->
  bind_param (get "tags" (_serializeTopic (Some dst) topic))
  = Some (if isArray (get "_tags" (own topic))
          then stored_json (get "_tags" (own topic)) else old).
Proof.
  intros Hold. rewrite get_serializeTopic.
  change (String.eqb "tags" "acs") with false.
  change (String.eqb "tags" "tags") with true.
  change (String.eqb "tags" "_deleted") with false.
  change (existsb (String.eqb "tags") TOPIC_FIELDS) with false.
  rewrite !andb_false_r, !andb_true_r. cbn [andb]. rewrite Hold.
  destruct (isArray (get "_tags" (own topic)));
    [apply bind_stringify|apply bind_to_js].
Qed.

Lemma bind_acs (dst : Obj) (topic : TopicArg) (old : SqlVal) :
  get "acs" dst = to_js old ->
  bind_param (get "acs" (_serializeTopic (Some dst) topic))
  = Some (if truthy (get "acs" (own topic))
          then stored_json (match getAccessMode topic with
                            | Some json => json
                            | None => get "acs" (own topic)
                            end)
          else old).
Proof.
  intros Hold. rewrite get_serializeTopic.
  change (String.eqb "acs" "acs") with true.
  change (String.eqb "acs" "tags") with false.
  change (String.eqb "acs" "_deleted") with false.
  change (existsb (String.eqb "acs") TOPIC_FIELDS) with false.
  rewrite !andb_false_r, !andb_true_r. cbn [andb]. rewrite Hold.
  destruct (truthy (get "acs" (own topic)));
    [apply bind_stringify|apply bind_to_js].
Qed.

Lemma get_name_serialized (dst : Obj) (topic : TopicArg) :
  get "name" (_serializeTopic (Some dst) topic) = get "name" dst.
Proof.
  rewrite get_serializeTopic.
  change (String.eqb "name" "acs") with false.
  change (String.eqb "name" "tags") with false.
  change (String.eqb "name" "_deleted") with false.
  change (existsb (String.eqb "name") TOPIC_FIELDS) with false.
  now rewrite !andb_false_r.
Qed.

Lemma topic_params_patch (name : string) (old : TopicRow.t) (topic : TopicArg) :
  topic_of_params
    (updTopic_params (_serializeTopic (Some (TopicRow.object name old)) topic))
  = inr (name, patch old topic).
Proof.
  unfold topic_of_params, updTopic_params.
  set (dst := TopicRow.object name old).
  cbn [bind_all].
  rewrite get_name_serialized.
  rewrite (bind_field dst topic "created" (TopicRow.created old) eq_refl eq_refl).
  rewrite (bind_field dst topic "updated" (TopicRow.updated old) eq_refl eq_refl).
  rewrite (bind_field dst topic "deleted" (TopicRow.deleted old) eq_refl eq_refl).
  rewrite (bind_field dst topic "touched" (TopicRow.touched old) eq_refl eq_refl).
  rewrite (bind_field dst topic "read" (TopicRow.read old) eq_refl eq_refl).
  rewrite (bind_field dst topic "recv" (TopicRow.recv old) eq_refl eq_refl).
  rewrite (bind_field dst topic "seq" (TopicRow.seq old) eq_refl eq_refl).
  rewrite (bind_field dst topic "clear" (TopicRow.clear old) eq_refl eq_refl).
  rewrite (bind_field dst topic "defacs" (TopicRow.defacs old) eq_refl eq_refl).
  rewrite (bind_field dst topic "creds" (TopicRow.creds old) eq_refl eq_refl).
  rewrite (bind_field dst topic "public" (TopicRow.public old) eq_refl eq_refl).
  rewrite (bind_field dst topic "trusted" (TopicRow.trusted old) eq_refl eq_refl).
  rewrite (bind_field dst topic "private" (TopicRow.private old) eq_refl eq_refl).
  rewrite (bind_field dst topic "_aux" (TopicRow._aux old) eq_refl eq_refl).
  rewrite (bind_field dst topic "_deleted" (TopicRow._deleted old) eq_refl eq_refl).
  rewrite (bind_tags dst topic (TopicRow.tags old) eq_refl).
  rewrite (bind_acs dst topic (TopicRow.acs old) eq_refl).
  reflexivity.
Qed.

Lemma updTopic_body_computes (topic : TopicArg) :
  computes (updTopic_body topic)
    (fun d _ d' =>
       exists name row,
         topic_of_params
           (updTopic_params
              (_serializeTopic
                 (head (rows_of (SELECT_topics_WHERE_name
                                   (get "name" (own topic))) d))
                 topic))
         = inr (name, row)
         /\ d' = with_topics (insert name row) d)
  /\ atomic (updTopic_body topic).
Proof.
  pose proof (read_only_schema
                (SELECT_topics_WHERE_name (get "name" (own topic)))) as Hro.
  cbv beta iota in Hro.
  split.
  - intros s [] s' H. unfold updTopic_body in H.
    apply and_then_inr in H as (existing & s1 & H1 & H).
    unfold getFirstAsync in H1.
    apply and_then_inr in H1 as (rows & s0 & H0 & H1).
    apply (computes_query _ Hro) in H0 as [-> E0].
    inversion H1; subst; clear H1. cbv zeta in H.
    apply runAsync_inr in H as (rows' & H). rewrite E0 in H. simpl in H.
    destruct (topic_of_params _) as [e|[name row]]; [discriminate|].
    exists name, row. split; [reflexivity|]. now inversion H.
  - unfold updTopic_body. apply atomic_and_then.
    + unfold getFirstAsync. apply preserves_and_then.
      * apply (preserves_read disk engine_frame_disk _ Hro).
      * intros rows. apply preserves_resolve.
    + intros existing. apply atomic_runAsync.
Qed.

Lemma select_existing_topic (name : string) (old : TopicRow.t) (d : Database) :
  topics d !! name = Some old ->
  rows_of (SELECT_topics_WHERE_name (JStr name)) d = [TopicRow.object name old].
Proof. intros H. unfold rows_of. simpl. now rewrite H. Qed.

(** Where the code's merge and the specification's agree. *)
Lemma patch_meets_specification (old : TopicRow.t) (topic : TopicArg) :
  (hasOwnProperty "_tags" (own topic) = true ->
   isArray (get "_tags" (own topic)) = true) ->
  (hasOwnProperty "acs" (own topic) = true ->
   is_object (get "acs" (own topic)) = true /\ getAccessMode topic = None) ->
  patch old topic = patch_as_specified old topic.
Proof.
  intros Htags Hacs. unfold patch, patch_as_specified. cbv zeta.
  cbn [field_of column]. f_equal.
  - unfold patched.
    destruct (hasOwnProperty "_tags" (own topic)) eqn:Hp.
    + rewrite (Htags eq_refl).
      now destruct (get "_tags" (own topic)); try discriminate (Htags eq_refl).
    + now rewrite (get_absent _ _ Hp).
  - unfold patched.
    destruct (hasOwnProperty "acs" (own topic)) eqn:Hp.
    + destruct (Hacs eq_refl) as [Ho ->].
      now destruct (get "acs" (own topic)); try discriminate Ho.
    + now rewrite (get_absent _ _ Hp).
Qed.

(** C1, as the code has it: upserting a topic whose row exists merges
    into that row.  When [updTopic] resolves, the row stored under the
    topic's name is [patch] of the old row and the incoming topic, and
    nothing else in the database changes; with no engine failure
    [updTopic] resolves.  In the merged row every column whose field is
    absent from the incoming topic keeps its old value, and every column
    of [TOPIC_FIELDS] whose field is present holds the stored form of the
    incoming value.  The tag column is overwritten, with the JSON text of
    [_tags], exactly when the incoming [_tags] is an array, and the
    access column, with the JSON text of the access mode, exactly when
    the incoming [acs] is truthy; a present [_tags] that is no array and
    a present [acs] that is falsy leave the old value.  The merged row
    is the one the specification describes whenever [_tags], if present,
    is an array and [acs], if present, is an object of a topic without
    [getAccessMode]. *)
Theorem updTopic_has_patch_semantics (topic : TopicArg) (name : string)
    (old : TopicRow.t) (s : Store) :
  isReady s = true ->
  get "name" (own topic) = JStr name ->
  truthy (get "_new" (own topic)) = false ->
  topics (disk s) !! name = Some old ->
  (forall s', updTopic topic s = (inr tt, s') ->
     disk s' = with_topics (insert name (patch old topic)) (disk s))
  /\ (calm s = true -> exists s', updTopic topic s = (inr tt, s'))
  /\ (forall c, hasOwnProperty (field_of c) (own topic) = false ->
        column c (patch old topic) = column c old)
  /\ (forall c, c <> Tags -> c <> Acs ->
        hasOwnProperty (field_of c) (own topic) = true ->
        column c (patch old topic) = stored (get (field_of c) (own topic)))
  /\ column Tags (patch old topic)
     = (if isArray (get "_tags" (own topic))
        then stored_json (get "_tags" (own topic))
        else column Tags old)
  /\ column Acs (patch old topic)
     = (if truthy (get "acs" (own topic))
        then stored_json (match getAccessMode topic with
                          | Some json => json
                          | None => get "acs" (own topic)
                          end)
        else column Acs old)
  /\ ((hasOwnProperty "_tags" (own topic) = true ->
       isArray (get "_tags" (own topic)) = true) ->
      (hasOwnProperty "acs" (own topic) = true ->
       is_object (get "acs" (own topic)) = true
       /\ getAccessMode topic = None) ->
      patch old topic = patch_as_specified old topic).
Proof.
  intros Hr Hname Hnew Hold.
  assert (Hp : topic_of_params
             (updTopic_params
                (_serializeTopic
                   (head (rows_of (SELECT_topics_WHERE_name
                                     (get "name" (own topic))) (disk s)))
                   topic))
           = inr (name, patch old topic)).
  { rewrite Hname, (select_existing_topic name old _ Hold). simpl head.
    apply topic_params_patch. }
  split; [|split; [|split; [|split; [|split; [|split]]]]].
  - intros s' H. unfold updTopic in H. rewrite Hnew in H.
    fold (updTopic_body topic) in H.
    destruct (updTopic_body_computes topic) as [Hc Ha].
    apply (computes_guarded tt _ _ s tt s' Hc Ha Hr) in H
      as (name' & row & E & ->).
    rewrite Hp in E. now inversion E.
  - intros Hc. unfold updTopic. rewrite Hnew.
    assert (Hs : steady (count_attempt s)) by (split; assumption).
    destruct (statement_steady
                (SELECT_topics_WHERE_name (get "name" (own topic)))
                (count_attempt s) Hs) as (s1 & Hs1 & _ & Hrun).
    pose proof (read_only_schema
                  (SELECT_topics_WHERE_name (get "name" (own topic)))
                  (disk (count_attempt s))) as Hro.
    destruct (exec (SELECT_topics_WHERE_name (get "name" (own topic)))
                (disk (count_attempt s))) as [e|[rows d]] eqn:Hex.
    { rewrite Hname in Hex. simpl in Hex.
      destruct (topics (disk s) !! name); discriminate. }
    destruct Hrun as [Hrun Hd]. simpl disk in Hro, Hex.
    rewrite Hro in Hd. clear Hro.
    assert (Hrows : rows = rows_of (SELECT_topics_WHERE_name
                                      (get "name" (own topic))) (disk s)).
    { unfold rows_of. now rewrite Hex. }
    clear Hex. subst rows.
    destruct (statement_steady
                (INSERT_OR_REPLACE_INTO_topics
                   (updTopic_params
                      (_serializeTopic
                         (head (rows_of (SELECT_topics_WHERE_name
                                           (get "name" (own topic))) (disk s)))
                         topic)))
                s1 Hs1) as (s2 & Hs2 & _ & Hins).
    cbn [exec] in Hins. rewrite Hp in Hins.
    destruct Hins as [Hins _].
    exists s2. apply guarded_resolved; [exact Hr|].
    unfold getFirstAsync, runAsync, and_then. rewrite Hrun.
    unfold resolve. cbv zeta. now rewrite Hins.
  - intros c Habs. pose proof (get_absent _ _ Habs) as Hg.
    destruct c; simpl in *; unfold patched; rewrite ?Habs, ?Hg; reflexivity.
  - intros c Ht Ha Hpres.
    destruct c; try congruence; simpl in *; unfold patched;
      now rewrite Hpres.
  - reflexivity.
  - reflexivity.
  - intros Htags Hacs. apply patch_meets_specification; assumption.
Qed.

(** C1 as stated fails for the tag and access columns: [acs] and [_tags]
    are present on the incoming topic, with the value null, yet the
    stored row keeps its old access mode and tags, where the patch of the
    specification has NULL.  A null [public] in the same call does
    overwrite. *)
Lemma present_null_acs_and_tags_are_kept :
  let incoming :=
    mkTopicArg [ ("name", JStr "grp1"); ("acs", JNull); ("_tags", JNull);
                 ("public", JNull) ] None in
  let after := disk (snd (updTopic incoming (ready_store sample_tagged))) in
  hasOwnProperty "acs" (own incoming) = true
  /\ hasOwnProperty "_tags" (own incoming) = true
  /\ fst (updTopic incoming (ready_store sample_tagged)) = inr tt
  /\ option_map (column Acs) (topics after !! "grp1") = Some (SqlText "{}")
  /\ option_map (column Tags) (topics after !! "grp1")
     = Some (SqlText "[1,2]")
  /\ option_map (column Public) (topics after !! "grp1") = Some SqlNull
  /\ column Acs (patch_as_specified sample_tagged_row incoming) = SqlNull
  /\ column Tags (patch_as_specified sample_tagged_row incoming) = SqlNull
  /\ topics after !! "grp1"
     <> Some (patch_as_specified sample_tagged_row incoming).
Proof.
  repeat split; try (vm_compute; reflexivity).
  vm_compute. discriminate.
Qed.

(** ** Range scans over the messages of a topic *)

Lemma is_query_read_only st : is_query st -> read_only st.
Proof. intros H d. now rewrite H. Qed.

Lemma range_statement_is_query topicName range :
  is_query (range_statement topicName range).
Proof.
  intros d. unfold rows_of, range_statement.
  destruct (hi range) as [h|]; [destruct (Z.eqb h 0)|]; simpl;
    try reflexivity;
    now destruct (messages d !! (topicName, low range)).
Qed.

Lemma scan_statement_is_query topicName query :
  is_query (scan_statement topicName query).
Proof. intros d. reflexivity. Qed.

#[local] Instance seq_desc_total : Total seq_desc.
Proof. intros a b. unfold seq_desc. lia. Qed.

#[local] Instance seq_desc_transitive : Transitive seq_desc.
Proof. intros a b c. unfold seq_desc. lia. Qed.

#[local] Instance clear_desc_total : Total clear_desc.
Proof. intros a b. unfold clear_desc. lia. Qed.

#[local] Instance clear_desc_transitive : Transitive clear_desc.
Proof. intros a b c. unfold clear_desc. lia. Qed.

(** The rows of a scan are exactly the stored messages of the topic with
    [lo <= seq < hi]. *)
Lemma select_messages_elem topic lo hi d kv :
  kv ∈ select_messages topic lo hi d
  <-> messages d !! fst kv = Some (snd kv)
      /\ fst (fst kv) = topic /\ lo <= snd (fst kv) < hi.
Proof.
  unfold select_messages. rewrite merge_sort_Permutation.
  rewrite list_elem_of_In, filter_In, <- list_elem_of_In.
  destruct kv as [[t n] r]. rewrite elem_of_map_to_list.
  unfold msg_in_range. simpl.
  rewrite !andb_true_iff, String.eqb_eq, Z.leb_le, Z.ltb_lt. tauto.
Qed.

Lemma strongly_sorted_strict (l : list ((string * Z) * MsgRow.t)) :
  StronglySorted seq_desc l -> NoDup (List.map (fun kv => snd (fst kv)) l) ->
  StronglySorted newer_first l.
Proof.
  induction 1 as [|x l Hs IH Hx]; intros Hnd; constructor.
  - apply IH. now inversion Hnd.
  - inversion Hnd as [|? ? Hnotin Hnd']; subst.
    rewrite Forall_forall in *. intros y Hy.
    specialize (Hx y Hy). unfold seq_desc in Hx. unfold newer_first.
    assert (snd (fst y) <> snd (fst x)).
    { intros E. apply Hnotin. rewrite <- E.
      apply list_elem_of_In.
      apply (in_map (fun kv : (string * Z) * MsgRow.t => snd (fst kv))).
      now apply list_elem_of_In. }
    lia.
Qed.

Lemma select_messages_sorted topic lo hi d :
  StronglySorted newer_first (select_messages topic lo hi d).
Proof.
  apply strongly_sorted_strict.
  - apply StronglySorted_merge_sort; apply _.
  - unfold select_messages.
    assert (Hnd : NoDup (List.map (fun kv : (string * Z) * MsgRow.t => snd (fst kv))
                     (List.filter (msg_in_range topic lo hi)
                        (map_to_list (messages d))))).
    { pose proof (NoDup_fst_map_to_list (messages d)) as Hk.
      induction (map_to_list (messages d)) as [|[[t n] r] l IH]; simpl.
      - constructor.
      - inversion Hk as [|? ? Hnotin Hk']; subst.
        destruct (msg_in_range topic lo hi (t, n, r)) eqn:Hin; [|now apply IH].
        simpl. constructor; [|now apply IH].
        intros Hn. apply Hnotin.
        apply list_elem_of_In, in_map_iff in Hn as ([[t' n'] r'] & En & Hin').
        apply filter_In in Hin' as [Hin' Hm]. simpl in En. subst n'.
        unfold msg_in_range in Hin, Hm. simpl in Hin, Hm.
        apply andb_true_iff in Hin as [Hin _], Hm as [Hm _].
        apply andb_true_iff in Hin as [Hin _], Hm as [Hm _].
        apply String.eqb_eq in Hin, Hm. subst t t'.
        apply list_elem_of_In. apply (in_map fst) in Hin'. exact Hin'. }
    assert (P : List.map (fun kv : (string * Z) * MsgRow.t => snd (fst kv))
                  (merge_sort seq_desc
                     (List.filter (msg_in_range topic lo hi)
                        (map_to_list (messages d))))
                ≡ₚ List.map (fun kv : (string * Z) * MsgRow.t => snd (fst kv))
                     (List.filter (msg_in_range topic lo hi)
                        (map_to_list (messages d))))
      by apply Permutation_map, merge_sort_Permutation.
    now rewrite P.
Qed.

(** Taking the first [n] of a list that is most-recent-first keeps the
    [n] most recent. *)
Lemma take_keeps_most_recent (n : nat) (l : list ((string * Z) * MsgRow.t)) :
  StronglySorted newer_first l ->
  StronglySorted newer_first (take n l)
  /\ length (take n l) = Nat.min n (length l)
  /\ (forall x, x ∈ take n l -> x ∈ l)
  /\ (forall x y, x ∈ take n l -> y ∈ l -> y ∉ take n l -> newer_first x y).
Proof.
  intros Hs. rewrite <- (take_drop n l) in Hs at 1.
  split; [now apply StronglySorted_app_1_l in Hs|].
  split; [apply length_take|].
  split.
  - intros x Hx. rewrite <- (take_drop n l). apply elem_of_app. now left.
  - intros x y Hx Hy Hny. rewrite <- (take_drop n l) in Hy.
    apply elem_of_app in Hy as [Hy|Hy]; [contradiction|].
    now apply (StronglySorted_app_1_elem_of _ _ _ x y Hs).
Qed.

Lemma load_message_seq kv : get "seq" (load_message kv) = JNum (snd (fst kv)).
Proof.
  unfold load_message, _deserializeMessageRow. rewrite !get_set_if.
  simpl. now rewrite !andb_false_r.
Qed.

Lemma load_message_topic kv : get "topic" (load_message kv) = JStr (fst (fst kv)).
Proof.
  unfold load_message, _deserializeMessageRow. rewrite !get_set_if.
  simpl. now rewrite !andb_false_r.
Qed.

Lemma scan_rows topic lo hi limit d :
  List.map _deserializeMessageRow
    (rows_of (SELECT_messages_WHERE_range topic lo hi limit) d)
  = List.map load_message (limit_rows limit (select_messages topic lo hi d)).
Proof. unfold rows_of. simpl. now rewrite map_map. Qed.

(** A query, then the callback, in a steady store. *)
Lemma reads_query_steady {A} st (g : list Obj -> A)
    (args : list Obj -> list JsVal) (callback : bool) s :
  steady s -> is_query st ->
  exists s',
    (await rows := getAllAsync st in
     run call_back callback (args rows) in
     resolve (g rows)) s = (inr (g (rows_of st (disk s))), s')
    /\ steady s' /\ disk s' = disk s
    /\ delivered s'
       = (delivered s ++ if callback then args (rows_of st (disk s)) else [])%list.
Proof.
  intros Hs Hq. destruct (statement_steady st s Hs) as (s1 & Hs1 & Hd1 & Hrun).
  rewrite Hq in Hrun. destruct Hrun as [Hrun Hdisk].
  destruct (call_back_run callback (args (rows_of st (disk s))) s1)
    as (s2 & Hcb & Hd2 & Hr2 & Hc2 & Hdel).
  exists s2. unfold getAllAsync, and_then. rewrite Hrun, Hcb.
  split; [reflexivity|]. split; [|split].
  - destruct Hs1 as [R C]. split; congruence.
  - congruence.
  - now rewrite Hdel, Hd1.
Qed.

Lemma scan_result topicName query d :
  ranges query = None ->
  readMessages_result topicName (Some query) d
  = List.map load_message (scan_returned topicName query d).
Proof.
  intros Hr. unfold readMessages_result. rewrite Hr.
  unfold scan_statement. rewrite scan_rows.
  unfold scan_returned, scan_matching, limit_rows.
  destruct (Z.ltb_spec 0 (int32_of (limit query))) as [Hpos|Hneg];
    [|reflexivity].
  destruct (Z.ltb_spec (int32_of (limit query)) 0); [lia|reflexivity].
Qed.

Lemma readMessages_scan_steady topicName query callback s :
  steady s -> ranges query = None ->
  exists s',
    readMessages topicName (Some query) callback s
    = (inr (List.map load_message (scan_returned topicName query (disk s))), s')
    /\ delivered s'
       = (delivered s ++
          if callback
          then List.map JObj
                 (List.map load_message (scan_returned topicName query (disk s)))
          else [])%list.
Proof.
  intros Hs Hr. unfold readMessages. rewrite Hr.
  destruct (reads_query_steady (scan_statement topicName query)
              (List.map _deserializeMessageRow)
              (fun rows => List.map JObj (List.map _deserializeMessageRow rows))
              callback (count_attempt s) (steady_count_attempt s Hs)
              (scan_statement_is_query topicName query))
    as (s' & Hrun & _ & _ & Hdel).
  exists s'. simpl disk in *. simpl delivered in Hdel.
  pose proof (scan_result topicName query (disk s) Hr) as E.
  unfold readMessages_result in E. rewrite Hr in E. rewrite E in Hrun, Hdel.
  split; [|exact Hdel].
  apply guarded_resolved; [apply Hs|exact Hrun].
Qed.

(** C10, as the code has it: in the single bounded scan the limit is
    first reduced to a signed 32-bit integer [L = limit | 0].  The scan
    matches the stored messages of the topic with [since <= seq < before],
    where a missing or non-positive [since] is 0 and a missing or
    non-positive [before] is 2^53 - 1.  When [L > 0] the call returns the
    [L] matching messages with the highest sequence numbers (all of them
    when fewer match), most recent first; when [L <= 0] it returns all
    matching messages, most recent first.  [L] is the limit itself for a
    limit within the signed 32-bit range, and 0 for an absent limit. *)
Theorem scan_returns_most_recent (topicName : string) (query : Query)
    (callback : bool) (s : Store) :
  ranges query = None -> isReady s = true ->
  let L := int32_of (limit query) in
  let matching := scan_matching topicName query (disk s) in
  let returned := scan_returned topicName query (disk s) in
  (forall rows s',
     readMessages topicName (Some query) callback s = (inr rows, s') ->
     rows = List.map load_message returned)
  /\ (calm s = true ->
      exists s', readMessages topicName (Some query) callback s
                 = (inr (List.map load_message returned), s'))
  /\ (forall kv, kv ∈ matching <->
        messages (disk s) !! fst kv = Some (snd kv)
        /\ fst (fst kv) = topicName
        /\ positive_or (since query) 0 <= snd (fst kv)
           < positive_or (before query) MAX_SAFE_INTEGER)
  /\ StronglySorted newer_first returned
  /\ (forall x, x ∈ returned -> x ∈ matching)
  /\ (forall x y, x ∈ returned -> y ∈ matching -> y ∉ returned ->
        newer_first x y)
  /\ (0 < L -> length returned = Nat.min (Z.to_nat L) (length matching))
  /\ (L <= 0 -> returned = matching)
  /\ (limit query = None -> L = 0)
  /\ (forall n, limit query = Some n -> int32_range n -> L = n).
Proof.
  intros Hr Hready L matching returned.
  pose proof (select_messages_sorted topicName (positive_or (since query) 0)
                (positive_or (before query) MAX_SAFE_INTEGER) (disk s)) as Hsorted.
  fold (scan_matching topicName query (disk s)) in Hsorted. fold matching in Hsorted.
  destruct (take_keeps_most_recent (Z.to_nat L) matching Hsorted)
    as (T1 & T2 & T3 & T4).
  split; [|split; [|split; [|split; [|split; [|split; [|split; [|split; [|split]]]]]]]].
  - intros rows s' H.
    apply readMessages_reads in H as [_ [->|[Hn _]]]; [|congruence].
    now apply scan_result.
  - intros Hc.
    destruct (readMessages_scan_steady topicName query callback s
                (conj Hready Hc) Hr) as (s' & H & _).
    now exists s'.
  - intros kv. apply select_messages_elem.
  - unfold returned, scan_returned. fold L. fold matching.
    now destruct (Z.ltb 0 L).
  - unfold returned, scan_returned. fold L. fold matching.
    destruct (Z.ltb 0 L); [exact T3|trivial].
  - unfold returned, scan_returned. fold L. fold matching.
    destruct (Z.ltb 0 L); [exact T4|]. intros x y _ Hy Hny. contradiction.
  - intros Hpos. unfold returned, scan_returned. fold L. fold matching.
    destruct (Z.ltb_spec 0 L); [exact T2|lia].
  - intros Hneg. unfold returned, scan_returned. fold L. fold matching.
    destruct (Z.ltb_spec 0 L); [lia|reflexivity].
  - intros Hl. unfold L. now rewrite Hl.
  - intros n Hl Hn. unfold L. rewrite Hl. simpl. now apply ToInt32_id.
Qed.

Lemma scan_returns_most_recent_witness :
  exists s',
    readMessages "grp1" (Some (mkQuery None None (Some 2) None)) false
      (ready_store sample_database)
    = (inr (List.map load_message
              (scan_returned "grp1" (mkQuery None None (Some 2) None)
                 sample_database)), s').
Proof.
  refine (proj1 (proj2 (scan_returns_most_recent "grp1"
            (mkQuery None None (Some 2) None) false
            (ready_store sample_database) _ _)) _); reflexivity.
Defined.

(** C10 as stated fails for a limit beyond 32 bits: with the positive
    limit 2^32 + 1, which exceeds the three matching messages, the claim
    asks for all three; the scan returns only the most recent one. *)
Lemma scan_limit_wraps_at_32_bits :
  let query := mkQuery None None (Some 4294967297) None in
  let matching := scan_matching "grp1" query sample_database in
  (Z.of_nat (length matching) = 3 /\ 3 <= 4294967297)
  /\ fst (readMessages "grp1" (Some query) false (ready_store sample_database))
     = inr [load_message (("grp1", 7), sample_row "{}")]
  /\ fst (readMessages "grp1" (Some query) false (ready_store sample_database))
     <> inr (List.map load_message matching).
Proof.
  split; [split; [vm_compute; reflexivity|lia]|].
  split; [vm_compute; reflexivity|vm_compute; discriminate].
Qed.

(** ** Reading explicit ranges *)

Lemma range_group_rows topicName d range :
  range_group topicName d range
  = List.map load_message (range_rows topicName d range).
Proof.
  unfold range_group, range_rows, range_statement, rows_of.
  destruct (hi range) as [h|]; [destruct (Z.eqb h 0)|]; simpl;
    try (destruct (messages d !! (topicName, low range)); reflexivity).
  now rewrite map_map.
Qed.

Lemma single_row_spec topicName d n kv :
  kv ∈ match messages d !! (topicName, n) with
       | Some r => [((topicName, n), r)]
       | None => []
       end
  <-> messages d !! fst kv = Some (snd kv)
      /\ fst (fst kv) = topicName /\ snd (fst kv) = n.
Proof.
  destruct kv as [[t m] r]. simpl.
  destruct (messages d !! (topicName, n)) as [r0|] eqn:E.
  - rewrite list_elem_of_singleton. split.
    + intros H. inversion H; subst. auto.
    + intros (H & -> & ->). congruence.
  - split; [intros H; inversion H|].
    intros (H & -> & ->). congruence.
Qed.

Lemma single_row_sorted topicName d n :
  StronglySorted newer_first
    match messages d !! (topicName, n) with
    | Some r => [((topicName, n), r)]
    | None => []
    end.
Proof. destruct (messages d !! (topicName, n)); repeat constructor. Qed.

(** One group: exactly the stored messages of the topic that the range
    matches, most recent first. *)
Lemma range_rows_spec topicName d range :
  StronglySorted newer_first (range_rows topicName d range)
  /\ forall kv, kv ∈ range_rows topicName d range
       <-> messages d !! fst kv = Some (snd kv)
           /\ fst (fst kv) = topicName /\ matches_range range (snd (fst kv)).
Proof.
  unfold range_rows, matches_range.
  destruct (hi range) as [h|]; [destruct (Z.eqb h 0)|].
  - split; [apply single_row_sorted|apply single_row_spec].
  - split; [apply select_messages_sorted|apply select_messages_elem].
  - split; [apply single_row_sorted|apply single_row_spec].
Qed.

Lemma readMessages_ranges_steady topicName callback ranges result s :
  steady s ->
  exists s',
    readMessages_ranges topicName callback ranges result s
    = (inr (result ++ flat_map (range_group topicName (disk s)) ranges)%list, s')
    /\ steady s' /\ disk s' = disk s
    /\ delivered s'
       = (delivered s ++
          if callback
          then List.map
                 (fun range =>
                    JArr (List.map JObj (range_group topicName (disk s) range)))
                 ranges
          else [])%list.
Proof.
  revert result s. induction ranges as [|range rest IH]; intros result s Hs.
  - exists s. simpl. rewrite !app_nil_r.
    repeat split; try apply Hs. now destruct callback; rewrite app_nil_r.
  - rewrite readMessages_ranges_step.
    destruct (statement_steady (range_statement topicName range) s Hs)
      as (s1 & Hs1 & Hd1 & Hrun).
    rewrite (range_statement_is_query topicName range) in Hrun.
    destruct Hrun as [Hrun Hdisk1].
    destruct (call_back_run callback
      [JArr (List.map JObj (List.map _deserializeMessageRow
         (rows_of (range_statement topicName range) (disk s))))] s1)
      as (s2 & Hcb & Hdisk2 & Hr2 & Hc2 & Hdel2).
    assert (Hs2 : steady s2) by (destruct Hs1; split; congruence).
    destruct (IH (result ++ List.map _deserializeMessageRow
       (rows_of (range_statement topicName range) (disk s)))%list s2 Hs2)
      as (s3 & Hrest & Hs3 & Hdisk3 & Hdel3).
    exists s3. unfold getAllAsync, and_then. rewrite Hrun, Hcb, Hrest.
    assert (Ed : disk s2 = disk s) by congruence.
    rewrite Ed in *.
    split; [|split; [exact Hs3|split; [congruence|]]].
    + simpl. unfold range_group at 2. now rewrite <- app_assoc.
    + rewrite Hdel3, Hdel2, Hd1. destruct callback; simpl.
      * unfold range_group at 2. now rewrite <- app_assoc.
      * now rewrite !app_nil_r.
Qed.

Lemma scan_returned_sorted topicName query d :
  StronglySorted newer_first (scan_returned topicName query d).
Proof.
  unfold scan_returned, scan_matching.
  destruct (Z.ltb 0 (int32_of (limit query))).
  - apply take_keeps_most_recent, select_messages_sorted.
  - apply select_messages_sorted.
Qed.

(** ** What the callback of [readMessages] receives in any run *)

(** A query through the handle: whatever the engine answers, the data
    and the callback log are as they were; an answer is the rows of the
    query. *)
Lemma query_outcome st s r s' :
  is_query st -> statement st s = (r, s') ->
  disk s' = disk s /\ delivered s' = delivered s /\ attempts s' = attempts s
  /\ match r with
     | inr rows => rows = rows_of st (disk s)
     | inl _ => True
     end.
Proof.
  intros Hq H.
  pose proof (preserves_read disk engine_frame_disk st
                (is_query_read_only st Hq) s) as Hd.
  pose proof (preserves_statement delivered engine_frame_delivered
                disk_frame_delivered st s) as Hl.
  pose proof (preserves_statement attempts engine_frame_attempts
                disk_frame_attempts st s) as Ha.
  rewrite H in Hd, Hl, Ha. cbn [snd] in Hd, Hl, Ha.
  split; [exact Hd|]. split; [exact Hl|]. split; [exact Ha|].
  destruct r as [e|rows]; [exact I|].
  now apply (computes_query st (is_query_read_only st Hq)) in H.
Qed.

Lemma call_back_attempts callback args s :
  attempts (snd (call_back callback args s)) = attempts s.
Proof.
  unfold call_back. destruct callback; [|reflexivity].
  revert s. induction args as [|v args IH]; intros s; [reflexivity|].
  cbn [for_each]. unfold and_then, update. now rewrite IH.
Qed.

(** The loop over the ranges.  When it resolves, every group has been
    handed to the callback once, in order.  When it rejects, at the
    query of some range, the groups of the ranges before that one have
    been handed over. *)
Lemma readMessages_ranges_outcome topicName callback ranges result s r s' :
  readMessages_ranges topicName callback ranges result s = (r, s') ->
  let groups :=
    List.map
      (fun range => JArr (List.map JObj (range_group topicName (disk s) range)))
      ranges in
  disk s' = disk s /\ attempts s' = attempts s
  /\ match r with
     | inr rows =>
         rows = (result ++ flat_map (range_group topicName (disk s)) ranges)%list
         /\ delivered s'
            = (delivered s ++ if callback then groups else [])%list
     | inl _ =>
         exists k, (k < length groups)%nat
           /\ delivered s'
              = (delivered s ++ if callback then take k groups else [])%list
     end.
Proof.
  revert result s. induction ranges as [|range rest IH]; intros result s H;
    cbv zeta.
  - cbn [readMessages_ranges] in H. inversion H; subst.
    cbn [List.map flat_map]. rewrite !app_nil_r.
    repeat split. now destruct callback; rewrite app_nil_r.
  - rewrite readMessages_ranges_step in H. unfold and_then in H.
    destruct (getAllAsync (range_statement topicName range) s)
      as [[e|msgs] s1] eqn:Hq.
    + inversion H; subst.
      apply (query_outcome _ _ _ _ (range_statement_is_query _ _)) in Hq
        as (Hd & Hl & Ha & _).
      split; [exact Hd|]. split; [exact Ha|].
      exists 0%nat. cbn [List.map length take].
      split; [lia|]. rewrite Hl. now destruct callback; rewrite app_nil_r.
    + apply (query_outcome _ _ _ _ (range_statement_is_query _ _)) in Hq
        as (Hd & Hl & Ha & ->).
      destruct (call_back_run callback
        [JArr (List.map JObj (List.map _deserializeMessageRow
           (rows_of (range_statement topicName range) (disk s))))] s1)
        as (s2 & Hcb & Hd2 & _ & _ & Hl2).
      pose proof (call_back_attempts callback
        [JArr (List.map JObj (List.map _deserializeMessageRow
           (rows_of (range_statement topicName range) (disk s))))] s1) as Ha2.
      rewrite Hcb in H, Ha2. cbn [snd] in Ha2.
      apply IH in H. cbv zeta in H.
      assert (Ed : disk s2 = disk s) by congruence. rewrite Ed in H.
      destruct H as (Hd3 & Ha3 & H).
      split; [exact Hd3|]. split; [congruence|].
      fold (range_group topicName (disk s) range) in *.
      destruct r as [e|rows].
      * destruct H as (k & Hk & Hl3). exists (S k).
        cbn [List.map length take]. split; [lia|].
        rewrite Hl3, Hl2, Hl. destruct callback.
        -- now rewrite <- app_assoc.
        -- now rewrite !app_nil_r.
      * destruct H as [-> Hl3]. split.
        -- cbn [flat_map]. now rewrite <- app_assoc.
        -- rewrite Hl3, Hl2, Hl. cbn [List.map]. destruct callback.
           ++ now rewrite <- app_assoc.
           ++ now rewrite !app_nil_r.
Qed.

Ltac frame_delivered :=
  repeat first
    [ apply (preserves_openDatabaseAsync delivered engine_frame_delivered)
    | apply (preserves_closeAsync delivered engine_frame_delivered)
    | frame_step ].

Lemma initDatabase_keeps_delivered : preserves delivered initDatabase.
Proof. unfold initDatabase, _createTables. frame_delivered. Qed.

Lemma recoverDatabase_keeps_delivered : preserves delivered _recoverDatabase.
Proof.
  pose proof initDatabase_keeps_delivered. unfold _recoverDatabase.
  frame_delivered.
Qed.

(** The single scan: the callback is reached only after the query has
    answered. *)
Lemma scan_pass_outcome st callback s r s' :
  is_query st ->
  (await rows := getAllAsync st in
   let result := List.map _deserializeMessageRow rows in
   run call_back callback (List.map JObj result) in
   resolve result) s = (r, s') ->
  let sent :=
    List.map JObj (List.map _deserializeMessageRow (rows_of st (disk s))) in
  disk s' = disk s /\ attempts s' = attempts s
  /\ match r with
     | inr rows =>
         delivered s' = (delivered s ++ if callback then sent else [])%list
     | inl _ => delivered s' = delivered s
     end.
Proof.
  intros Hq H. cbv zeta. unfold and_then in H.
  destruct (getAllAsync st s) as [[e|rows] s1] eqn:E.
  - inversion H; subst.
    now apply (query_outcome _ _ _ _ Hq) in E as (Hd & Hl & Ha & _).
  - apply (query_outcome _ _ _ _ Hq) in E as (Hd & Hl & Ha & ->).
    destruct (call_back_run callback
      (List.map JObj (List.map _deserializeMessageRow (rows_of st (disk s))))
      s1) as (s2 & Hcb & Hd2 & _ & _ & Hl2).
    pose proof (call_back_attempts callback
      (List.map JObj (List.map _deserializeMessageRow (rows_of st (disk s))))
      s1) as Ha2.
    rewrite Hcb in H, Ha2. cbn [snd] in Ha2. inversion H; subst.
    split; [congruence|]. split; [congruence|]. now rewrite Hl2, Hl.
Qed.

(** An operation that hands [sent] to the callback when it resolves, and
    at most the first [bound] of them when it rejects, run under the
    recovery wrapper: a resolving run has handed over all of [sent],
    after the part a failed first try had already handed over. *)
Lemma recovered_deliveries {A} (op : M A) (sent : Database -> list JsVal)
    (bound : Database -> nat) (empty : A) s a s' :
  (forall s r s',
     op s = (r, s') ->
     disk s' = disk s /\ attempts s' = attempts s
     /\ match r with
        | inr _ => delivered s' = (delivered s ++ sent (disk s))%list
        | inl _ =>
            exists k, (k = 0 \/ k < bound (disk s))%nat
              /\ delivered s' = (delivered s ++ take k (sent (disk s)))%list
        end) ->
  isReady s = true ->
  guarded empty op s = (inr a, s') ->
  exists k,
    delivered s'
    = (delivered s ++ take k (sent (disk s)) ++ sent (disk s))%list
    /\ (k = 0 \/ k < bound (disk s))%nat
    /\ (attempts s' = S (attempts s) -> k = 0%nat).
Proof.
  intros Hop Hr H. unfold guarded in H. rewrite Hr in H. cbn [negb] in H.
  apply withRecovery_cases in H
    as [H|[(e & s1 & H1 & _ & s2 & Hrec & H2)|(e & s1 & _ & _ & _ & Hx)]];
    [| |discriminate].
  - apply Hop in H as (_ & Ha & Hl). cbn [count_attempt disk delivered] in Hl.
    exists 0%nat. cbn [take app]. split; [exact Hl|]. split; [now left|trivial].
  - apply Hop in H1 as (Hd1 & Ha1 & k & Hk & Hl1).
    apply Hop in H2 as (Hd2 & Ha2 & Hl2).
    cbn [count_attempt disk delivered attempts] in *.
    pose proof (recoverDatabase_keeps_disk s1) as Hd.
    pose proof (recoverDatabase_keeps_delivered s1) as Hl.
    pose proof (recoverDatabase_keeps_attempts s1) as Ha.
    rewrite Hrec in Hd, Hl, Ha. cbn [snd] in Hd, Hl, Ha.
    assert (Ed : disk s2 = disk s) by congruence. rewrite Ed in Hl2.
    exists k. split; [|split; [exact Hk|]].
    + rewrite Hl2, Hl, Hl1. now rewrite <- app_assoc.
    + intros E. rewrite Ha2, Ha, Ha1 in E. lia.
Qed.

Lemma take_nil_any {X} (k : nat) : take k (@nil X) = [].
Proof. now destruct k. Qed.

(** The callback log of [readMessages] after any resolving run. *)
Lemma readMessages_delivers topicName query callback s rows s' :
  isReady s = true ->
  readMessages topicName (Some query) callback s = (inr rows, s') ->
  let sent := deliveries topicName query (disk s) in
  exists k,
    delivered s'
    = (delivered s ++ if callback then take k sent ++ sent else [])%list
    /\ (k = 0 \/ k < length sent)%nat
    /\ (ranges query = None -> k = 0%nat)
    /\ (attempts s' = S (attempts s) -> k = 0%nat).
Proof.
  intros Hr H. cbv zeta. unfold readMessages in H. cbv zeta in H.
  unfold deliveries. destruct (ranges query) as [rs|] eqn:Hq.
  - destruct (recovered_deliveries
                (readMessages_ranges topicName callback rs [])
                (fun d => if callback
                          then List.map
                                 (fun range =>
                                    JArr (List.map JObj
                                            (range_group topicName d range)))
                                 rs
                          else [])
                (fun d => length rs) [] s rows s') as (k & Hl & Hk & Ha);
      [|exact Hr|exact H|].
    + intros s0 r s0' H0. apply readMessages_ranges_outcome in H0.
      cbv zeta in H0. destruct H0 as (Hd & Ha & H0).
      split; [exact Hd|]. split; [exact Ha|].
      destruct r as [e|rows0]; [|apply H0].
      destruct H0 as (k & Hk & Hl). rewrite length_map in Hk.
      exists k. split; [now right|].
      rewrite Hl. now destruct callback; [|rewrite take_nil_any].
    + assert (Eg : forall d,
                List.map
                  (fun range =>
                     JArr (List.map JObj (range_group topicName d range))) rs
                = List.map
                    (fun range =>
                       JArr (List.map JObj
                               (List.map load_message
                                  (range_rows topicName d range)))) rs).
      { intros d. apply map_ext. intros range. now rewrite range_group_rows. }
      exists k. rewrite length_map. split; [|split; [exact Hk|]].
      * rewrite Hl. destruct callback.
        -- now rewrite Eg.
        -- now rewrite take_nil_any.
      * split; [discriminate|exact Ha].
  - fold (scan_statement topicName query) in H.
    destruct (recovered_deliveries
                (await rows := getAllAsync (scan_statement topicName query) in
                 let result := List.map _deserializeMessageRow rows in
                 run call_back callback (List.map JObj result) in
                 resolve result)
                (fun d => if callback
                          then List.map JObj
                                 (List.map _deserializeMessageRow
                                    (rows_of (scan_statement topicName query) d))
                          else [])
                (fun d => 0%nat) [] s rows s') as (k & Hl & Hk & Ha);
      [|exact Hr|exact H|].
    + intros s0 r s0' H0.
      apply (scan_pass_outcome _ _ _ _ _
               (scan_statement_is_query topicName query)) in H0.
      cbv zeta in H0. destruct H0 as (Hd & Ha & H0).
      split; [exact Hd|]. split; [exact Ha|].
      destruct r as [e|rows0].
      * exists 0%nat. split; [now left|]. cbn [take]. now rewrite app_nil_r.
      * now destruct callback.
    + assert (k = 0%nat) as -> by lia.
      exists 0%nat. cbn [take app] in *. split; [|split; [now left|now split]].
      rewrite Hl. unfold readMessages_result. rewrite Hq.
      now destruct callback.
Qed.

(** C5, as the code has it.  With an explicit list of ranges the call
    returns the concatenation, in query order, of one group per range;
    each group holds exactly the stored messages of the topic that the
    range matches, most recent first, where a range whose [hi] is a
    non-zero number matches [low <= seq < hi] and a range whose [hi] is
    absent or zero matches only [seq = low].  Without a list of ranges
    the messages are returned most recent first.

    The callback: a complete pass calls it once per range with the group
    as an array, in query order, or, without a list of ranges, once per
    returned message in the order returned.  A run in which no engine
    call fails is one such pass.  In any resolving run the callback log
    ends with one complete pass; before it come the groups of the first
    [k] ranges, handed over by a first try that then failed with a stale
    handle and was run again after recovery.  [k] is 0 when the call
    resolved at the first try, 0 without a list of ranges, and below the
    number of ranges otherwise. *)
Theorem readMessages_groups_and_order (topicName : string) (query : Query)
    (callback : bool) (s : Store) :
  isReady s = true ->
  (forall rows s',
     readMessages topicName (Some query) callback s = (inr rows, s') ->
     rows = readMessages_result topicName (Some query) (disk s))
  /\ (calm s = true ->
      exists s',
        readMessages topicName (Some query) callback s
        = (inr (readMessages_result topicName (Some query) (disk s)), s')
        /\ delivered s'
           = (delivered s ++
              if callback then
                match ranges query with
                | Some rs =>
                    List.map
                      (fun range =>
                         JArr (List.map JObj
                                 (List.map load_message
                                    (range_rows topicName (disk s) range))))
                      rs
                | None =>
                    List.map JObj
                      (readMessages_result topicName (Some query) (disk s))
                end
              else [])%list)
  /\ (forall rows s',
        readMessages topicName (Some query) callback s = (inr rows, s') ->
        let sent := deliveries topicName query (disk s) in
        exists k,
          delivered s'
          = (delivered s ++ if callback then take k sent ++ sent else [])%list
          /\ (k = 0 \/ k < length sent)%nat
          /\ (ranges query = None -> k = 0%nat)
          /\ (attempts s' = S (attempts s) -> k = 0%nat))
  /\ match ranges query with
     | Some rs =>
         readMessages_result topicName (Some query) (disk s)
         = flat_map
             (fun range =>
                List.map load_message (range_rows topicName (disk s) range))
             rs
         /\ forall range,
              StronglySorted newer_first (range_rows topicName (disk s) range)
              /\ forall kv, kv ∈ range_rows topicName (disk s) range
                   <-> messages (disk s) !! fst kv = Some (snd kv)
                       /\ fst (fst kv) = topicName
                       /\ matches_range range (snd (fst kv))
     | None =>
         readMessages_result topicName (Some query) (disk s)
         = List.map load_message (scan_returned topicName query (disk s))
         /\ StronglySorted newer_first (scan_returned topicName query (disk s))
     end.
Proof.
  intros Hready. split; [|split; [|split]].
  - intros rows s' H.
    now apply readMessages_reads in H as [_ [->|[Hn _]]]; [|congruence].
  - intros Hc. destruct (ranges query) as [rs|] eqn:Hr.
    + unfold readMessages, readMessages_result. rewrite Hr.
      destruct (readMessages_ranges_steady topicName callback rs []
                  (count_attempt s) (conj Hready Hc))
        as (s' & Hrun & _ & _ & Hdel).
      exists s'. simpl disk in *. simpl delivered in Hdel.
      split; [apply guarded_resolved; [exact Hready|exact Hrun]|].
      rewrite Hdel. destruct callback; [|reflexivity].
      f_equal. apply map_ext. intros range. now rewrite range_group_rows.
    + destruct (readMessages_scan_steady topicName query callback s
                  (conj Hready Hc) Hr) as (s' & Hrun & Hdel).
      exists s'. rewrite (scan_result topicName query (disk s) Hr).
      now split.
  - intros rows s' H.
    exact (readMessages_delivers topicName query callback s rows s' Hready H).
  - destruct (ranges query) as [rs|] eqn:Hr.
    + split.
      * unfold readMessages_result. rewrite Hr. apply flat_map_ext.
        intros range. apply range_group_rows.
      * intros range. apply range_rows_spec.
    + split; [now apply scan_result|].
      apply scan_returned_sorted.
Qed.

Lemma readMessages_groups_and_order_witness :
  exists s',
    readMessages "grp1"
      (Some (mkQuery None None None
               (Some [mkIdRange 5 (Some 7); mkIdRange 7 None])))
      true (ready_store sample_database)
    = (inr (readMessages_result "grp1"
              (Some (mkQuery None None None
                       (Some [mkIdRange 5 (Some 7); mkIdRange 7 None])))
              sample_database), s')
    /\ delivered s'
       = [ JArr [JObj (load_message (("grp1", 6), sample_row "{}"));
                 JObj (load_message (("grp1", 5), sample_row "{}"))];
           JArr [JObj (load_message (("grp1", 7), sample_row "{}"))] ].
Proof.
  destruct (proj1 (proj2 (readMessages_groups_and_order "grp1"
              (mkQuery None None None
                 (Some [mkIdRange 5 (Some 7); mkIdRange 7 None]))
              true (ready_store sample_database) eq_refl)) eq_refl)
    as (s' & H & D).
  exists s'. split; [exact H|]. rewrite D. vm_compute. reflexivity.
Defined.

(** C5 as stated fails for a range whose [hi] is 0: no sequence number
    satisfies [5 <= seq < 0], yet the range [{low: 5, hi: 0}] returns the
    message with sequence number 5. *)
Lemma range_with_zero_hi_matches_low :
  let query := mkQuery None None None (Some [mkIdRange 5 (Some 0)]) in
  (forall n : Z, ~ (5 <= n < 0))
  /\ fst (readMessages "grp1" (Some query) false (ready_store sample_database))
     = inr [load_message (("grp1", 5), sample_row "{}")]
  /\ fst (readMessages "grp1" (Some query) false (ready_store sample_database))
     <> inr [].
Proof.
  split; [intros n; lia|].
  split; [vm_compute; reflexivity|vm_compute; discriminate].
Qed.

(** A batch interrupted by a stale handle is run again from its first
    range: the second query fails, the store recovers, and the group of
    the first range reaches the callback twice. *)
Example recovered_batch_is_delivered_again :
  let query :=
    mkQuery None None None (Some [mkIdRange 5 None; mkIdRange 7 None]) in
  let s := set_faults [None; Some stale] (ready_store sample_database) in
  let m5 := load_message (("grp1", 5), sample_row "{}") in
  let m7 := load_message (("grp1", 7), sample_row "{}") in
  fst (readMessages "grp1" (Some query) true s) = inr [m5; m7]
  /\ delivered (snd (readMessages "grp1" (Some query) true s))
     = [JArr [JObj m5]; JArr [JObj m5]; JArr [JObj m7]]
  /\ attempts (snd (readMessages "grp1" (Some query) true s)) = 2%nat.
Proof. repeat split; vm_compute; reflexivity. Qed.

(** The example of the specification: ranges [{low:1,hi:3},{low:7}] over
    messages 1, 2, 3, 4, 7 give 2, 1 and then 7. *)
Example ranges_example :
  let d := with_messages
             (fun m => <[("grp1", 1) := sample_row "{}"]>
                      (<[("grp1", 2) := sample_row "{}"]>
                      (<[("grp1", 3) := sample_row "{}"]>
                      (<[("grp1", 4) := sample_row "{}"]>
                      (<[("grp1", 7) := sample_row "{}"]> m)))))
             empty_database in
  option_map (List.map (get "seq"))
    (match fst (readMessages "grp1"
                  (Some (mkQuery None None None
                           (Some [mkIdRange 1 (Some 3); mkIdRange 7 None])))
                  false (ready_store d)) with
     | inr rows => Some rows
     | inl _ => None
     end)
  = Some [JNum 2; JNum 1; JNum 7].
Proof. vm_compute. reflexivity. Qed.

(** ** Reading the deletion log *)

Lemma dellog_group topicName d range :
  List.map low_hi
    (rows_of (SELECT_dellog_WHERE_low_range topicName (low range)
                (hi_or_next range)) d)
  = List.map low_hi_pair (dellog_rows topicName d range).
Proof. unfold rows_of, dellog_rows. simpl. now rewrite map_map. Qed.

Lemma dellog_rows_spec topicName d range :
  StronglySorted clear_desc (dellog_rows topicName d range)
  /\ forall kv, kv ∈ dellog_rows topicName d range
       <-> dellog d !! fst kv = Some (snd kv)
           /\ fst (fst (fst kv)) = topicName
           /\ low range <= snd (fst (fst kv)) < hi_or_next range.
Proof.
  unfold dellog_rows. split.
  - apply StronglySorted_merge_sort; apply _.
  - intros kv. rewrite merge_sort_Permutation.
    rewrite list_elem_of_In, filter_In, <- list_elem_of_In.
    destruct kv as [[[t lo] h] c]. rewrite elem_of_map_to_list.
    unfold dellog_low_in. simpl.
    rewrite !andb_true_iff, String.eqb_eq, Z.leb_le, Z.ltb_lt. tauto.
Qed.

Lemma readDelLog_ranges_steady topicName ranges result s :
  steady s ->
  exists s',
    readDelLog_ranges topicName ranges result s
    = (inr (result ++
            flat_map
              (fun range =>
                 List.map low_hi
                   (rows_of (SELECT_dellog_WHERE_low_range topicName
                               (low range) (hi_or_next range)) (disk s)))
              ranges)%list, s')
    /\ steady s' /\ disk s' = disk s.
Proof.
  revert result s. induction ranges as [|range rest IH]; intros result s Hs.
  - exists s. simpl. rewrite app_nil_r. repeat split; apply Hs.
  - simpl.
    destruct (statement_steady
                (SELECT_dellog_WHERE_low_range topicName (low range)
                   (hi_or_next range)) s Hs) as (s1 & Hs1 & _ & Hrun).
    simpl in Hrun. destruct Hrun as [Hrun Hd1].
    destruct (IH (result ++ List.map low_hi
                (List.map dellog_object
                   (merge_sort clear_desc
                      (List.filter
                         (dellog_low_in topicName (low range) (hi_or_next range))
                         (map_to_list (dellog (disk s)))))))%list s1 Hs1)
      as (s2 & Hrest & Hs2 & Hd2).
    exists s2. unfold getAllAsync, and_then. rewrite Hrun, Hrest.
    rewrite Hd1. split; [|split; [exact Hs2|congruence]].
    simpl. unfold rows_of at 2. simpl.
    now rewrite <- app_assoc.
Qed.

(** C6, as the code has it: with an explicit list of ranges,
    [readDelLog] returns, per range in query order, the [{low, hi}] pairs
    of the stored entries of the topic whose [low] lies in the queried
    span ([low <= entry.low < hi], with [hi] defaulting to [low + 1]), by
    descending clear id.  An entry whose [low] lies below the queried
    span is not returned, even when its [hi] extends into the span. *)
Theorem readDelLog_selects_by_low (topicName : string) (query : Query)
    (rs : list IdRange) (s : Store) :
  isReady s = true -> ranges query = Some rs ->
  (forall rows s',
     readDelLog topicName (Some query) s = (inr rows, s') ->
     rows = flat_map
              (fun range =>
                 List.map low_hi_pair (dellog_rows topicName (disk s) range))
              rs)
  /\ (calm s = true ->
      exists s',
        readDelLog topicName (Some query) s
        = (inr (flat_map
                  (fun range =>
                     List.map low_hi_pair (dellog_rows topicName (disk s) range))
                  rs), s'))
  /\ (forall range,
        StronglySorted clear_desc (dellog_rows topicName (disk s) range)
        /\ forall kv, kv ∈ dellog_rows topicName (disk s) range
             <-> dellog (disk s) !! fst kv = Some (snd kv)
                 /\ fst (fst (fst kv)) = topicName
                 /\ low range <= snd (fst (fst kv)) < hi_or_next range)
  /\ (forall range kv,
        snd (fst (fst kv)) < low range -> kv ∉ dellog_rows topicName (disk s) range).
Proof.
  intros Hready Hr.
  assert (E : readDelLog_result topicName (Some query) (disk s)
              = flat_map
                  (fun range =>
                     List.map low_hi_pair (dellog_rows topicName (disk s) range))
                  rs).
  { unfold readDelLog_result. rewrite Hr. apply flat_map_ext.
    intros range. apply dellog_group. }
  split; [|split; [|split]].
  - intros rows s' H.
    apply readDelLog_reads in H as [_ [->|[Hn _]]]; [exact E|congruence].
  - intros Hc. unfold readDelLog. rewrite Hr.
    destruct (readDelLog_ranges_steady topicName rs [] (count_attempt s)
                (conj Hready Hc)) as (s' & Hrun & _).
    exists s'. apply guarded_resolved; [exact Hready|].
    rewrite Hrun. simpl disk. f_equal. f_equal.
    apply flat_map_ext. intros range. apply dellog_group.
  - intros range. apply dellog_rows_spec.
  - intros range kv Hlt Hin.
    apply (proj2 (dellog_rows_spec topicName (disk s) range)) in Hin.
    lia.
Qed.

Lemma readDelLog_selects_by_low_witness :
  exists s',
    readDelLog "grp1" (Some (mkQuery None None None (Some [mkIdRange 1 (Some 4)])))
      (ready_store sample_dellog)
    = (inr (flat_map
              (fun range =>
                 List.map low_hi_pair (dellog_rows "grp1" sample_dellog range))
              [mkIdRange 1 (Some 4)]), s').
Proof.
  exact (proj1 (proj2 (readDelLog_selects_by_low "grp1"
           (mkQuery None None None (Some [mkIdRange 1 (Some 4)]))
           [mkIdRange 1 (Some 4)] (ready_store sample_dellog)
           eq_refl eq_refl)) eq_refl).
Defined.

(** C6 as stated fails: the tombstone [1, 10) overlaps the queried span
    [5, 8), but its [low] lies below the span and it is not returned. *)
Lemma overlapping_tombstone_is_not_returned :
  let query := mkQuery None None None (Some [mkIdRange 5 (Some 8)]) in
  dellog sample_dellog !! ("grp1", 1, 10) = Some 3
  /\ overlaps 1 10 5 8
  /\ fst (readDelLog "grp1" (Some query) (ready_store sample_dellog)) = inr [].
Proof.
  split; [vm_compute; reflexivity|].
  split; [exists 5; lia|vm_compute; reflexivity].
Qed.

(** ** The JSON codec: parsing what was printed *)

Lemma append_cons (c : ascii) (a b : string) :
  String c a ++ b = String c (a ++ b).
Proof. reflexivity. Qed.

Lemma append_nil (b : string) : "" ++ b = b.
Proof. reflexivity. Qed.

Lemma length_append (a b : string) :
  String.length (a ++ b) = (String.length a + String.length b)%nat.
Proof.
  induction a as [|c a IH]; [reflexivity|].
  rewrite append_cons. simpl. now rewrite IH.
Qed.

Lemma append_assoc (a b c : string) : (a ++ b) ++ c = a ++ (b ++ c).
Proof.
  induction a as [|x a IH]; [reflexivity|].
  rewrite !append_cons. now rewrite IH.
Qed.

Lemma append_empty (a : string) : a ++ "" = a.
Proof.
  induction a as [|x a IH]; [reflexivity|].
  rewrite append_cons. now rewrite IH.
Qed.

Lemma substring_all (s : string) : substring 0 (String.length s) s = s.
Proof. induction s as [|c s IH]; simpl; [reflexivity|now rewrite IH]. Qed.

Lemma prefix_empty (s : string) : String.prefix "" s = true.
Proof. now destruct s. Qed.

Lemma expect_ull rest : JSON.expect "ull" ("ull" ++ rest) = Some rest.
Proof.
  unfold JSON.expect. rewrite !append_cons, append_nil. simpl.
  now rewrite prefix_empty, Nat.sub_0_r, substring_all.
Qed.

Lemma expect_rue rest : JSON.expect "rue" ("rue" ++ rest) = Some rest.
Proof.
  unfold JSON.expect. rewrite !append_cons, append_nil. simpl.
  now rewrite prefix_empty, Nat.sub_0_r, substring_all.
Qed.

Lemma expect_alse rest : JSON.expect "alse" ("alse" ++ rest) = Some rest.
Proof.
  unfold JSON.expect. rewrite !append_cons, append_nil. simpl.
  now rewrite prefix_empty, Nat.sub_0_r, substring_all.
Qed.

(** *** String literals *)

Lemma parse_chars_escape_char (c : ascii) (tail : string) :
  JSON.parse_chars (JSON.escape_char c ++ tail)
  = match JSON.parse_chars tail with
    | Some (t, r) => Some (String c t, r)
    | None => None
    end.
Proof. destruct c as [[] [] [] [] [] [] [] []]; reflexivity. Qed.

Lemma parse_chars_escape (s rest : string) :
  JSON.parse_chars (JSON.escape s ++ String JSON.dquote rest) = Some (s, rest).
Proof.
  induction s as [|c s IH]; [reflexivity|].
  cbn [JSON.escape]. rewrite append_assoc, parse_chars_escape_char.
  now rewrite IH.
Qed.

Lemma quote_unfold (s rest : string) :
  JSON.quote s ++ rest
  = String JSON.dquote (JSON.escape s ++ String JSON.dquote rest).
Proof.
  unfold JSON.quote. rewrite append_cons, append_assoc.
  now rewrite append_cons, append_nil.
Qed.

(** *** Numbers *)

Lemma ends_token_stops (rest : string) (acc : Z) :
  ends_token rest = true ->
  JSON.parse_digits rest acc = (acc, rest)
  /\ JSON.starts_fraction rest = false
  /\ JSON.skip_ws rest = rest.
Proof.
  destruct rest as [|c r]; [now intros _|].
  destruct c as [[] [] [] [] [] [] [] []]; intros H;
    vm_compute in H; try discriminate H; repeat split; reflexivity.
Qed.

Lemma ends_token_not_digit (c : ascii) (r : string) :
  ends_token (String c r) = true -> JSON.digit_of c = None.
Proof.
  destruct c as [[] [] [] [] [] [] [] []]; intros H;
    vm_compute in H; try discriminate H; reflexivity.
Qed.

Lemma parse_digits_uint (d : Decimal.uint) (acc : Z) (rest : string) :
  ends_token rest = true ->
  JSON.parse_digits (NilEmpty.string_of_uint d ++ rest) acc
  = (uint_value d acc, rest).
Proof.
  intros H. revert acc.
  induction d as [|d IH|d IH|d IH|d IH|d IH|d IH|d IH|d IH|d IH|d IH];
    intros acc; cbn [NilEmpty.string_of_uint uint_value];
    rewrite ?append_cons, ?append_nil;
    [now apply ends_token_stops|..];
    cbn [JSON.parse_digits]; exact (IH _).
Qed.

Lemma of_uint_acc_value (d : Decimal.uint) (acc : positive) :
  Z.pos (Pos.of_uint_acc d acc) = uint_value d (Z.pos acc).
Proof.
  revert acc.
  induction d as [|d IH|d IH|d IH|d IH|d IH|d IH|d IH|d IH|d IH|d IH];
    intros acc; cbn [Pos.of_uint_acc uint_value]; [reflexivity|..];
    rewrite IH; f_equal; lia.
Qed.

(** The digits printed for a positive number do not start with 0. *)
Lemma to_uint_head (p : positive) (l : Decimal.uint) :
  Pos.to_uint p <> Decimal.D0 l.
Proof.
  intros E.
  pose proof (DecimalPos.Unsigned.to_of (Pos.to_uint p)) as H.
  rewrite DecimalPos.Unsigned.of_to in H. simpl in H.
  rewrite E in H. rewrite DecimalFacts.unorm_D0 in H.
  unfold Decimal.unorm in H.
  destruct (Decimal.nzhead l) eqn:Hn; try discriminate H.
  - injection H as ->. apply (DecimalPos.Unsigned.to_uint_nonzero p).
    exact E.
  - apply (DecimalFacts.nzhead_nonzero l l).
    rewrite Hn. exact (eq_sym H).
Qed.

Ltac eval_digit :=
  match goal with
  | |- context [JSON.digit_of ?c] =>
      let v := eval vm_compute in (JSON.digit_of c) in
      change (JSON.digit_of c) with v
  end.

Lemma parse_unsigned_pos (p : positive) (rest : string) :
  ends_token rest = true ->
  JSON.parse_unsigned (NilEmpty.string_of_uint (Pos.to_uint p) ++ rest)
  = Some (Z.pos p, rest).
Proof.
  intros H.
  pose proof (DecimalPos.Unsigned.of_to p) as Hv.
  pose proof (to_uint_head p) as Hz.
  destruct (ends_token_stops rest 0 H) as (_ & Hf & _).
  destruct (Pos.to_uint p) as [|d|d|d|d|d|d|d|d|d|d];
    [discriminate Hv|now elim (Hz d)|..];
    cbn [NilEmpty.string_of_uint]; rewrite append_cons;
    unfold JSON.parse_unsigned; eval_digit; cbv iota beta;
    rewrite (parse_digits_uint d _ rest H), Hf;
    simpl in Hv; injection Hv as Hv; rewrite <- Hv;
    now rewrite of_uint_acc_value.
Qed.

Lemma string_of_uint_pos (p : positive) :
  NilZero.string_of_uint (Pos.to_uint p)
  = NilEmpty.string_of_uint (Pos.to_uint p).
Proof.
  pose proof (DecimalPos.Unsigned.to_uint_nonnil p) as H.
  now destruct (Pos.to_uint p).
Qed.

Lemma parse_value_digit fuel (c : ascii) (s1 : string) (d : nat) :
  JSON.digit_of c = Some d ->
  JSON.parse_value (S fuel) (String c s1)
  = option_map (fun nr => (JNum (fst nr), snd nr))
      (JSON.parse_unsigned (String c s1)).
Proof.
  destruct c as [[] [] [] [] [] [] [] []]; intros H;
    vm_compute in H; try discriminate H; reflexivity.
Qed.

Lemma string_of_uint_digit (p : positive) :
  exists c s d, NilEmpty.string_of_uint (Pos.to_uint p) = String c s
                /\ JSON.digit_of c = Some d.
Proof.
  pose proof (DecimalPos.Unsigned.to_uint_nonnil p) as H.
  destruct (Pos.to_uint p); [now elim H|..]; simpl; eauto.
Qed.

Lemma parse_value_number fuel (n : Z) (rest : string) :
  ends_token rest = true ->
  JSON.parse_value (S fuel) (JSON.print_Z n ++ rest) = Some (JNum n, rest).
Proof.
  intros H. destruct (ends_token_stops rest 0 H) as (_ & Hf & _).
  unfold JSON.print_Z. destruct n as [|p|p].
  - change (NilZero.string_of_int (Z.to_int 0)) with "0".
    rewrite append_cons, append_nil.
    rewrite (parse_value_digit fuel "0" rest 0%nat eq_refl).
    unfold JSON.parse_unsigned. eval_digit. cbv iota beta.
    destruct rest as [|c r]; [reflexivity|].
    now rewrite (ends_token_not_digit c r H), Hf.
  - change (NilZero.string_of_int (Z.to_int (Z.pos p)))
      with (NilZero.string_of_uint (Pos.to_uint p)).
    rewrite string_of_uint_pos.
    destruct (string_of_uint_digit p) as (c & s & d & E & Hd).
    pose proof (parse_unsigned_pos p rest H) as Hp.
    rewrite E in *. rewrite append_cons in *.
    rewrite (parse_value_digit fuel _ _ d Hd). now rewrite Hp.
  - change (NilZero.string_of_int (Z.to_int (Z.neg p)))
      with (String "-" (NilZero.string_of_uint (Pos.to_uint p))).
    rewrite string_of_uint_pos, append_cons.
    change (JSON.parse_value (S fuel)
              (String "-" (NilEmpty.string_of_uint (Pos.to_uint p) ++ rest)))
      with (option_map (fun nr => (JNum (- fst nr), snd nr))
              (JSON.parse_unsigned
                 (NilEmpty.string_of_uint (Pos.to_uint p) ++ rest))).
    now rewrite (parse_unsigned_pos p rest H).
Qed.

(** *** Values *)

Lemma parse_value_null fuel rest :
  JSON.parse_value (S fuel) ("null" ++ rest) = Some (JNull, rest).
Proof.
  change (JSON.parse_value (S fuel) ("null" ++ rest))
    with (option_map (fun r => (JNull, r)) (JSON.expect "ull" ("ull" ++ rest))).
  now rewrite expect_ull.
Qed.

Lemma parse_value_true fuel rest :
  JSON.parse_value (S fuel) ("true" ++ rest) = Some (JBool true, rest).
Proof.
  change (JSON.parse_value (S fuel) ("true" ++ rest))
    with (option_map (fun r => (JBool true, r))
            (JSON.expect "rue" ("rue" ++ rest))).
  now rewrite expect_rue.
Qed.

Lemma parse_value_false fuel rest :
  JSON.parse_value (S fuel) ("false" ++ rest) = Some (JBool false, rest).
Proof.
  change (JSON.parse_value (S fuel) ("false" ++ rest))
    with (option_map (fun r => (JBool false, r))
            (JSON.expect "alse" ("alse" ++ rest))).
  now rewrite expect_alse.
Qed.

Lemma parse_value_string fuel s rest :
  JSON.parse_value (S fuel) (JSON.quote s ++ rest) = Some (JStr s, rest).
Proof.
  rewrite quote_unfold.
  change (JSON.parse_value (S fuel)
            (String JSON.dquote (JSON.escape s ++ String JSON.dquote rest)))
    with (option_map (fun tr => (JStr (fst tr), snd tr))
            (JSON.parse_chars (JSON.escape s ++ String JSON.dquote rest))).
  now rewrite parse_chars_escape.
Qed.

Lemma parse_value_array fuel s1 :
  JSON.parse_value (S fuel) (String "[" s1)
  = match JSON.skip_ws s1 with
    | String c' s2 =>
        if Nat.eqb (nat_of_ascii c') 93 then Some (JArr [], s2)
        else option_map (fun lr => (JArr (fst lr), snd lr))
                        (JSON.parse_elements fuel s1)
    | EmptyString => None
    end.
Proof. reflexivity. Qed.

Lemma parse_value_object fuel s1 :
  JSON.parse_value (S fuel) (String "{" s1)
  = match JSON.skip_ws s1 with
    | String c' s2 =>
        if Nat.eqb (nat_of_ascii c') 125 then Some (JObj [], s2)
        else option_map (fun lr => (JObj (fst lr), snd lr))
                        (JSON.parse_members fuel s1 [])
    | EmptyString => None
    end.
Proof. reflexivity. Qed.

Lemma parse_elements_step fuel s :
  JSON.parse_elements (S fuel) s
  = match JSON.parse_value fuel s with
    | Some (v, r) =>
        match JSON.skip_ws r with
        | String c r' =>
            if Nat.eqb (nat_of_ascii c) 93 then Some ([v], r')
            else if Nat.eqb (nat_of_ascii c) 44 then
              option_map (fun lr => (v :: fst lr, snd lr))
                         (JSON.parse_elements fuel r')
            else None
        | EmptyString => None
        end
    | None => None
    end.
Proof. reflexivity. Qed.

Lemma parse_members_step fuel k tail acc :
  JSON.parse_members (S fuel) (JSON.quote k ++ String ":" tail) acc
  = match JSON.parse_value fuel tail with
    | Some (v, r) =>
        match JSON.skip_ws r with
        | String c r' =>
            if Nat.eqb (nat_of_ascii c) 125 then Some (set k v acc, r')
            else if Nat.eqb (nat_of_ascii c) 44 then
              JSON.parse_members fuel r' (set k v acc)
            else None
        | EmptyString => None
        end
    | None => None
    end.
Proof.
  rewrite quote_unfold.
  change (JSON.parse_members (S fuel)
            (String JSON.dquote
               (JSON.escape k ++ String JSON.dquote (String ":" tail))) acc)
    with (match JSON.parse_chars
                  (JSON.escape k ++ String JSON.dquote (String ":" tail)) with
          | Some (k, r0) =>
              match JSON.skip_ws r0 with
              | String colon r1 =>
                  if Nat.eqb (nat_of_ascii colon) 58 then
                    match JSON.parse_value fuel r1 with
                    | Some (v, r) =>
                        match JSON.skip_ws r with
                        | String c r' =>
                            if Nat.eqb (nat_of_ascii c) 125
                            then Some (set k v acc, r')
                            else if Nat.eqb (nat_of_ascii c) 44 then
                              JSON.parse_members fuel r' (set k v acc)
                            else None
                        | EmptyString => None
                        end
                    | None => None
                    end
                  else None
              | EmptyString => None
              end
          | None => None
          end).
  now rewrite parse_chars_escape.
Qed.

Lemma parse_elements_last fuel s v r' :
  JSON.parse_value fuel s = Some (v, String "]" r') ->
  JSON.parse_elements (S fuel) s = Some ([v], r').
Proof. intros H. now rewrite parse_elements_step, H. Qed.

Lemma parse_elements_more fuel s v r' :
  JSON.parse_value fuel s = Some (v, String "," r') ->
  JSON.parse_elements (S fuel) s
  = option_map (fun lr => (v :: fst lr, snd lr)) (JSON.parse_elements fuel r').
Proof. intros H. now rewrite parse_elements_step, H. Qed.

Lemma parse_members_last fuel k tail acc v r' :
  JSON.parse_value fuel tail = Some (v, String "}" r') ->
  JSON.parse_members (S fuel) (JSON.quote k ++ String ":" tail) acc
  = Some (set k v acc, r').
Proof. intros H. now rewrite parse_members_step, H. Qed.

Lemma parse_members_more fuel k tail acc v r' :
  JSON.parse_value fuel tail = Some (v, String "," r') ->
  JSON.parse_members (S fuel) (JSON.quote k ++ String ":" tail) acc
  = JSON.parse_members fuel r' (set k v acc).
Proof. intros H. now rewrite parse_members_step, H. Qed.

(** *** What the printer emits *)

Lemma json_like_serialize (v : JsVal) :
  json_like v = true -> JSON.serialize v = Some (text_of v).
Proof.
  intros H. unfold text_of. destruct v; try discriminate H; try reflexivity.
  now destruct b.
Qed.

Lemma serialize_array (items : list JsVal) :
  JSON.serialize (JArr items)
  = Some ("[" ++ JSON.join "," (List.map text_of items) ++ "]").
Proof. reflexivity. Qed.

Lemma serialize_object (props : Obj) :
  forallb (fun kv => json_like (snd kv)) props = true ->
  JSON.serialize (JObj props)
  = Some ("{" ++ JSON.join "," (List.map member_text props) ++ "}").
Proof.
  intros H. cbn [JSON.serialize]. do 4 f_equal.
  induction props as [|[k x] l IH]; [reflexivity|].
  cbn [forallb snd] in H. apply andb_prop in H as [Hx Hl].
  cbn [List.map]. rewrite <- (IH Hl). unfold member_text at 1.
  cbn [fst snd]. now rewrite (json_like_serialize x Hx).
Qed.

Lemma join_cons (sep x y : string) (l : list string) :
  JSON.join sep (x :: y :: l) = x ++ sep ++ JSON.join sep (y :: l).
Proof. reflexivity. Qed.

Lemma digit_starts (c : ascii) (d : nat) :
  JSON.digit_of c = Some d ->
  JSON.is_ws c = false /\ Nat.eqb (nat_of_ascii c) 93 = false.
Proof.
  destruct c as [[] [] [] [] [] [] [] []]; intros H;
    vm_compute in H; try discriminate H; split; reflexivity.
Qed.

(** The text of a value starts with a character that is neither white
    space nor a closing bracket. *)
Lemma text_of_starts (v : JsVal) :
  json_like v = true ->
  exists c t, text_of v = String c t
              /\ JSON.is_ws c = false
              /\ Nat.eqb (nat_of_ascii c) 93 = false.
Proof.
  intros H. destruct v as [| |b|n|s| | |items|props]; try discriminate H.
  - now exists "n"%char, "ull".
  - destruct b; [now exists "t"%char, "rue"|now exists "f"%char, "alse"].
  - unfold text_of. cbn [JSON.serialize]. unfold JSON.print_Z.
    destruct n as [|p|p].
    + now exists "0"%char, "".
    + change (NilZero.string_of_int (Z.to_int (Z.pos p)))
        with (NilZero.string_of_uint (Pos.to_uint p)).
      rewrite string_of_uint_pos.
      destruct (string_of_uint_digit p) as (c & t & d & E & Hd).
      exists c, t. split; [exact E|]. exact (digit_starts c d Hd).
    + now exists "-"%char, (NilZero.string_of_uint (Pos.to_uint p)).
  - now exists JSON.dquote, (JSON.escape s ++ String JSON.dquote "").
  - unfold text_of. rewrite serialize_array.
    now exists "["%char, (JSON.join "," (List.map text_of items) ++ "]").
  - unfold text_of. cbn [JSON.serialize].
    eexists "{"%char, _. split; [reflexivity|]. now split.
Qed.

Lemma set_fresh (k : string) (v : JsVal) (acc : Obj) :
  hasOwnProperty k acc = false -> set k v acc = (acc ++ [(k, v)])%list.
Proof.
  induction acc as [|[k' v'] acc IH]; [reflexivity|]. simpl.
  destruct (String.eqb k k'); [discriminate|]. intros H. now rewrite IH.
Qed.

Lemma distinct_fresh (k : string) (v : JsVal) (acc l : Obj) :
  distinct (List.map fst (acc ++ (k, v) :: l)%list) = true ->
  hasOwnProperty k acc = false.
Proof.
  induction acc as [|[k' v'] acc IH]; [reflexivity|].
  cbn [app List.map fst distinct hasOwnProperty]. intros H.
  apply andb_prop in H as [Hk Hd].
  rewrite List.map_app, existsb_app in Hk. cbn [List.map fst existsb] in Hk.
  rewrite String.eqb_sym.
  destruct (String.eqb k' k); [|now apply IH].
  now rewrite orb_true_r in Hk.
Qed.

(** Parsing what was printed gives the value back.  The three parts
    follow the three mutually recursive functions of the parser: a value,
    the elements of a non-empty array up to its closing bracket, and the
    members of a non-empty object up to its closing brace. *)
Lemma parse_printed (fuel : nat) :
  (forall v rest,
     json_like v = true ->
     (String.length (text_of v) < fuel)%nat ->
     ends_token rest = true ->
     JSON.parse_value fuel (text_of v ++ rest) = Some (v, rest))
  /\ (forall items rest,
        items <> [] ->
        forallb json_like items = true ->
        (String.length (JSON.join "," (List.map text_of items)) + 1 < fuel)%nat ->
        JSON.parse_elements fuel
          (JSON.join "," (List.map text_of items) ++ String "]" rest)
        = Some (items, rest))
  /\ (forall props acc rest,
        props <> [] ->
        forallb (fun kv => json_like (snd kv)) props = true ->
        distinct (List.map fst (acc ++ props)%list) = true ->
        (String.length (JSON.join "," (List.map member_text props)) + 1
         < fuel)%nat ->
        JSON.parse_members fuel
          (JSON.join "," (List.map member_text props) ++ String "}" rest) acc
        = Some ((acc ++ props)%list, rest)).
Proof.
  induction fuel as [|fuel (IHv & IHe & IHm)];
    [repeat split; intros; lia|].
  repeat split.
  - intros v rest Hj Hlen He.
    destruct v as [| |b|n|s| | |items|props]; try discriminate Hj.
    + apply parse_value_null.
    + destruct b; [apply parse_value_true|apply parse_value_false].
    + now apply parse_value_number.
    + apply parse_value_string.
    + change (text_of (JArr items))
        with (String "[" (JSON.join "," (List.map text_of items) ++ "]")) in *.
      rewrite append_cons, append_assoc, append_cons, append_nil.
      rewrite parse_value_array.
      cbn [String.length] in Hlen. rewrite length_append in Hlen.
      cbn [String.length] in Hlen.
      cbn [json_like] in Hj.
      destruct items as [|x l]; [reflexivity|].
      cbn [forallb] in Hj. pose proof Hj as Hjx.
      apply andb_prop in Hjx as [Hx _].
      destruct (text_of_starts x Hx) as (c & t & E & Hws & Hc).
      assert (Hs : exists s2,
                 JSON.join "," (List.map text_of (x :: l)) ++ String "]" rest
                 = String c s2).
      { cbn [List.map]. destruct (List.map text_of l);
          [cbn [JSON.join]|rewrite join_cons, append_assoc];
          rewrite E, append_cons; eauto. }
      destruct Hs as (s2 & Hs).
      rewrite (IHe (x :: l) rest); [|discriminate|exact Hj|lia].
      rewrite Hs. cbn [JSON.skip_ws]. now rewrite Hws, Hc.
    + cbn [json_like] in Hj. apply andb_prop in Hj as [Hj Hd].
      assert (Et : text_of (JObj props)
                   = String "{" (JSON.join "," (List.map member_text props)
                                 ++ "}")).
      { unfold text_of. now rewrite (serialize_object props Hj). }
      rewrite Et in *. clear Et.
      rewrite append_cons, append_assoc, append_cons, append_nil.
      rewrite parse_value_object.
      cbn [String.length] in Hlen. rewrite length_append in Hlen.
      cbn [String.length] in Hlen.
      destruct props as [|[k x] l]; [reflexivity|].
      assert (Hs : exists s2,
                 JSON.join "," (List.map member_text ((k, x) :: l))
                 ++ String "}" rest
                 = String JSON.dquote s2).
      { cbn [List.map]. unfold member_text at 1. cbn [fst snd].
        destruct (List.map member_text l);
          [cbn [JSON.join]|rewrite join_cons, append_assoc];
          rewrite append_assoc, quote_unfold; eauto. }
      destruct Hs as (s2 & Hs).
      rewrite (IHm ((k, x) :: l) [] rest);
        [|discriminate|exact Hj|exact Hd|lia].
      now rewrite Hs.
  - intros items rest Hne Hj Hlen.
    destruct items as [|x l]; [now elim Hne|]. clear Hne.
    cbn [forallb] in Hj. apply andb_prop in Hj as [Hx Hl].
    destruct l as [|y l].
    + cbn [List.map JSON.join] in *.
      apply parse_elements_last. apply IHv; [exact Hx|lia|reflexivity].
    + cbn [List.map] in *. rewrite join_cons in *.
      rewrite !length_append in Hlen. cbn [String.length] in Hlen.
      rewrite !append_assoc, append_cons, append_nil.
      erewrite parse_elements_more; [|apply IHv; [exact Hx|lia|reflexivity]].
      pose proof (IHe (y :: l) rest) as He. cbn [List.map] in He.
      rewrite He; [reflexivity|discriminate|exact Hl|lia].
  - intros props acc rest Hne Hj Hd Hlen.
    destruct props as [|[k x] l]; [now elim Hne|]. clear Hne.
    cbn [forallb snd] in Hj. apply andb_prop in Hj as [Hx Hl].
    pose proof (set_fresh k x acc (distinct_fresh k x acc l Hd)) as Hset.
    destruct l as [|m l].
    + cbn [List.map JSON.join] in *. unfold member_text in *.
      cbn [fst snd] in *.
      rewrite !length_append in Hlen. cbn [String.length] in Hlen.
      rewrite !append_assoc, append_cons, append_nil.
      erewrite parse_members_last; [|apply IHv; [exact Hx|lia|reflexivity]].
      now rewrite Hset.
    + cbn [List.map] in *. rewrite join_cons in *.
      unfold member_text at 1. unfold member_text at 1 in Hlen.
      cbn [fst snd] in *.
      rewrite !length_append in Hlen. cbn [String.length] in Hlen.
      rewrite !append_assoc, append_cons, append_nil.
      erewrite parse_members_more; [|apply IHv; [exact Hx|lia|reflexivity]].
      rewrite Hset.
      pose proof (IHm (m :: l) (acc ++ [(k, x)])%list rest) as Hm.
      cbn [List.map] in Hm. rewrite <- !app_assoc in Hm.
      rewrite Hm; [reflexivity|discriminate|exact Hl|exact Hd|lia].
Qed.

(** [JSON.parse(JSON.stringify(v))] is [v] for every JSON-like [v]. *)
Lemma parse_serialize (v : JsVal) :
  json_like v = true -> JSON.parse (text_of v) = Some v.
Proof.
  intros H. unfold JSON.parse.
  destruct (parse_printed (S (String.length (text_of v)))) as (Hv & _).
  specialize (Hv v "" H (Nat.lt_succ_diag_r _) eq_refl).
  rewrite append_empty in Hv. now rewrite Hv.
Qed.

(** ** Blob round trips *)

(** *** Blobs that are objects or arrays *)

Lemma text_of_truthy (v : JsVal) :
  json_like v = true -> truthy (JStr (text_of v)) = true.
Proof.
  intros H. destruct (text_of_starts v H) as (c & t & E & _).
  now rewrite E.
Qed.

(** [_parseJSON] undoes [JSON.stringify]. *)
Lemma parseJSON_stringify (v : JsVal) :
  json_like v = true -> _parseJSON (JSON.stringify v) = v.
Proof.
  intros H. unfold JSON.stringify. rewrite (json_like_serialize v H).
  unfold _parseJSON. rewrite (text_of_truthy v H). cbn [negb JSON.ToString].
  now rewrite (parse_serialize v H).
Qed.

Lemma stored_object (v : JsVal) :
  json_like v = true -> is_object v = true ->
  to_js (stored v) = JSON.stringify v.
Proof.
  intros Hj Ho. unfold JSON.stringify.
  destruct v; try discriminate Ho; try discriminate Hj;
    unfold stored; now rewrite json_like_serialize.
Qed.

Lemma stored_json_text (v : JsVal) :
  json_like v = true -> to_js (stored_json v) = JSON.stringify v.
Proof.
  intros Hj. unfold stored_json, JSON.stringify.
  now rewrite json_like_serialize.
Qed.

Lemma stringify_truthy (v : JsVal) :
  json_like v = true -> truthy (JSON.stringify v) = true.
Proof.
  intros H. unfold JSON.stringify. rewrite (json_like_serialize v H).
  now apply text_of_truthy.
Qed.

Lemma get_blob_column (name : string) (row : TopicRow.t) (c : TopicColumn) :
  is_blob c = true ->
  truthy (to_js (column c row)) = true ->
  get (field_of c) (_deserializeTopicRow (TopicRow.object name row))
  = _parseJSON (to_js (column c row)).
Proof.
  intros Hb Ht. unfold _deserializeTopicRow. cbv zeta.
  rewrite !get_set_if.
  destruct c; try discriminate Hb; cbn [field_of column] in *;
    cbn [TopicRow.object get String.eqb Ascii.eqb Bool.eqb] in *;
    rewrite Ht; cbn [andb]; rewrite ?andb_false_r; reflexivity.
Qed.

Lemma get_tags_column (name : string) (row : TopicRow.t) :
  truthy (to_js (TopicRow.tags row)) = true ->
  get "tags" (_deserializeTopicRow (TopicRow.object name row))
  = _parseJSON (to_js (TopicRow.tags row)).
Proof.
  intros Ht. unfold _deserializeTopicRow. cbv zeta.
  rewrite !get_set_if.
  cbn [TopicRow.object get String.eqb Ascii.eqb Bool.eqb] in *.
  rewrite Ht. cbn [andb]. rewrite ?andb_false_r. reflexivity.
Qed.

Lemma get_loaded_tags (topic src : Obj) :
  isArray (get "tags" src) = true ->
  get "_tags" (deserializeTopic topic src) = get "tags" src.
Proof.
  intros H. unfold deserializeTopic. cbv zeta. rewrite H.
  assert (Hk : forall k v o,
             String.eqb "_tags" k = false ->
             get "_tags" (set k v o) = get "_tags" o).
  { intros k v o E. now rewrite get_set, E. }
  rewrite (Hk "unread"), (Hk "read"), (Hk "seq") by reflexivity.
  destruct (truthy (get "acs" src)); unfold setAccessMode;
    rewrite ?(Hk "acs") by reflexivity; now rewrite get_set.
Qed.

(** Blob-valued attributes whose value is an object or an array of
    JSON-like shape come back as they were stored: the content and head
    of a message, the blob columns of a topic, its tag set; and so does a
    user's public value of any JSON-like shape. *)
Theorem object_blobs_round_trip (v : JsVal) :
  json_like v = true ->
  (is_object v = true ->
   forall msg topic seq row,
     written_by msg = Some ((topic, seq), row) ->
     (get "content" msg = v ->
      get "content" (load_message ((topic, seq), row)) = v)
     /\ (get "head" msg = v ->
         get "head" (load_message ((topic, seq), row)) = v))
  /\ (is_object v = true ->
      forall topic name old c,
        is_blob c = true ->
        hasOwnProperty (field_of c) (own topic) = true ->
        get (field_of c) (own topic) = v ->
        get (field_of c)
          (_deserializeTopicRow (TopicRow.object name (patch old topic))) = v)
  /\ (isArray v = true ->
      forall topic name old start,
        get "_tags" (own topic) = v ->
        get "_tags" (load_topic name (patch old topic) start) = v)
  /\ (forall uid, get "public" (user_of_row
                                  [("uid", JStr uid);
                                   ("public", JSON.stringify v)]) = v).
Proof.
  intros Hj. split; [|split; [|split]].
  - intros Ho msg topic seq row W.
    apply written_by_fields in W as (_ & _ & Hc & Hh & _).
    unfold load_message, _deserializeMessageRow, msg_object. cbv zeta.
    cbn [fst snd]. rewrite !get_set_if.
    cbn [MsgRow.object get String.eqb Ascii.eqb Bool.eqb].
    rewrite Hc, Hh. split; intros E; rewrite E;
      rewrite (stored_object v Hj Ho), (stringify_truthy v Hj);
      cbn [andb]; rewrite ?andb_false_r;
      now rewrite (parseJSON_stringify v Hj).
  - intros Ho topic name old c Hb Hp E.
    assert (Hcol : column c (patch old topic) = stored v).
    { destruct c; try discriminate Hb; simpl in *; unfold patched;
        now rewrite Hp, E. }
    rewrite get_blob_column; [|exact Hb|]; rewrite Hcol, (stored_object v Hj Ho).
    + now apply parseJSON_stringify.
    + now apply stringify_truthy.
  - intros Ha topic name old start E. unfold load_topic.
    assert (Hcol : TopicRow.tags (patch old topic) = stored_json v).
    { simpl. now rewrite E, Ha. }
    assert (Ht : get "tags" (_deserializeTopicRow
                               (TopicRow.object name (patch old topic))) = v).
    { rewrite get_tags_column; rewrite Hcol, (stored_json_text v Hj).
      - now apply parseJSON_stringify.
      - now apply stringify_truthy. }
    rewrite get_loaded_tags; rewrite Ht; [reflexivity|exact Ha].
  - intros uid. unfold user_of_row.
    cbn [get String.eqb Ascii.eqb Bool.eqb].
    now apply parseJSON_stringify.
Qed.

(** C7 fails on the code for a plain-text message: [addMessage] stores
    the string content as it is, [readMessages] passes every stored
    content through [JSON.parse], and the text of a plain string is not
    JSON, so the message comes back with [content = null]. *)
Theorem plain_text_content_is_lost :
  let msg := [("topic", JStr "grp1"); ("seq", JNum 1);
              ("content", JStr "hello")] in
  exists s1 s2 loaded,
    addMessage msg (ready_store empty_database) = (inr tt, s1)
    /\ messages (disk s1) !! ("grp1", 1)
       = Some (MsgRow.mk SqlNull SqlNull SqlNull SqlNull (SqlText "hello"))
    /\ readMessages "grp1" None false s1 = (inr [loaded], s2)
    /\ get "content" msg = JStr "hello"
    /\ get "content" loaded = JNull.
Proof.
  intros msg. eexists. eexists. eexists.
  split; [vm_compute; reflexivity|].
  split; [vm_compute; reflexivity|].
  split; [vm_compute; reflexivity|].
  split; reflexivity.
Qed.

(** The same happens to a string-valued [public] of a topic. *)
Example string_public_is_lost :
  let topic := mkTopicArg [("name", JStr "grp1"); ("public", JStr "hello")] None in
  exists s1 s2 loaded,
    updTopic topic (ready_store empty_database) = (inr tt, s1)
    /\ mapTopics false s1 = (inr [loaded], s2)
    /\ get "public" loaded = JNull.
Proof.
  intros topic. eexists. eexists. eexists.
  split; [vm_compute; reflexivity|].
  split; [vm_compute; reflexivity|reflexivity].
Qed.

(** The sibling path: [updUser] stringifies whatever it is given, and a
    string-valued profile comes back unchanged. *)
Example user_public_round_trips :
  exists s1 s2,
    updUser "usrA" (JStr "hello") (ready_store empty_database) = (inr tt, s1)
    /\ getUser "usrA" s1
       = (inr (Some [("uid", JStr "usrA"); ("public", JStr "hello")]), s2).
Proof.
  eexists. eexists.
  split; [vm_compute; reflexivity|vm_compute; reflexivity].
Qed.

(** Object-valued content does come back. *)
Example object_content_round_trips :
  let content := JObj [("txt", JStr "hi"); ("fmt", JArr [JObj [("len", JNum 2)]])] in
  let msg := [("topic", JStr "grp1"); ("seq", JNum 1); ("content", content)] in
  exists s1 s2 loaded,
    addMessage msg (ready_store empty_database) = (inr tt, s1)
    /\ readMessages "grp1" None false s1 = (inr [loaded], s2)
    /\ get "content" loaded = content.
Proof.
  intros content msg. eexists. eexists. eexists.
  split; [vm_compute; reflexivity|].
  split; [vm_compute; reflexivity|reflexivity].
Qed.

(** ** Worked runs *)

(** A stale handle on the first try: the store closes the handle, opens
    a new one, runs the schema statements and tries once more. *)
Example recovery_run :
  let s := mkStore true (Some 0%nat) sample_database [Some stale] [] [] [] 0 in
  let '(r, s') := remUser "usrA" s in
  r = inr tt
  /\ List.map call (trace s')
     = [ Execute 0 (DELETE_FROM_users_WHERE_uid "usrA");
         CloseDatabase 0;
         OpenDatabase;
         Execute 2 PRAGMA_journal_mode_WAL;
         Execute 2 (CREATE_TABLE_IF_NOT_EXISTS "topics");
         Execute 2 (CREATE_TABLE_IF_NOT_EXISTS "users");
         Execute 2 (CREATE_TABLE_IF_NOT_EXISTS "subscriptions");
         Execute 2 (CREATE_TABLE_IF_NOT_EXISTS "messages");
         Execute 2 (CREATE_TABLE_IF_NOT_EXISTS "dellog");
         Execute 2 CREATE_INDEX_IF_NOT_EXISTS_idx_dellog_topic_clear;
         Execute 2 (DELETE_FROM_users_WHERE_uid "usrA") ]
  /\ attempts s' = 2%nat /\ _db s' = Some 2%nat /\ isReady s' = true.
Proof. vm_compute. repeat split. Qed.

(** The retry fails again: its error reaches the caller, and there is no
    third try. *)
Example second_failure_propagates :
  let again := mkError "database is not open" in
  let script := [Some stale; None; None; None; None; None; None; None; None;
                 None; Some again] in
  let s := mkStore true (Some 0%nat) sample_database script [] [] [] 0 in
  let '(r, s') := remUser "usrA" s in
  r = inl again /\ attempts s' = 2%nat /\ length (trace s') = 11%nat.
Proof. vm_compute. repeat split. Qed.

(** Re-initialisation fails: the original error reaches the caller and
    the store is left not ready. *)
Example failed_recovery_propagates :
  let script := [Some stale; None; Some (mkError "cannot open")] in
  let s := mkStore true (Some 0%nat) sample_database script [] [] [] 0 in
  let '(r, s') := remUser "usrA" s in
  r = inl stale /\ attempts s' = 1%nat /\ isReady s' = false.
Proof. vm_compute. repeat split. Qed.

Lemma stale_handle_recovery_witness :
  let operation := runAsync (DELETE_FROM_users_WHERE_uid "usrA") in
  let s := mkStore true (Some 0%nat) sample_database [Some stale] [] [] [] 0 in
  (attempts s < attempts (snd (_withRecovery operation s)) <= attempts s + 2)%nat.
Proof.
  intros operation s.
  refine (proj2 (stale_handle_recovery operation s _)).
  unfold operation. frame.
Defined.

Lemma remTopic_removes_topic_atomically_witness :
  exists s', remTopic "grp1" (ready_store sample_database) = (inr tt, s').
Proof.
  exact (proj1 (proj2 (remTopic_removes_topic_atomically "grp1"
           (ready_store sample_database) eq_refl)) eq_refl).
Defined.

Lemma addMessage_is_idempotent_replace_witness :
  let first :=
    [ ("topic", JStr "grp1"); ("seq", JNum 5);
      ("ts", JDate "2024-01-01T00:00:00.000Z");
      ("content", JObj [("txt", JStr "one")]) ] in
  let second :=
    [ ("topic", JStr "grp1"); ("seq", JNum 5);
      ("ts", JDate "2024-01-01T00:00:00.000Z");
      ("content", JObj [("txt", JStr "two")]) ] in
  exists s1 s2,
    addMessage first (ready_store sample_database) = (inr tt, s1)
    /\ isReady s1 = true
    /\ addMessage second s1 = (inr tt, s2).
Proof.
  intros first second.
  refine (proj1 (proj2 (addMessage_is_idempotent_replace first second "grp1" 5
            (ready_store sample_database) _ _ _)) _); reflexivity.
Defined.

Lemma updTopic_has_patch_semantics_witness :
  let incoming := mkTopicArg [("name", JStr "grp1"); ("seq", JNum 10)] None in
  exists s', updTopic incoming (ready_store sample_topics) = (inr tt, s').
Proof.
  intros incoming.
  refine (proj1 (proj2 (updTopic_has_patch_semantics incoming "grp1"
            sample_topic_row (ready_store sample_topics) _ _ _ _)) _);
    reflexivity.
Defined.

(** * Further properties of the store *)

(** ** What an operation leaves alone *)

Section TableFrame.
Context {X : Type} (p : Database -> X).

Lemma preserves_statement_keeps st :
  keeps p st -> preserves (fun s => p (disk s)) (statement st).
Proof.
  intros H s. unfold statement.
  destruct (_db s); [|reflexivity].
  destruct (next_fault s); [reflexivity|].
  destruct (exec st (disk s)) as [e|[rows d]] eqn:E; [reflexivity|].
  simpl. exact (H _ _ _ E).
Qed.

Lemma preserves_of_disk {A} (c : M A) :
  preserves disk c -> preserves (fun s => p (disk s)) c.
Proof. intros H s. now rewrite H. Qed.

Lemma preserves_transaction (task : M unit) :
  preserves (fun s => p (disk s)) task ->
  preserves (fun s => p (disk s)) (withTransactionAsync task).
Proof.
  intros Ht s. unfold withTransactionAsync, try_catch.
  assert (Hbody : preserves (fun s => p (disk s))
                    (run execAsync BEGIN in run task in execAsync COMMIT)).
  { apply preserves_and_then.
    - apply preserves_of_disk. frame.
    - intros _. apply preserves_and_then; [exact Ht|].
      intros _. apply preserves_of_disk. frame. }
  specialize (Hbody s). cbv beta in Hbody.
  destruct (and_then _ _ s) as [[e|[]] s0]; [|exact Hbody].
  cbv beta. unfold and_then at 1. unfold update at 1.
  assert (Hr : preserves disk (run execAsync ROLLBACK in @reject unit e))
    by frame.
  specialize (Hr (set_disk (disk s) s0)). cbv beta in Hr.
  now rewrite Hr.
Qed.

Lemma preserves_attempt {A} (op : M A) :
  preserves (fun s => p (disk s)) op ->
  preserves (fun s => p (disk s)) (attempt op).
Proof. intros H s. exact (H (count_attempt s)). Qed.

Lemma preserves_withRecovery {A} (op : M A) :
  preserves (fun s => p (disk s)) op ->
  preserves (fun s => p (disk s)) (_withRecovery op).
Proof.
  intros H. unfold _withRecovery.
  apply preserves_try_catch; [now apply preserves_attempt|].
  intros e. destruct (isStaleHandle e); [|apply preserves_reject].
  apply preserves_and_then.
  - apply preserves_of_disk, recoverDatabase_keeps_disk.
  - intros [|]; [now apply preserves_attempt|apply preserves_reject].
Qed.

Lemma preserves_guarded {A} (empty : A) (op : M A) :
  preserves (fun s => p (disk s)) op ->
  preserves (fun s => p (disk s)) (guarded empty op).
Proof.
  intros H s. unfold guarded.
  destruct (negb (isReady s)); [reflexivity|].
  now apply preserves_withRecovery.
Qed.

Lemma preserves_call_back callback args :
  preserves (fun s => p (disk s)) (call_back callback args).
Proof. apply preserves_of_disk, call_back_keeps_disk. Qed.

End TableFrame.

Lemma keeps_statement (st : Statement) (t : Table) :
  written_table st <> Some t -> keeps (content t) st.
Proof.
  intros H d rows d'.
  destruct st; simpl;
    repeat match goal with
           | |- context [match ?x with _ => _ end] => destruct x
           end;
    intros E; inversion E; subst; clear E; try reflexivity;
    destruct t; try reflexivity; now elim H.
Qed.

Lemma readMessages_ranges_keeps {X} (p : Database -> X) topicName callback
    ranges result :
  (forall st, written_table st = None -> keeps p st) ->
  preserves (fun s => p (disk s))
    (readMessages_ranges topicName callback ranges result).
Proof.
  intros Hk. revert result.
  induction ranges as [|range rest IH]; intros result; [apply preserves_resolve|].
  cbn [readMessages_ranges]. apply preserves_and_then.
  - destruct (hi range) as [h|]; [destruct (Z.eqb h 0)|];
      apply preserves_statement_keeps, Hk; reflexivity.
  - intros msgs. apply preserves_and_then; [apply preserves_call_back|].
    intros _. apply IH.
Qed.

Lemma readDelLog_ranges_keeps {X} (p : Database -> X) topicName ranges result :
  (forall st, written_table st = None -> keeps p st) ->
  preserves (fun s => p (disk s)) (readDelLog_ranges topicName ranges result).
Proof.
  intros Hk. revert result.
  induction ranges as [|range rest IH]; intros result; [apply preserves_resolve|].
  cbn [readDelLog_ranges]. apply preserves_and_then.
  - apply preserves_statement_keeps, Hk. reflexivity.
  - intros entries. apply IH.
Qed.

Lemma keeps_reading (t : Table) (st : Statement) :
  written_table st = None -> keeps (content t) st.
Proof. intros H. apply keeps_statement. now rewrite H. Qed.

Ltac table_step :=
  lazymatch goal with
  | |- preserves _ (guarded _ _) => apply preserves_guarded
  | |- preserves _ (withTransactionAsync _) => apply preserves_transaction
  | |- preserves _ (and_then _ _) => apply preserves_and_then
  | |- preserves _ (for_each _ _) => apply preserves_for_each
  | |- preserves _ (call_back _ _) => apply preserves_call_back
  | |- preserves _ (resolve _) => apply preserves_resolve
  | |- preserves _ (reject _) => apply preserves_reject
  | |- preserves _ (readMessages_ranges _ _ _ _) =>
      apply readMessages_ranges_keeps, keeps_reading
  | |- preserves _ (readDelLog_ranges _ _ _) =>
      apply readDelLog_ranges_keeps, keeps_reading
  | |- preserves _ (statement _) =>
      apply preserves_statement_keeps, keeps_statement; cbn; discriminate
  | |- preserves _ (execAsync _) => unfold execAsync
  | |- preserves _ (runAsync _) => unfold runAsync
  | |- preserves _ (getAllAsync _) => unfold getAllAsync
  | |- preserves _ (getFirstAsync _) => unfold getFirstAsync
  | |- preserves _ (match ?x with _ => _ end) => destruct x
  | |- forall _, _ => intro; cbv beta
  end.

(** X1: an operation changes no table beyond those its own INSERT,
    UPDATE and DELETE statements name, whatever the engine does: the
    enumerations and reads change nothing at all, and a write to one
    entity leaves the tables of the other entities as they were. *)
Theorem operations_write_only_their_tables (r : Request) (t : Table)
    (s : Store) :
  writes r t = false ->
  content t (disk (snd (perform r s))) = content t (disk s).
Proof.
  intros H.
  assert (P : preserves (fun s => content t (disk s)) (perform r)).
  { destruct r; destruct t; try discriminate H;
      unfold perform, void, array, object_or_undefined,
        updTopic, markTopicAsDeleted, remTopic, mapTopics, updUser, remUser,
        mapUsers, getUser, updSubscription, mapSubscriptions, addMessage,
        updMessageStatus, remMessages, readMessages, addDelLog, readDelLog,
        maxDelId;
      cbv zeta; repeat table_step. }
  exact (P s).
Qed.

Lemma operations_write_only_their_tables_witness :
  content Users (disk (snd (perform (RemTopic "grp1")
                             (ready_store sample_database))))
  = content Users (disk (ready_store sample_database)).
Proof.
  apply (operations_write_only_their_tables (RemTopic "grp1") Users).
  reflexivity.
Defined.

(** ** Opening, deleting and recovering the database *)

Lemma engine_frame_ready : engine_frame _ready.
Proof. split; reflexivity. Qed.
Lemma disk_frame_ready : disk_frame _ready.
Proof. intros d s. reflexivity. Qed.
Lemma engine_frame_db : engine_frame _db.
Proof. split; reflexivity. Qed.
Lemma disk_frame_db : disk_frame _db.
Proof. intros d s. reflexivity. Qed.
Lemma engine_frame_reported : engine_frame reported.
Proof. split; reflexivity. Qed.
Lemma disk_frame_reported : disk_frame reported.
Proof. intros d s. reflexivity. Qed.

Ltac pframe E D :=
  repeat lazymatch goal with
         | |- preserves _ (and_then _ _) => apply preserves_and_then
         | |- preserves _ (try_catch _ _) => apply preserves_try_catch
         | |- preserves _ (update _) => apply preserves_update
         | |- preserves _ (resolve _) => apply preserves_resolve
         | |- preserves _ (reject _) => apply preserves_reject
         | |- preserves _ (inspect _) => apply preserves_inspect
         | |- preserves _ (statement _) => apply (preserves_statement _ E D)
         | |- preserves _ openDatabaseAsync =>
             apply (preserves_openDatabaseAsync _ E)
         | |- preserves _ (closeAsync _) => apply (preserves_closeAsync _ E)
         | |- preserves _ (execAsync _) => unfold execAsync
         | |- forall _, _ => intro; cbv beta
         | |- _ = _ => reflexivity
         end.

(** The part of [initDatabase] between opening the file and raising the
    ready flag. *)
Lemma schema_keeps {X} (proj : Store -> X) :
  engine_frame proj -> disk_frame proj ->
  preserves proj (run execAsync PRAGMA_journal_mode_WAL in _createTables).
Proof. intros E D. unfold _createTables. pframe E D. Qed.

Lemma schema_keeps_disk :
  preserves disk (run execAsync PRAGMA_journal_mode_WAL in _createTables).
Proof. unfold _createTables. frame. Qed.

Lemma initDatabase_cases (s : Store) :
  match openDatabaseAsync s with
  | (inl e, s1) => initDatabase s = (inl e, log_reported e s1)
  | (inr h, s1) =>
      match (run execAsync PRAGMA_journal_mode_WAL in _createTables)
              (set_db (Some h) s1) with
      | (inl e, s2) => initDatabase s = (inl e, log_reported e s2)
      | (inr _, s2) => initDatabase s = (inr h, set_ready true s2)
      end
  end.
Proof.
  unfold initDatabase, _createTables, try_catch, and_then, update, resolve,
    reject.
  destruct (openDatabaseAsync s) as [[e|h] s1]; [reflexivity|].
  repeat match goal with
         | |- context [execAsync ?st ?s] =>
             destruct (execAsync st s) as [[?|[]] ?]; try reflexivity
         end.
Qed.

Lemma calm_next_fault s : calm s = true -> next_fault s = None.
Proof.
  unfold calm, next_fault. destruct (faults s) as [|[e|] f]; simpl; congruence.
Qed.

Lemma calm_drop_fault s : calm s = true -> calm (drop_fault s) = true.
Proof.
  unfold calm. simpl. destruct (faults s) as [|o f]; simpl; [reflexivity|].
  intros H. now apply andb_true_iff in H as [_ H].
Qed.

Lemma schema_as_loop (s : Store) :
  (run execAsync PRAGMA_journal_mode_WAL in _createTables) s
  = for_each schema_statements execAsync s.
Proof.
  unfold _createTables, schema_statements, for_each, and_then, resolve.
  repeat match goal with
         | |- context [execAsync ?st ?s] =>
             destruct (execAsync st s) as [[?|[]] ?]; try reflexivity
         end.
Qed.

(** Statements that answer nothing and change nothing, sent one after
    the other through an open handle while the engine does not fail. *)
Lemma for_each_exec_calm (sts : list Statement) (s : Store) (h : nat) :
  calm s = true -> _db s = Some h ->
  (forall st d, In st sts -> exec st d = inr ([], d)) ->
  exists s',
    for_each sts execAsync s = (inr tt, s')
    /\ calm s' = true
    /\ trace s'
       = (trace s ++ List.map (fun st => mkEvent (Execute h st) None) sts)%list
    /\ disk s' = disk s /\ _db s' = Some h /\ _ready s' = _ready s
    /\ reported s' = reported s /\ delivered s' = delivered s
    /\ attempts s' = attempts s.
Proof.
  revert s. induction sts as [|st sts IH]; intros s Hc Hh Hex.
  - exists s. cbn [for_each List.map]. rewrite app_nil_r. now repeat split.
  - cbn [for_each]. unfold and_then at 1, execAsync at 1, and_then at 1.
    unfold statement. rewrite Hh, (calm_next_fault s Hc).
    rewrite (Hex st (disk s) (or_introl eq_refl)).
    destruct (IH (set_disk (disk s)
                    (log_event (mkEvent (Execute h st) None) (drop_fault s))))
      as (s' & E & Hc' & Ht & Hd & Hh' & Hr & Hre & Hde & Ha).
    + exact (calm_drop_fault s Hc).
    + exact Hh.
    + intros st' d Hin. apply Hex. now right.
    + exists s'. unfold resolve. rewrite E.
      cbn [List.map]. rewrite Ht. cbn [trace set_disk log_event].
      rewrite <- app_assoc. now repeat split.
Qed.

Lemma initDatabase_resolved (s : Store) (h : nat) (s' : Store) :
  initDatabase s = (inr h, s') ->
  _ready s' = true /\ _db s' = Some h /\ disk s' = disk s
  /\ reported s' = reported s.
Proof.
  intros H. pose proof (initDatabase_cases s) as C.
  pose proof (preserves_openDatabaseAsync disk engine_frame_disk s) as Od.
  pose proof (preserves_openDatabaseAsync reported engine_frame_reported s)
    as Op.
  destruct (openDatabaseAsync s) as [[e|h0] s1]; cbn [snd] in *;
    [rewrite C in H; discriminate|].
  pose proof (schema_keeps_disk (set_db (Some h0) s1)) as Sd.
  pose proof (schema_keeps reported engine_frame_reported disk_frame_reported
                (set_db (Some h0) s1)) as Sp.
  pose proof (schema_keeps _db engine_frame_db disk_frame_db
                (set_db (Some h0) s1)) as Sh.
  destruct (and_then _ _ (set_db (Some h0) s1)) as [[e|[]] s2];
    rewrite C in H; [discriminate|].
  inversion H; subst; clear H. cbn [snd] in *.
  cbn [_ready _db disk reported set_ready].
  rewrite Sh, Sd, Sp. cbn [_db disk reported set_db].
  now rewrite Od, Op.
Qed.

Lemma initDatabase_rejected (s : Store) (e : Error) (s' : Store) :
  initDatabase s = (inl e, s') ->
  reported s' = (reported s ++ [e])%list /\ _ready s' = _ready s
  /\ disk s' = disk s.
Proof.
  intros H. pose proof (initDatabase_cases s) as C.
  pose proof (preserves_openDatabaseAsync disk engine_frame_disk s) as Od.
  pose proof (preserves_openDatabaseAsync _ready engine_frame_ready s) as Or.
  pose proof (preserves_openDatabaseAsync reported engine_frame_reported s)
    as Op.
  destruct (openDatabaseAsync s) as [[e0|h] s1]; cbn [snd] in *.
  { rewrite C in H. inversion H; subst; clear H.
    cbn [reported _ready disk log_reported]. now rewrite Od, Or, Op. }
  pose proof (schema_keeps_disk (set_db (Some h) s1)) as Sd.
  pose proof (schema_keeps _ready engine_frame_ready disk_frame_ready
                (set_db (Some h) s1)) as Sr.
  pose proof (schema_keeps reported engine_frame_reported disk_frame_reported
                (set_db (Some h) s1)) as Sp.
  destruct (and_then _ _ (set_db (Some h) s1)) as [[e'|[]] s2];
    rewrite C in H; [|discriminate].
  inversion H; subst; clear H. cbn [snd] in *.
  cbn [_ready disk reported log_reported].
  rewrite Sr, Sd, Sp. cbn [_ready disk reported set_db].
  now rewrite Od, Or, Op.
Qed.

Lemma initDatabase_calm (s : Store) :
  calm s = true ->
  exists s',
    initDatabase s = (inr (length (trace s)), s')
    /\ calm s' = true
    /\ trace s'
       = (trace s ++ mkEvent OpenDatabase None
            :: List.map (fun st => mkEvent (Execute (length (trace s)) st) None)
                 schema_statements)%list
    /\ delivered s' = delivered s /\ attempts s' = attempts s.
Proof.
  intros Hc. pose proof (initDatabase_cases s) as C.
  unfold openDatabaseAsync in C. rewrite (calm_next_fault s Hc) in C.
  rewrite schema_as_loop in C.
  destruct (for_each_exec_calm schema_statements
              (set_db (Some (length (trace s)))
                 (log_event (mkEvent OpenDatabase None) (drop_fault s)))
              (length (trace s)))
    as (s2 & E & Hc2 & Ht & _ & _ & _ & _ & Hde & Ha).
  - exact (calm_drop_fault s Hc).
  - reflexivity.
  - intros st d Hin. unfold schema_statements in Hin. simpl in Hin.
    repeat destruct Hin as [<-|Hin]; try reflexivity. now elim Hin.
  - rewrite E in C. eexists. split; [exact C|].
    split; [exact Hc2|]. cbn [trace delivered attempts set_ready].
    rewrite Ht, Hde, Ha. cbn [trace set_db log_event].
    now rewrite <- app_assoc.
Qed.

(** X2: [initDatabase].  When it resolves, the store is ready with the
    handle it resolves with.  When it rejects, the error has been passed
    to [_onError] once and the ready flag is as it was, so a store that
    was not ready stays so.  Either way the stored data are untouched.
    While the engine does not fail it resolves, after exactly these calls:
    open the file, then the WAL pragma, the five CREATE TABLE IF NOT
    EXISTS and the CREATE INDEX IF NOT EXISTS, in this order. *)
Theorem initDatabase_outcome (s : Store) :
  (forall h s',
     initDatabase s = (inr h, s') ->
     isReady s' = true /\ _db s' = Some h /\ disk s' = disk s
     /\ reported s' = reported s)
  /\ (forall e s',
        initDatabase s = (inl e, s') ->
        reported s' = (reported s ++ [e])%list /\ _ready s' = _ready s
        /\ disk s' = disk s)
  /\ (calm s = true ->
      exists h s',
        initDatabase s = (inr h, s')
        /\ calm s' = true
        /\ trace s'
           = (trace s ++ mkEvent OpenDatabase None
                :: List.map (fun st => mkEvent (Execute h st) None)
                     schema_statements)%list).
Proof.
  split; [|split].
  - intros h s' H.
    destruct (initDatabase_resolved s h s' H) as (Hr & Hh & Hd & Hp).
    unfold isReady. rewrite Hr, Hh. now repeat split.
  - intros e s' H. now apply initDatabase_rejected.
  - intros Hc. destruct (initDatabase_calm s Hc) as (s' & E & Hc' & Ht & _).
    now exists (length (trace s)), s'.
Qed.

Lemma deleteDatabase_cases (s : Store) :
  let closed :=
    match _db s with
    | Some h => and_then (closeAsync h) (fun _ => update (set_db None)) s
    | None => (inr tt, s)
    end in
  match closed with
  | (inl e, s1) => deleteDatabase s = (inl e, log_reported e s1)
  | (inr _, s1) =>
      match deleteDatabaseAsync s1 with
      | (inl e, s2) => deleteDatabase s = (inl e, log_reported e s2)
      | (inr _, s2) => deleteDatabase s = (inr true, set_ready false s2)
      end
  end.
Proof.
  unfold deleteDatabase, try_catch, and_then, inspect, update, resolve, reject.
  destruct (_db s) as [h|]; cbv zeta.
  - destruct (closeAsync h s) as [[e|[]] s1]; [reflexivity|].
    destruct (deleteDatabaseAsync _) as [[e|[]] s2]; reflexivity.
  - destruct (deleteDatabaseAsync s) as [[e|[]] s2]; reflexivity.
Qed.

Lemma deleteDatabaseAsync_resolved s s' :
  deleteDatabaseAsync s = (inr tt, s') ->
  disk s' = empty_database /\ _db s' = _db s /\ reported s' = reported s.
Proof.
  unfold deleteDatabaseAsync. destruct (next_fault s); [discriminate|].
  intros H. inversion H; subst. now repeat split.
Qed.

Lemma deleteDatabaseAsync_rejected s e s' :
  deleteDatabaseAsync s = (inl e, s') ->
  disk s' = disk s /\ _ready s' = _ready s /\ reported s' = reported s.
Proof.
  unfold deleteDatabaseAsync. destruct (next_fault s); [|discriminate].
  intros H. inversion H; subst. now repeat split.
Qed.

Lemma close_and_forget (h : nat) (s : Store) :
  match and_then (closeAsync h) (fun _ => update (set_db None)) s with
  | (inl _, s1) => _db s1 = _db s
  | (inr _, s1) => _db s1 = None
  end
  /\ let s1 := snd (and_then (closeAsync h) (fun _ => update (set_db None)) s) in
     disk s1 = disk s /\ _ready s1 = _ready s /\ reported s1 = reported s.
Proof.
  unfold and_then, closeAsync, update.
  destruct (next_fault s); cbn; now repeat split.
Qed.

(** X3: [deleteDatabase].  When it resolves, it resolves with
    true, the handle is forgotten, the store is not ready and the file
    holds nothing.  When it rejects (closing the handle or deleting the
    file failed), the data are as they were, the ready flag is as it was
    and the error has been passed to [_onError] once. *)
Theorem deleteDatabase_outcome (s : Store) :
  (forall b s',
     deleteDatabase s = (inr b, s') ->
     b = true /\ isReady s' = false /\ _db s' = None
     /\ disk s' = empty_database /\ reported s' = reported s)
  /\ (forall e s',
        deleteDatabase s = (inl e, s') ->
        disk s' = disk s /\ _ready s' = _ready s
        /\ reported s' = (reported s ++ [e])%list).
Proof.
  pose proof (deleteDatabase_cases s) as C. cbv zeta in C.
  assert (Hclosed :
    match (match _db s with
           | Some h => and_then (closeAsync h) (fun _ => update (set_db None)) s
           | None => (inr tt, s)
           end) with
    | (inl _, s1) =>
        disk s1 = disk s /\ _ready s1 = _ready s /\ reported s1 = reported s
    | (inr _, s1) =>
        _db s1 = None /\ disk s1 = disk s /\ _ready s1 = _ready s
        /\ reported s1 = reported s
    end).
  { destruct (_db s) as [h|] eqn:Hh; [|now repeat split].
    destruct (close_and_forget h s) as [H1 H2]. cbv zeta in H2.
    destruct (and_then _ _ s) as [[e|[]] s1]; cbn [snd] in *; tauto. }
  destruct (match _db s with Some _ => _ | None => _ end) as [[e|[]] s1].
  { split.
    - intros b s' H. rewrite C in H. discriminate.
    - intros e' s' H. rewrite C in H. inversion H; subst; clear H.
      destruct Hclosed as (Hd & Hr & Hp).
      cbn [disk _ready reported log_reported]. now rewrite Hd, Hr, Hp. }
  destruct Hclosed as (Hh & Hd & Hr & Hp).
  destruct (deleteDatabaseAsync s1) as [[e|[]] s2] eqn:Hdel.
  - split.
    + intros b s' H. rewrite C in H. discriminate.
    + intros e' s' H. rewrite C in H. inversion H; subst; clear H.
      apply deleteDatabaseAsync_rejected in Hdel as (Hd2 & Hr2 & Hp2).
      cbn [disk _ready reported log_reported].
      now rewrite Hd2, Hr2, Hp2, Hd, Hr, Hp.
  - split.
    + intros b s' H. rewrite C in H. inversion H; subst; clear H.
      apply deleteDatabaseAsync_resolved in Hdel as (Hd2 & Hh2 & Hp2).
      unfold isReady. cbn [disk _ready _db reported set_ready].
      now rewrite Hd2, Hh2, Hp2, Hh, Hp.
    + intros e' s' H. rewrite C in H. discriminate.
Qed.

(** X4: [_recoverDatabase] never rejects.  It resolves with true
    exactly when the store ends ready; the data are as they were; a
    recovery that fails has passed the error of [initDatabase] to
    [_onError]. *)
Theorem recoverDatabase_reports_readiness (s : Store) :
  exists b s',
    _recoverDatabase s = (inr b, s')
    /\ isReady s' = b
    /\ disk s' = disk s
    /\ length (reported s')
       = (length (reported s) + if b then 0 else 1)%nat.
Proof.
  rewrite recoverDatabase_unfold. cbv zeta.
  set (closed := match _db s with
                 | Some h => snd (closeAsync h s)
                 | None => s
                 end).
  assert (Hc : disk closed = disk s /\ reported closed = reported s).
  { unfold closed. destruct (_db s) as [h|]; [|now split].
    unfold closeAsync. now destruct (next_fault s). }
  destruct Hc as [Hd Hp].
  destruct (initDatabase (set_ready false (set_db None closed)))
    as [[e|h] s'] eqn:E.
  - apply initDatabase_rejected in E as (Hp' & Hr' & Hd').
    exists false, s'. split; [reflexivity|].
    unfold isReady. rewrite Hr', Hd', Hp'. cbn [_ready disk reported set_ready
      set_db]. rewrite Hd, Hp, length_app. cbn [length andb]. now repeat split.
  - apply initDatabase_resolved in E as (Hr' & Hh' & Hd' & Hp').
    exists true, s'. split; [reflexivity|].
    unfold isReady. rewrite Hr', Hh', Hd', Hp'.
    cbn [disk reported set_ready set_db]. rewrite Hd, Hp, Nat.add_0_r.
    now repeat split.
Qed.

(** ** Operations that are one statement *)

Lemma runAsync_computes st :
  computes (runAsync st) (fun d _ d' => exists rows, exec st d = inr (rows, d')).
Proof. intros s [] s' H. now apply runAsync_inr. Qed.

(** A guarded single statement on a ready store: resolved means the
    statement was executed on the database, rejected means the database
    is as it was. *)
Lemma guarded_statement_outcome st s r s' :
  isReady s = true -> guarded tt (runAsync st) s = (r, s') ->
  match r with
  | inr _ => exists rows, exec st (disk s) = inr (rows, disk s')
  | inl _ => disk s' = disk s
  end.
Proof.
  intros Hr H. destruct r as [e|[]].
  - exact (atomic_guarded tt _ (atomic_runAsync st) s e s' H).
  - exact (computes_guarded tt _ _ s tt s' (runAsync_computes st)
             (atomic_runAsync st) Hr H).
Qed.

Lemma guarded_statement_steady st s rows d :
  steady s -> exec st (disk s) = inr (rows, d) ->
  exists s', guarded tt (runAsync st) s = (inr tt, s') /\ steady s'
             /\ disk s' = d /\ delivered s' = delivered s.
Proof.
  intros Hs Hex.
  destruct (statement_steady st (count_attempt s) (steady_count_attempt s Hs))
    as (s' & Hs' & Hde & Hrun).
  cbn [disk count_attempt] in Hrun. rewrite Hex in Hrun.
  destruct Hrun as [Hrun Hd].
  exists s'. split; [|split; [exact Hs'|split; [exact Hd|exact Hde]]].
  apply guarded_resolved; [apply Hs|].
  unfold runAsync, and_then. now rewrite Hrun.
Qed.

(** ** Topics *)

Lemma bind_copied_new (o : Obj) (k : string) :
  bind_param
    (if String.eqb k "_deleted"
        && is_boolean (if hasOwnProperty k o then encode (get k o) else JUndef)
     then JNum (if truthy (if hasOwnProperty k o then encode (get k o)
                           else JUndef) then 1 else 0)
     else if hasOwnProperty k o then encode (get k o) else JUndef)
  = Some (patched o k SqlNull).
Proof.
  unfold patched.
  destruct (hasOwnProperty k o).
  - destruct (String.eqb k "_deleted"); simpl.
    + destruct (get k o) as [| |[|]| | | | | |]; reflexivity.
    + apply bind_encode.
  - now destruct (String.eqb k "_deleted").
Qed.

Lemma bind_field_new (dst : Obj) (topic : TopicArg) (k : string) :
  existsb (String.eqb k) TOPIC_FIELDS = true ->
  get k dst = JUndef ->
  bind_param (get k (_serializeTopic (Some dst) topic))
  = Some (patched (own topic) k SqlNull).
Proof.
  intros Hk Hold. rewrite get_serializeTopic.
  destruct (not_in_fields k Hk) as [Ha Ht]. rewrite Ha, Ht, Hk, Hold.
  rewrite !andb_false_r. cbn [andb].
  apply (bind_copied_new (own topic) k).
Qed.

Lemma bind_tags_new (dst : Obj) (topic : TopicArg) :
  get "tags" dst = JUndef ->
  bind_param (get "tags" (_serializeTopic (Some dst) topic))
  = Some (if isArray (get "_tags" (own topic))
          then stored_json (get "_tags" (own topic)) else SqlNull).
Proof.
  intros Hold. rewrite get_serializeTopic.
  change (String.eqb "tags" "acs") with false.
  change (String.eqb "tags" "tags") with true.
  change (String.eqb "tags" "_deleted") with false.
  change (existsb (String.eqb "tags") TOPIC_FIELDS) with false.
  rewrite !andb_false_r, !andb_true_r. cbn [andb]. rewrite Hold.
  destruct (isArray (get "_tags" (own topic)));
    [apply bind_stringify|reflexivity].
Qed.

Lemma bind_acs_new (dst : Obj) (topic : TopicArg) :
  get "acs" dst = JUndef ->
  bind_param (get "acs" (_serializeTopic (Some dst) topic))
  = Some (if truthy (get "acs" (own topic))
          then stored_json (match getAccessMode topic with
                            | Some json => json
                            | None => get "acs" (own topic)
                            end)
          else SqlNull).
Proof.
  intros Hold. rewrite get_serializeTopic.
  change (String.eqb "acs" "acs") with true.
  change (String.eqb "acs" "tags") with false.
  change (String.eqb "acs" "_deleted") with false.
  change (existsb (String.eqb "acs") TOPIC_FIELDS) with false.
  rewrite !andb_false_r, !andb_true_r. cbn [andb]. rewrite Hold.
  destruct (truthy (get "acs" (own topic)));
    [apply bind_stringify|reflexivity].
Qed.

(** The parameters of the INSERT when no row is stored under the name. *)
Lemma topic_params_new (name : string) (topic : TopicArg) :
  get "name" (own topic) = JStr name ->
  topic_of_params (updTopic_params (_serializeTopic None topic))
  = inr (name, patch null_topic_row topic).
Proof.
  intros Hname.
  change (_serializeTopic None topic)
    with (_serializeTopic (Some [("name", get "name" (own topic))]) topic).
  rewrite Hname.
  unfold topic_of_params, updTopic_params.
  pose (dst := [("name", JStr name)] : Obj).
  change (_serializeTopic (Some [("name", JStr name)]) topic)
    with (_serializeTopic (Some dst) topic).
  cbn [bind_all].
  rewrite get_name_serialized.
  rewrite (bind_field_new dst topic "created" eq_refl eq_refl).
  rewrite (bind_field_new dst topic "updated" eq_refl eq_refl).
  rewrite (bind_field_new dst topic "deleted" eq_refl eq_refl).
  rewrite (bind_field_new dst topic "touched" eq_refl eq_refl).
  rewrite (bind_field_new dst topic "read" eq_refl eq_refl).
  rewrite (bind_field_new dst topic "recv" eq_refl eq_refl).
  rewrite (bind_field_new dst topic "seq" eq_refl eq_refl).
  rewrite (bind_field_new dst topic "clear" eq_refl eq_refl).
  rewrite (bind_field_new dst topic "defacs" eq_refl eq_refl).
  rewrite (bind_field_new dst topic "creds" eq_refl eq_refl).
  rewrite (bind_field_new dst topic "public" eq_refl eq_refl).
  rewrite (bind_field_new dst topic "trusted" eq_refl eq_refl).
  rewrite (bind_field_new dst topic "private" eq_refl eq_refl).
  rewrite (bind_field_new dst topic "_aux" eq_refl eq_refl).
  rewrite (bind_field_new dst topic "_deleted" eq_refl eq_refl).
  rewrite (bind_tags_new dst topic eq_refl).
  rewrite (bind_acs_new dst topic eq_refl).
  reflexivity.
Qed.

Lemma select_missing_topic (name : string) (d : Database) :
  topics d !! name = None ->
  rows_of (SELECT_topics_WHERE_name (JStr name)) d = [].
Proof. intros H. unfold rows_of. simpl. now rewrite H. Qed.

(** What a resolved [updTopic] has written, given the parameters its
    INSERT binds. *)
Lemma updTopic_resolved (topic : TopicArg) (name : string) (row : TopicRow.t)
    (s s' : Store) :
  isReady s = true ->
  truthy (get "_new" (own topic)) = false ->
  topic_of_params
    (updTopic_params
       (_serializeTopic
          (head (rows_of (SELECT_topics_WHERE_name (get "name" (own topic)))
                   (disk s)))
          topic))
  = inr (name, row) ->
  updTopic topic s = (inr tt, s') ->
  disk s' = with_topics (insert name row) (disk s).
Proof.
  intros Hr Hnew Hp H. unfold updTopic in H. rewrite Hnew in H.
  fold (updTopic_body topic) in H.
  destruct (updTopic_body_computes topic) as [Hc Ha].
  apply (computes_guarded tt _ _ s tt s' Hc Ha Hr) in H
    as (name' & row' & E & ->).
  rewrite Hp in E. now inversion E.
Qed.

Lemma updTopic_steady (topic : TopicArg) (name : string) (row : TopicRow.t)
    (s : Store) :
  steady s ->
  truthy (get "_new" (own topic)) = false ->
  topic_of_params
    (updTopic_params
       (_serializeTopic
          (head (rows_of (SELECT_topics_WHERE_name (get "name" (own topic)))
                   (disk s)))
          topic))
  = inr (name, row) ->
  exists s', updTopic topic s = (inr tt, s') /\ steady s'
             /\ disk s' = with_topics (insert name row) (disk s).
Proof.
  intros Hs Hnew Hp. unfold updTopic. rewrite Hnew.
  pose proof (steady_count_attempt s Hs) as Hs0.
  set (sel := SELECT_topics_WHERE_name (get "name" (own topic))) in *.
  destruct (statement_steady sel (count_attempt s) Hs0)
    as (s1 & Hs1 & _ & Hrun).
  assert (Hq : exec sel (disk s) = inr (rows_of sel (disk s), disk s)).
  { unfold rows_of, sel. simpl.
    destruct (get "name" (own topic)); try reflexivity.
    now destruct (topics (disk s) !! s0). }
  cbn [disk count_attempt] in Hrun. rewrite Hq in Hrun.
  destruct Hrun as [Hrun Hd].
  destruct (statement_steady
              (INSERT_OR_REPLACE_INTO_topics
                 (updTopic_params
                    (_serializeTopic (head (rows_of sel (disk s))) topic)))
              s1 Hs1) as (s2 & Hs2 & _ & Hins).
  cbn [exec] in Hins. rewrite Hp in Hins. destruct Hins as [Hins Hd2].
  exists s2. split; [|split; [exact Hs2|now rewrite Hd2, Hd]].
  apply guarded_resolved; [apply Hs|].
  unfold getFirstAsync, runAsync, and_then. rewrite Hrun.
  unfold resolve. cbv zeta. now rewrite Hins.
Qed.

(** X5: [updTopic] for a name under which nothing is stored creates the
    row, and no other row changes.  A column of [TOPIC_FIELDS] holds the
    stored form of the topic's value when the topic has the field; the
    tag column holds the JSON text of [_tags] when that is an array; the
    access column holds the JSON text of the access mode
    ([getAccessMode().jsonHelper()] when the topic has that method, [acs]
    otherwise) when [acs] is truthy.  Every column in any other case is
    NULL: a field that is absent, a [_tags] that is no array, an [acs]
    that is falsy.  With no engine failure the call resolves. *)
Theorem updTopic_creates_row (topic : TopicArg) (name : string) (s : Store) :
  isReady s = true ->
  get "name" (own topic) = JStr name ->
  truthy (get "_new" (own topic)) = false ->
  topics (disk s) !! name = None ->
  (forall s', updTopic topic s = (inr tt, s') ->
     disk s' = with_topics (insert name (patch null_topic_row topic)) (disk s))
  /\ (calm s = true -> exists s', updTopic topic s = (inr tt, s'))
  /\ (forall c, hasOwnProperty (field_of c) (own topic) = false ->
        column c (patch null_topic_row topic) = SqlNull)
  /\ (forall c, c <> Tags -> c <> Acs ->
        hasOwnProperty (field_of c) (own topic) = true ->
        column c (patch null_topic_row topic)
        = stored (get (field_of c) (own topic)))
  /\ column Tags (patch null_topic_row topic)
     = (if isArray (get "_tags" (own topic))
        then stored_json (get "_tags" (own topic))
        else SqlNull)
  /\ column Acs (patch null_topic_row topic)
     = (if truthy (get "acs" (own topic))
        then stored_json (match getAccessMode topic with
                          | Some json => json
                          | None => get "acs" (own topic)
                          end)
        else SqlNull).
Proof.
  intros Hr Hname Hnew Hold.
  assert (Hp : topic_of_params
             (updTopic_params
                (_serializeTopic
                   (head (rows_of (SELECT_topics_WHERE_name
                                     (get "name" (own topic))) (disk s)))
                   topic))
           = inr (name, patch null_topic_row topic)).
  { rewrite Hname, (select_missing_topic name _ Hold). simpl head.
    now apply topic_params_new. }
  split; [|split; [|split; [|split; [|split]]]].
  - intros s' H. exact (updTopic_resolved topic name _ s s' Hr Hnew Hp H).
  - intros Hc.
    destruct (updTopic_steady topic name _ s (conj Hr Hc) Hnew Hp)
      as (s' & E & _).
    now exists s'.
  - intros c Habs. pose proof (get_absent _ _ Habs) as Hg.
    destruct c; simpl in *; unfold patched; rewrite ?Habs, ?Hg; reflexivity.
  - intros c Ht Ha Hpres.
    destruct c; try congruence; simpl in *; unfold patched;
      now rewrite Hpres.
  - reflexivity.
  - reflexivity.
Qed.

Lemma updTopic_creates_row_witness :
  let incoming := mkTopicArg [("name", JStr "grp2"); ("seq", JNum 4)] None in
  exists s', updTopic incoming (ready_store sample_topics) = (inr tt, s').
Proof.
  intros incoming.
  refine (proj1 (proj2 (updTopic_creates_row incoming "grp2"
            (ready_store sample_topics) _ _ _ _)) _);
    reflexivity.
Defined.

(** An enumeration: one query, the rows mapped by [f], the callback on
    each result in order. *)
Lemma enumeration_resolved st (f : Obj -> Obj) callback s rows s' :
  read_only st -> isReady s = true ->
  guarded []
    (await rows := getAllAsync st in
     run call_back callback (List.map JObj (List.map f rows)) in
     resolve (List.map f rows)) s = (inr rows, s') ->
  rows = List.map f (rows_of st (disk s)) /\ disk s' = disk s.
Proof.
  intros Hro Hr H.
  apply (reads_guarded [] _ (fun d => List.map f (rows_of st d))) in H
    as [Hd [->|[E _]]]; [now split|congruence|].
  exact (reads_query st (List.map f)
           (fun rows => List.map JObj (List.map f rows)) callback Hro).
Qed.

Lemma enumeration_steady st (f : Obj -> Obj) callback s :
  is_query st -> steady s ->
  exists s',
    guarded []
      (await rows := getAllAsync st in
       run call_back callback (List.map JObj (List.map f rows)) in
       resolve (List.map f rows)) s
    = (inr (List.map f (rows_of st (disk s))), s')
    /\ steady s' /\ disk s' = disk s
    /\ delivered s'
       = (delivered s ++
          if callback
          then List.map JObj (List.map f (rows_of st (disk s))) else [])%list.
Proof.
  intros Hq Hs.
  destruct (reads_query_steady st (List.map f)
              (fun rows => List.map JObj (List.map f rows))
              callback (count_attempt s) (steady_count_attempt s Hs) Hq)
    as (s' & Hrun & Hs' & Hd & Hdel).
  exists s'. split; [|now split].
  apply guarded_resolved; [apply Hs|exact Hrun].
Qed.

Lemma topic_rows d :
  List.map _deserializeTopicRow (rows_of SELECT_topics d)
  = List.map load_row (map_to_list (topics d)).
Proof. unfold rows_of. simpl. now rewrite List.map_map. Qed.

Lemma load_row_name kv : get "name" (load_row kv) = JStr (fst kv).
Proof.
  unfold load_row, _deserializeTopicRow. cbv zeta. rewrite !get_set_if.
  cbn [String.eqb Ascii.eqb Bool.eqb]. now rewrite !andb_false_r.
Qed.

(** X6: [mapTopics] returns one topic object per stored row,
    each stored topic exactly once, carrying the name it is stored under;
    the callback is called on each of them in the order they are
    returned; nothing is written. *)
Theorem mapTopics_enumerates_all (callback : bool) (s : Store) :
  isReady s = true ->
  let stored := map_to_list (topics (disk s)) in
  (forall rows s',
     mapTopics callback s = (inr rows, s') ->
     rows = List.map load_row stored /\ disk s' = disk s)
  /\ (calm s = true ->
      exists s',
        mapTopics callback s = (inr (List.map load_row stored), s')
        /\ delivered s'
           = (delivered s ++
              if callback then List.map JObj (List.map load_row stored)
              else [])%list)
  /\ NoDup (List.map fst stored)
  /\ (forall name row,
        (name, row) ∈ stored <-> topics (disk s) !! name = Some row)
  /\ (forall kv, get "name" (load_row kv) = JStr (fst kv)).
Proof.
  intros Hr stored. split; [|split; [|split; [|split]]].
  - intros rows s' H. unfold mapTopics in H. cbv zeta in H.
    apply enumeration_resolved in H as [-> Hd];
      [|exact (read_only_schema SELECT_topics)|exact Hr].
    now rewrite topic_rows.
  - intros Hc. unfold mapTopics. cbv zeta.
    destruct (enumeration_steady SELECT_topics _deserializeTopicRow callback s)
      as (s' & E & _ & _ & Hdel); [now intros d|now split|].
    rewrite topic_rows in E, Hdel. now exists s'.
  - apply NoDup_fst_map_to_list.
  - intros name row. apply elem_of_map_to_list.
  - apply load_row_name.
Qed.

Lemma mapTopics_enumerates_all_witness :
  exists s',
    mapTopics true (ready_store sample_topics)
    = (inr (List.map load_row (map_to_list (topics sample_topics))), s')
    /\ delivered s'
       = List.map JObj (List.map load_row (map_to_list (topics sample_topics))).
Proof.
  exact (proj1 (proj2 (mapTopics_enumerates_all true
           (ready_store sample_topics) eq_refl)) eq_refl).
Defined.

Lemma load_row_deleted name row :
  get "_deleted" (load_row (name, row))
  = JBool (match to_js (TopicRow._deleted row) with
           | JNum n => Z.eqb n 1
           | _ => false
           end).
Proof.
  unfold load_row, _deserializeTopicRow. cbv zeta. rewrite !get_set_if.
  cbn [String.eqb Ascii.eqb Bool.eqb]. now rewrite !andb_false_r.
Qed.

(** X7: [markTopicAsDeleted(name, deleted)] sets the deleted flag of
    the row stored under [name] and nothing else: the other columns of
    that row and all other rows stay, and when nothing is stored under
    [name] nothing is created.  The topic then loads with [_deleted]
    equal to [deleted].  When the call rejects nothing has changed; with
    no engine failure it resolves. *)
Theorem markTopicAsDeleted_sets_flag (name : string) (deleted : bool)
    (s : Store) :
  isReady s = true ->
  let after := with_topics (alter (flagged deleted) name) (disk s) in
  (forall r s',
     markTopicAsDeleted name deleted s = (r, s') ->
     match r with
     | inr _ => disk s' = after
     | inl _ => disk s' = disk s
     end)
  /\ (calm s = true ->
      exists s', markTopicAsDeleted name deleted s = (inr tt, s'))
  /\ (forall other,
        topics after !! other
        = if decide (other = name)
          then option_map (flagged deleted) (topics (disk s) !! name)
          else topics (disk s) !! other)
  /\ (forall row,
        get "_deleted" (load_row (name, flagged deleted row)) = JBool deleted
        /\ forall c, c <> DeletedFlag ->
             column c (flagged deleted row) = column c row).
Proof.
  intros Hr after. split; [|split; [|split]].
  - intros r s' H. unfold markTopicAsDeleted in H.
    apply guarded_statement_outcome in H; [|exact Hr].
    destruct r as [e|[]]; [exact H|].
    destruct H as (rows & H). simpl in H. now inversion H.
  - intros Hc. unfold markTopicAsDeleted.
    destruct (guarded_statement_steady
                (UPDATE_topics_SET_deleted (if deleted then 1 else 0) name)
                s [] after (conj Hr Hc) eq_refl) as (s' & E & _).
    now exists s'.
  - intros other. unfold after. cbn [topics with_topics].
    destruct (decide (other = name)) as [->|Hne].
    + rewrite lookup_alter_eq. now destruct (topics (disk s) !! name).
    + now rewrite lookup_alter_ne.
  - intros row. split.
    + rewrite load_row_deleted. now destruct deleted.
    + intros c Hc. destruct c; try reflexivity. now elim Hc.
Qed.

Lemma markTopicAsDeleted_sets_flag_witness :
  exists s', markTopicAsDeleted "grp1" true (ready_store sample_topics)
             = (inr tt, s').
Proof.
  exact (proj1 (proj2 (markTopicAsDeleted_sets_flag "grp1" true
           (ready_store sample_topics) eq_refl)) eq_refl).
Defined.

(** ** Users *)

(** A single-row read: one query, the first row mapped by [f], or
    undefined. *)
Lemma first_row_body st (f : Obj -> Obj) s0 :
  (await row := getFirstAsync st in
   match row with
   | None => resolve None
   | Some row => resolve (Some (f row))
   end) s0
  = (await row := getFirstAsync st in resolve (option_map f row)) s0.
Proof. apply and_then_ext. intros [row|] s1; reflexivity. Qed.

Lemma first_row_resolved st (f : Obj -> Obj) s r s' :
  read_only st -> isReady s = true ->
  guarded None
    (await row := getFirstAsync st in
     match row with
     | None => resolve None
     | Some row => resolve (Some (f row))
     end) s = (inr r, s') ->
  r = option_map f (head (rows_of st (disk s))) /\ disk s' = disk s.
Proof.
  intros Hro Hr H.
  rewrite (guarded_ext None _ _ (first_row_body st f)) in H.
  apply (reads_guarded None _
           (fun d => option_map f (head (rows_of st d)))) in H
    as [Hd [->|[E _]]]; [now split|congruence|].
  exact (reads_first st (option_map f) Hro).
Qed.

Lemma first_row_steady st (f : Obj -> Obj) s :
  is_query st -> steady s ->
  exists s',
    guarded None
      (await row := getFirstAsync st in
       match row with
       | None => resolve None
       | Some row => resolve (Some (f row))
       end) s
    = (inr (option_map f (head (rows_of st (disk s)))), s')
    /\ steady s' /\ disk s' = disk s.
Proof.
  intros Hq Hs.
  destruct (statement_steady st (count_attempt s) (steady_count_attempt s Hs))
    as (s' & Hs' & _ & Hrun).
  cbn [disk count_attempt] in Hrun. rewrite (Hq (disk s)) in Hrun.
  destruct Hrun as [Hrun Hd].
  exists s'. split; [|now split].
  apply guarded_resolved; [apply Hs|].
  unfold getFirstAsync, and_then. rewrite Hrun. unfold resolve.
  now destruct (head (rows_of st (disk s))).
Qed.

Lemma users_query_is_query uid : is_query (SELECT_users_WHERE_uid uid).
Proof. intros d. unfold rows_of. simpl. now destruct (users d !! uid). Qed.

Lemma user_row uid d :
  option_map user_of_row (head (rows_of (SELECT_users_WHERE_uid uid) d))
  = option_map
      (fun v => [("uid", JStr uid); ("public", _parseJSON (to_js v))])
      (users d !! uid).
Proof. unfold rows_of. simpl. now destruct (users d !! uid). Qed.

Lemma getUser_resolved uid s r s' :
  isReady s = true -> getUser uid s = (inr r, s') ->
  r = option_map
        (fun v => [("uid", JStr uid); ("public", _parseJSON (to_js v))])
        (users (disk s) !! uid)
  /\ disk s' = disk s.
Proof.
  intros Hr H. unfold getUser in H.
  apply first_row_resolved in H as [-> Hd];
    [|exact (read_only_schema (SELECT_users_WHERE_uid uid))|exact Hr].
  now rewrite user_row.
Qed.

Lemma getUser_steady uid s :
  steady s ->
  exists s',
    getUser uid s
    = (inr (option_map
              (fun v => [("uid", JStr uid); ("public", _parseJSON (to_js v))])
              (users (disk s) !! uid)), s')
    /\ steady s' /\ disk s' = disk s.
Proof.
  intros Hs. unfold getUser.
  destruct (first_row_steady (SELECT_users_WHERE_uid uid) user_of_row s
              (users_query_is_query uid) Hs) as (s' & E & Hs' & Hd).
  rewrite user_row in E. now exists s'.
Qed.

Lemma updUser_statement uid pub :
  json_like pub = true ->
  updUser uid pub
  = guarded tt (runAsync (INSERT_OR_REPLACE_INTO_users uid (JSON.stringify pub)))
  /\ forall d,
       exec (INSERT_OR_REPLACE_INTO_users uid (JSON.stringify pub)) d
       = inr ([], with_users (insert uid (SqlText (text_of pub))) d).
Proof.
  intros Hj. split.
  - now destruct pub.
  - intros d. cbn [exec]. unfold JSON.stringify.
    now rewrite (json_like_serialize pub Hj).
Qed.

(** X8: a user's public value of JSON-like shape, stored by
    [updUser], is what [getUser] returns for that uid, unchanged; the
    other users are not touched.  When [updUser] rejects nothing has
    changed; with no engine failure both calls resolve. *)
Theorem updUser_getUser_round_trip (uid : string) (pub : JsVal) (s : Store) :
  isReady s = true -> json_like pub = true ->
  let after := with_users (insert uid (SqlText (text_of pub))) (disk s) in
  (forall r s',
     updUser uid pub s = (r, s') ->
     match r with
     | inr _ => disk s' = after
     | inl _ => disk s' = disk s
     end)
  /\ (forall s1 r s2,
        disk s1 = after -> isReady s1 = true ->
        getUser uid s1 = (inr r, s2) ->
        r = Some [("uid", JStr uid); ("public", pub)])
  /\ (calm s = true ->
      exists s1 s2,
        updUser uid pub s = (inr tt, s1)
        /\ getUser uid s1
           = (inr (Some [("uid", JStr uid); ("public", pub)]), s2))
  /\ (forall other, other <> uid ->
        users after !! other = users (disk s) !! other).
Proof.
  intros Hr Hj after.
  destruct (updUser_statement uid pub Hj) as [Hupd Hex].
  assert (Hback : forall d,
             d = after ->
             option_map
               (fun v => [("uid", JStr uid); ("public", _parseJSON (to_js v))])
               (users d !! uid)
             = Some [("uid", JStr uid); ("public", pub)]).
  { intros d ->. unfold after. cbn [users with_users].
    rewrite lookup_insert_eq. cbn [option_map to_js].
    pose proof (parseJSON_stringify pub Hj) as P.
    unfold JSON.stringify in P. rewrite (json_like_serialize pub Hj) in P.
    now rewrite P. }
  split; [|split; [|split]].
  - intros r s' H. rewrite Hupd in H.
    apply guarded_statement_outcome in H; [|exact Hr].
    destruct r as [e|[]]; [exact H|].
    destruct H as (rows & H). rewrite Hex in H. now inversion H.
  - intros s1 r s2 Hd Hr1 H.
    apply getUser_resolved in H as [-> _]; [|exact Hr1].
    now apply Hback.
  - intros Hc. rewrite Hupd.
    destruct (guarded_statement_steady _ s [] after (conj Hr Hc) (Hex _))
      as (s1 & E1 & Hs1 & Hd1 & _).
    destruct (getUser_steady uid s1 Hs1) as (s2 & E2 & _).
    rewrite (Hback _ Hd1) in E2. now exists s1, s2.
  - intros other Hne. unfold after. cbn [users with_users].
    now rewrite lookup_insert_ne.
Qed.

Lemma updUser_getUser_round_trip_witness :
  let pub := JObj [("fn", JStr "Alice"); ("tags", JArr [JNum 1; JNull])] in
  exists s1 s2,
    updUser "usrA" pub (ready_store empty_database) = (inr tt, s1)
    /\ getUser "usrA" s1
       = (inr (Some [("uid", JStr "usrA"); ("public", pub)]), s2).
Proof.
  intros pub.
  exact (proj1 (proj2 (proj2 (updUser_getUser_round_trip "usrA" pub
           (ready_store empty_database) eq_refl eq_refl))) eq_refl).
Defined.

(** X9: after [remUser(uid)] no user is stored under [uid], so
    [getUser(uid)] resolves with undefined, as it does for any uid that
    was never stored; the other users stay.  When [remUser] rejects
    nothing has changed; with no engine failure both calls resolve. *)
Theorem remUser_then_getUser (uid : string) (s : Store) :
  isReady s = true ->
  let after := with_users (delete uid) (disk s) in
  (forall r s',
     remUser uid s = (r, s') ->
     match r with
     | inr _ => disk s' = after
     | inl _ => disk s' = disk s
     end)
  /\ (forall s1 r s2,
        users (disk s1) !! uid = None -> isReady s1 = true ->
        getUser uid s1 = (inr r, s2) -> r = None)
  /\ (calm s = true ->
      exists s1 s2,
        remUser uid s = (inr tt, s1) /\ getUser uid s1 = (inr None, s2))
  /\ users after !! uid = None
  /\ (forall other, other <> uid ->
        users after !! other = users (disk s) !! other).
Proof.
  intros Hr after. split; [|split; [|split; [|split]]].
  - intros r s' H. unfold remUser in H.
    apply guarded_statement_outcome in H; [|exact Hr].
    destruct r as [e|[]]; [exact H|].
    destruct H as (rows & H). simpl in H. now inversion H.
  - intros s1 r s2 Hnone Hr1 H.
    apply getUser_resolved in H as [-> _]; [|exact Hr1]. now rewrite Hnone.
  - intros Hc. unfold remUser.
    destruct (guarded_statement_steady (DELETE_FROM_users_WHERE_uid uid)
                s [] after (conj Hr Hc) eq_refl)
      as (s1 & E1 & Hs1 & Hd1 & _).
    destruct (getUser_steady uid s1 Hs1) as (s2 & E2 & _).
    rewrite Hd1 in E2. unfold after in E2. cbn [users with_users] in E2.
    rewrite lookup_delete_eq in E2. now exists s1, s2.
  - unfold after. cbn [users with_users]. apply lookup_delete_eq.
  - intros other Hne. unfold after. cbn [users with_users].
    now rewrite lookup_delete_ne.
Qed.

Lemma remUser_then_getUser_witness :
  exists s1 s2,
    remUser "usrA" (ready_store empty_database) = (inr tt, s1)
    /\ getUser "usrA" s1 = (inr None, s2).
Proof.
  exact (proj1 (proj2 (proj2 (remUser_then_getUser "usrA"
           (ready_store empty_database) eq_refl))) eq_refl).
Defined.

Lemma user_rows d :
  List.map user_of_row (rows_of SELECT_users d)
  = List.map load_user (map_to_list (users d)).
Proof. unfold rows_of. simpl. now rewrite List.map_map. Qed.

(** X10: [mapUsers] returns one user object per stored user, each
    uid exactly once, with the public value parsed from its stored text;
    the callback is called on each in the order returned; nothing is
    written. *)
Theorem mapUsers_enumerates_all (callback : bool) (s : Store) :
  isReady s = true ->
  let stored := map_to_list (users (disk s)) in
  (forall rows s',
     mapUsers callback s = (inr rows, s') ->
     rows = List.map load_user stored /\ disk s' = disk s)
  /\ (calm s = true ->
      exists s',
        mapUsers callback s = (inr (List.map load_user stored), s')
        /\ delivered s'
           = (delivered s ++
              if callback then List.map JObj (List.map load_user stored)
              else [])%list)
  /\ NoDup (List.map fst stored)
  /\ (forall uid v, (uid, v) ∈ stored <-> users (disk s) !! uid = Some v).
Proof.
  intros Hr stored. split; [|split; [|split]].
  - intros rows s' H. unfold mapUsers in H. cbv zeta in H.
    apply enumeration_resolved in H as [-> Hd];
      [|exact (read_only_schema SELECT_users)|exact Hr].
    now rewrite user_rows.
  - intros Hc. unfold mapUsers. cbv zeta.
    destruct (enumeration_steady SELECT_users user_of_row callback s)
      as (s' & E & _ & _ & Hdel); [now intros d|now split|].
    rewrite user_rows in E, Hdel. now exists s'.
  - apply NoDup_fst_map_to_list.
  - intros uid v. apply elem_of_map_to_list.
Qed.

Lemma mapUsers_enumerates_all_witness :
  exists s',
    mapUsers true (ready_store sample_users)
    = (inr (List.map load_user (map_to_list (users sample_users))), s')
    /\ delivered s'
       = List.map JObj
           (List.map load_user (map_to_list (users sample_users))).
Proof.
  exact (proj1 (proj2 (mapUsers_enumerates_all true
           (ready_store sample_users) eq_refl)) eq_refl).
Defined.

(** ** Subscriptions *)

Lemma get_serializeSubscription (dst : option Obj) topicName uid sub k :
  get k (_serializeSubscription dst topicName uid sub)
  = if existsb (String.eqb k) SUBSCRIPTION_FIELDS && hasOwnProperty k sub
    then get k sub
    else get k (match dst with
                | Some d => d
                | None => [("topic", JStr topicName); ("uid", JStr uid)]
                end).
Proof.
  unfold _serializeSubscription. cbv zeta.
  exact (get_copy_fields (fun v => v) sub SUBSCRIPTION_FIELDS _ k).
Qed.

Lemma bind_sub_field (existing : option SubRow.t) topicName uid sub
    (c : SubColumn) :
  bind_param
    (get (sub_field c)
       (_serializeSubscription
          (option_map (SubRow.object topicName uid) existing)
          topicName uid sub))
  = sub_column sub (sub_field c) (sub_col c (default null_sub_row existing)).
Proof.
  rewrite get_serializeSubscription. unfold sub_column.
  assert (Hin : existsb (String.eqb (sub_field c)) SUBSCRIPTION_FIELDS = true)
    by now destruct c.
  rewrite Hin. cbn [andb].
  destruct (hasOwnProperty (sub_field c) sub); [reflexivity|].
  destruct existing as [r|]; cbn [option_map default].
  - destruct c; apply bind_to_js.
  - now destruct c.
Qed.

Lemma get_sub_key (existing : option SubRow.t) topicName uid sub :
  get "topic"
    (_serializeSubscription
       (option_map (SubRow.object topicName uid) existing) topicName uid sub)
  = JStr topicName
  /\ get "uid"
       (_serializeSubscription
          (option_map (SubRow.object topicName uid) existing) topicName uid sub)
     = JStr uid.
Proof.
  rewrite !get_serializeSubscription.
  change (existsb (String.eqb "topic") SUBSCRIPTION_FIELDS) with false.
  change (existsb (String.eqb "uid") SUBSCRIPTION_FIELDS) with false.
  cbn [andb]. now destruct existing.
Qed.

(** The parameters of the INSERT in [updSubscription]. *)
Lemma subscription_params (existing : option SubRow.t) topicName uid sub :
  let data :=
    _serializeSubscription
      (option_map (SubRow.object topicName uid) existing) topicName uid sub in
  subscription_of_params
    [ get "topic" data; get "uid" data; get "updated" data;
      get "mode" data; get "read" data; get "recv" data;
      get "clear" data; get "lastSeen" data; get "userAgent" data ]
  = match sub_patch (default null_sub_row existing) sub with
    | Some row => inr ((topicName, uid), row)
    | None => inl bind_failed
    end.
Proof.
  cbv zeta. unfold subscription_of_params. cbn [bind_all].
  destruct (get_sub_key existing topicName uid sub) as [-> ->].
  pose proof (bind_sub_field existing topicName uid sub SubUpdated) as B;
    cbn [sub_field] in B; rewrite B; clear B.
  pose proof (bind_sub_field existing topicName uid sub SubMode) as B;
    cbn [sub_field] in B; rewrite B; clear B.
  pose proof (bind_sub_field existing topicName uid sub SubRead) as B;
    cbn [sub_field] in B; rewrite B; clear B.
  pose proof (bind_sub_field existing topicName uid sub SubRecv) as B;
    cbn [sub_field] in B; rewrite B; clear B.
  pose proof (bind_sub_field existing topicName uid sub SubClear) as B;
    cbn [sub_field] in B; rewrite B; clear B.
  pose proof (bind_sub_field existing topicName uid sub SubLastSeen) as B;
    cbn [sub_field] in B; rewrite B; clear B.
  pose proof (bind_sub_field existing topicName uid sub SubUserAgent) as B;
    cbn [sub_field] in B; rewrite B; clear B.
  unfold sub_patch. cbn [sub_field sub_col bind_param].
  destruct (sub_column sub "updated" _); [|reflexivity].
  destruct (sub_column sub "mode" _);
    [|repeat match goal with
             | |- context [match ?x with _ => _ end] => destruct x
             end; reflexivity].
  destruct (sub_column sub "read" _);
    [|repeat match goal with
             | |- context [match ?x with _ => _ end] => destruct x
             end; reflexivity].
  destruct (sub_column sub "recv" _);
    [|repeat match goal with
             | |- context [match ?x with _ => _ end] => destruct x
             end; reflexivity].
  destruct (sub_column sub "clear" _);
    [|repeat match goal with
             | |- context [match ?x with _ => _ end] => destruct x
             end; reflexivity].
  destruct (sub_column sub "lastSeen" _);
    [|repeat match goal with
             | |- context [match ?x with _ => _ end] => destruct x
             end; reflexivity].
  destruct (sub_column sub "userAgent" _); reflexivity.
Qed.

Lemma existing_subscription topicName uid d :
  head (rows_of (SELECT_subscriptions_WHERE_topic_AND_uid topicName uid) d)
  = option_map (SubRow.object topicName uid)
      (subscriptions d !! (topicName, uid)).
Proof.
  unfold rows_of. simpl. now destruct (subscriptions d !! (topicName, uid)).
Qed.

Lemma updSubscription_body_computes topicName uid sub :
  computes (updSubscription_body topicName uid sub)
    (fun d _ d' =>
       exists row,
         sub_patch
           (default null_sub_row (subscriptions d !! (topicName, uid))) sub
         = Some row
         /\ d' = with_subscriptions (insert (topicName, uid) row) d)
  /\ atomic (updSubscription_body topicName uid sub).
Proof.
  pose proof (read_only_schema
                (SELECT_subscriptions_WHERE_topic_AND_uid topicName uid))
    as Hro.
  cbv beta iota in Hro.
  split.
  - intros s [] s' H. unfold updSubscription_body in H.
    apply and_then_inr in H as (existing & s1 & H1 & H).
    unfold getFirstAsync in H1.
    apply and_then_inr in H1 as (rows & s0 & H0 & H1).
    apply (computes_query _ Hro) in H0 as [-> E0].
    inversion H1; subst; clear H1. cbv zeta in H.
    apply runAsync_inr in H as (rows' & H). rewrite E0 in H.
    rewrite existing_subscription in H. cbn [exec] in H.
    pose proof (subscription_params
                  (subscriptions (disk s) !! (topicName, uid))
                  topicName uid sub) as P.
    cbv zeta in P. rewrite P in H.
    destruct (sub_patch _ sub) as [row|]; [|discriminate].
    exists row. split; [reflexivity|]. now inversion H.
  - unfold updSubscription_body. apply atomic_and_then.
    + unfold getFirstAsync. apply preserves_and_then.
      * apply (preserves_read disk engine_frame_disk _ Hro).
      * intros rows. apply preserves_resolve.
    + intros existing. apply atomic_runAsync.
Qed.

Lemma updSubscription_steady topicName uid sub row s :
  steady s ->
  sub_patch (default null_sub_row (subscriptions (disk s) !! (topicName, uid)))
    sub = Some row ->
  exists s',
    updSubscription topicName uid sub s = (inr tt, s') /\ steady s'
    /\ disk s' = with_subscriptions (insert (topicName, uid) row) (disk s).
Proof.
  intros Hs Hp. unfold updSubscription.
  pose proof (steady_count_attempt s Hs) as Hs0.
  destruct (statement_steady
              (SELECT_subscriptions_WHERE_topic_AND_uid topicName uid)
              (count_attempt s) Hs0)
    as (s1 & Hs1 & _ & Hrun).
  assert (Hq : exec (SELECT_subscriptions_WHERE_topic_AND_uid topicName uid)
                 (disk s)
               = inr (rows_of (SELECT_subscriptions_WHERE_topic_AND_uid
                                 topicName uid) (disk s), disk s)).
  { unfold rows_of. simpl.
    now destruct (subscriptions (disk s) !! (topicName, uid)). }
  cbn [disk count_attempt] in Hrun. rewrite Hq in Hrun.
  destruct Hrun as [Hrun Hd].
  pose proof (subscription_params
                (subscriptions (disk s) !! (topicName, uid))
                topicName uid sub) as P.
  cbv zeta in P. rewrite Hp in P.
  match type of P with
  | subscription_of_params ?params = _ =>
      destruct (statement_steady (INSERT_OR_REPLACE_INTO_subscriptions params)
                  s1 Hs1) as (s2 & Hs2 & _ & Hins);
      cbn [exec] in Hins; rewrite P in Hins
  end.
  destruct Hins as [Hins Hd2].
  exists s2. split; [|split; [exact Hs2|now rewrite Hd2, Hd]].
  apply guarded_resolved; [apply Hs|].
  unfold getFirstAsync, runAsync, and_then. rewrite Hrun.
  unfold resolve. cbv zeta. rewrite existing_subscription.
  now rewrite Hins.
Qed.

(** X11: [updSubscription] merges into the row stored under
    (topic, uid), or into an all-NULL row when there is none: a column
    whose field the incoming object has takes the bound value of that
    field, every other column keeps what it held; the key and all other
    rows are untouched.  When the call rejects nothing has changed; with
    no engine failure it resolves whenever the incoming values can be
    bound. *)
Theorem updSubscription_merges (topicName uid : string) (sub : Obj)
    (s : Store) :
  isReady s = true ->
  let old := default null_sub_row
               (subscriptions (disk s) !! (topicName, uid)) in
  (forall s',
     updSubscription topicName uid sub s = (inr tt, s') ->
     exists row,
       sub_patch old sub = Some row
       /\ disk s' = with_subscriptions (insert (topicName, uid) row) (disk s))
  /\ (forall e s',
        updSubscription topicName uid sub s = (inl e, s') -> disk s' = disk s)
  /\ (forall row,
        calm s = true -> sub_patch old sub = Some row ->
        exists s', updSubscription topicName uid sub s = (inr tt, s'))
  /\ (forall row,
        sub_patch old sub = Some row ->
        forall c,
          (hasOwnProperty (sub_field c) sub = false ->
           sub_col c row = sub_col c old)
          /\ (hasOwnProperty (sub_field c) sub = true ->
              bind_param (get (sub_field c) sub) = Some (sub_col c row))).
Proof.
  intros Hr old.
  destruct (updSubscription_body_computes topicName uid sub) as [Hc Ha].
  split; [|split; [|split]].
  - intros s' H. unfold updSubscription in H.
    fold (updSubscription_body topicName uid sub) in H.
    exact (computes_guarded tt _ _ s tt s' Hc Ha Hr H).
  - intros e s' H. unfold updSubscription in H.
    fold (updSubscription_body topicName uid sub) in H.
    exact (atomic_guarded tt _ Ha s e s' H).
  - intros row Hcalm Hp.
    destruct (updSubscription_steady topicName uid sub row s (conj Hr Hcalm) Hp)
      as (s' & E & _).
    now exists s'.
  - intros row Hp c. unfold sub_patch in Hp.
    destruct (sub_column sub "updated" _) as [u|] eqn:Eu; [|discriminate].
    destruct (sub_column sub "mode" _) as [m|] eqn:Em; [|discriminate].
    destruct (sub_column sub "read" _) as [rd|] eqn:Erd; [|discriminate].
    destruct (sub_column sub "recv" _) as [rc|] eqn:Erc; [|discriminate].
    destruct (sub_column sub "clear" _) as [cl|] eqn:Ecl; [|discriminate].
    destruct (sub_column sub "lastSeen" _) as [ls|] eqn:Els; [|discriminate].
    destruct (sub_column sub "userAgent" _) as [ua|] eqn:Eua; [|discriminate].
    inversion Hp; subst row; clear Hp.
    unfold sub_column in *. clear Hc Ha.
    split; intros Hh; destruct c;
      cbn [sub_field sub_col SubRow.updated SubRow.mode SubRow.read
           SubRow.recv SubRow.clear SubRow.lastSeen SubRow.userAgent] in *;
      rewrite Hh in *; first [assumption|congruence].
Qed.

Lemma updSubscription_merges_witness :
  exists s',
    updSubscription "grp1" "usrA" [("mode", JStr "JRWP"); ("read", JNum 3)]
      (ready_store empty_database) = (inr tt, s').
Proof.
  refine (proj1 (proj2 (proj2 (updSubscription_merges "grp1" "usrA"
            [("mode", JStr "JRWP"); ("read", JNum 3)]
            (ready_store empty_database) eq_refl)))
            (SubRow.mk SqlNull (SqlText "JRWP") (SqlInt 3) SqlNull SqlNull
               SqlNull SqlNull) eq_refl eq_refl).
Defined.

Lemma NoDup_fst_filter {K V} (f : K * V -> bool) (l : list (K * V)) :
  NoDup (List.map fst l) -> NoDup (List.map fst (List.filter f l)).
Proof.
  induction l as [|x l IH]; intros H; [constructor|].
  inversion H as [|? ? Hnotin H']; subst. cbn [List.filter].
  destruct (f x); [|now apply IH].
  cbn [List.map]. constructor; [|now apply IH].
  intros Hin. apply Hnotin.
  apply list_elem_of_In, in_map_iff in Hin as (y & E & Hy).
  apply filter_In in Hy as [Hy _].
  apply list_elem_of_In. rewrite <- E. now apply in_map.
Qed.

Lemma subscription_rows topicName d :
  List.map _deserializeSubscriptionRow
    (rows_of (SELECT_subscriptions_WHERE_topic topicName) d)
  = List.map load_sub (subs_of topicName d).
Proof. unfold rows_of, subs_of. simpl. now rewrite List.map_map. Qed.

Lemma subs_of_elem topicName d kv :
  kv ∈ subs_of topicName d
  <-> subscriptions d !! fst kv = Some (snd kv) /\ fst (fst kv) = topicName.
Proof.
  unfold subs_of. rewrite list_elem_of_In, filter_In, <- list_elem_of_In.
  destruct kv as [[t u] r]. rewrite elem_of_map_to_list. simpl.
  now rewrite String.eqb_eq.
Qed.

(** X12: [mapSubscriptions(topic)] returns one object per
    subscription stored for that topic and none of any other topic, each
    (topic, uid) once, carrying its topic, uid and mode as stored; the
    callback is called on each in the order returned; nothing is
    written. *)
Theorem mapSubscriptions_scoped (topicName : string) (callback : bool)
    (s : Store) :
  isReady s = true ->
  let stored := subs_of topicName (disk s) in
  (forall rows s',
     mapSubscriptions topicName callback s = (inr rows, s') ->
     rows = List.map load_sub stored /\ disk s' = disk s)
  /\ (calm s = true ->
      exists s',
        mapSubscriptions topicName callback s
        = (inr (List.map load_sub stored), s')
        /\ delivered s'
           = (delivered s ++
              if callback then List.map JObj (List.map load_sub stored)
              else [])%list)
  /\ NoDup (List.map fst stored)
  /\ (forall kv,
        kv ∈ stored
        <-> subscriptions (disk s) !! fst kv = Some (snd kv)
            /\ fst (fst kv) = topicName)
  /\ (forall kv,
        get "topic" (load_sub kv) = JStr (fst (fst kv))
        /\ get "uid" (load_sub kv) = JStr (snd (fst kv))
        /\ get "mode" (load_sub kv) = to_js (SubRow.mode (snd kv))).
Proof.
  intros Hr stored. split; [|split; [|split; [|split]]].
  - intros rows s' H. unfold mapSubscriptions in H. cbv zeta in H.
    apply enumeration_resolved in H as [-> Hd];
      [|exact (read_only_schema (SELECT_subscriptions_WHERE_topic topicName))
       |exact Hr].
    now rewrite subscription_rows.
  - intros Hc. unfold mapSubscriptions. cbv zeta.
    destruct (enumeration_steady (SELECT_subscriptions_WHERE_topic topicName)
                _deserializeSubscriptionRow callback s)
      as (s' & E & _ & _ & Hdel); [now intros d|now split|].
    rewrite subscription_rows in E, Hdel. now exists s'.
  - apply NoDup_fst_filter, NoDup_fst_map_to_list.
  - apply subs_of_elem.
  - intros [[t u] r]. now repeat split.
Qed.

Lemma mapSubscriptions_scoped_witness :
  exists s',
    mapSubscriptions "grp1" true (ready_store sample_subscriptions)
    = (inr (List.map load_sub (subs_of "grp1" sample_subscriptions)), s')
    /\ delivered s'
       = List.map JObj (List.map load_sub (subs_of "grp1" sample_subscriptions)).
Proof.
  exact (proj1 (proj2 (mapSubscriptions_scoped "grp1" true
           (ready_store sample_subscriptions) eq_refl)) eq_refl).
Defined.

(** ** Messages *)

Lemma load_message_status kv :
  get "_status" (load_message kv)
  = or_else (to_js (MsgRow._status (snd kv))) (JNum 0).
Proof.
  unfold load_message, _deserializeMessageRow. rewrite !get_set_if.
  simpl. now rewrite !andb_false_r.
Qed.

Lemma load_message_from kv :
  get "from" (load_message kv) = to_js (MsgRow.from_uid (snd kv)).
Proof.
  unfold load_message, _deserializeMessageRow. rewrite !get_set_if.
  simpl. now rewrite !andb_false_r.
Qed.

Lemma load_message_ts kv :
  get "ts" (load_message kv)
  = if truthy (to_js (MsgRow.ts (snd kv)))
    then Date.new (to_js (MsgRow.ts (snd kv))) else JNull.
Proof.
  unfold load_message, _deserializeMessageRow. rewrite !get_set_if.
  simpl. now rewrite !andb_false_r.
Qed.

Lemma load_message_blob kv :
  get "content" (load_message kv)
  = (if truthy (to_js (MsgRow.content (snd kv)))
     then _parseJSON (to_js (MsgRow.content (snd kv))) else JUndef)
  /\ get "head" (load_message kv)
     = (if truthy (to_js (MsgRow.head (snd kv)))
        then _parseJSON (to_js (MsgRow.head (snd kv))) else JUndef).
Proof.
  unfold load_message, _deserializeMessageRow. rewrite !get_set_if.
  simpl. rewrite !andb_false_r, !andb_true_r.
  split; now destruct (truthy _).
Qed.

(** X13: [updMessageStatus(topic, seq, status)] sets the status of
    the message stored under (topic, seq) and nothing else: its other
    columns and all other messages stay, and when no such message is
    stored none is created.  The message then loads with that status.
    When the call rejects nothing has changed; with no engine failure it
    resolves. *)
Theorem updMessageStatus_sets_status (topicName : string) (seq status : Z)
    (s : Store) :
  isReady s = true ->
  let after :=
    with_messages (alter (with_status status) (topicName, seq)) (disk s) in
  (forall r s',
     updMessageStatus topicName seq status s = (r, s') ->
     match r with
     | inr _ => disk s' = after
     | inl _ => disk s' = disk s
     end)
  /\ (calm s = true ->
      exists s', updMessageStatus topicName seq status s = (inr tt, s'))
  /\ (forall key,
        messages after !! key
        = if decide (key = (topicName, seq))
          then option_map (with_status status)
                 (messages (disk s) !! (topicName, seq))
          else messages (disk s) !! key)
  /\ (forall row,
        let before := load_message ((topicName, seq), row) in
        let loaded := load_message ((topicName, seq), with_status status row) in
        get "_status" loaded = JNum status
        /\ get "content" loaded = get "content" before
        /\ get "head" loaded = get "head" before
        /\ get "from" loaded = get "from" before
        /\ get "ts" loaded = get "ts" before).
Proof.
  intros Hr after. split; [|split; [|split]].
  - intros r s' H. unfold updMessageStatus in H.
    apply guarded_statement_outcome in H; [|exact Hr].
    destruct r as [e|[]]; [exact H|].
    destruct H as (rows & H). simpl in H. now inversion H.
  - intros Hc. unfold updMessageStatus.
    destruct (guarded_statement_steady
                (UPDATE_messages_SET_status status topicName seq)
                s [] after (conj Hr Hc) eq_refl) as (s' & E & _).
    now exists s'.
  - intros key. unfold after. cbn [messages with_messages].
    destruct (decide (key = (topicName, seq))) as [->|Hne].
    + rewrite lookup_alter_eq.
      now destruct (messages (disk s) !! (topicName, seq)).
    + now rewrite lookup_alter_ne.
  - intros row before loaded. unfold before, loaded.
    rewrite load_message_status, !load_message_from, !load_message_ts.
    destruct (load_message_blob ((topicName, seq), row)) as [-> ->].
    destruct (load_message_blob ((topicName, seq), with_status status row))
      as [-> ->].
    cbn [snd with_status MsgRow._status MsgRow.content MsgRow.head
         MsgRow.from_uid MsgRow.ts to_js].
    repeat split. unfold or_else. cbn [truthy].
    destruct (Z.eqb_spec status 0) as [->|Hne]; reflexivity.
Qed.

Lemma updMessageStatus_sets_status_witness :
  exists s', updMessageStatus "grp1" 6 2 (ready_store sample_database)
             = (inr tt, s').
Proof.
  exact (proj1 (proj2 (updMessageStatus_sets_status "grp1" 6 2
           (ready_store sample_database) eq_refl)) eq_refl).
Defined.

Lemma remMessages_as_statement topicName from to :
  remMessages topicName from to
  = guarded tt (runAsync (remMessages_statement topicName from to)).
Proof.
  unfold remMessages, remMessages_statement.
  destruct (falsy_num from && falsy_num to); [reflexivity|].
  destruct to as [t|]; [|reflexivity]. now destruct (Z.ltb 0 t).
Qed.

Lemma remMessages_exec topicName (from : Z) to d :
  exists d',
    exec (remMessages_statement topicName (Some from) to) d = inr ([], d')
    /\ (forall t n,
          messages d' !! (t, n)
          = if String.eqb t topicName && removed_by from to n then None
            else messages d !! (t, n))
    /\ topics d' = topics d /\ users d' = users d
    /\ subscriptions d' = subscriptions d /\ dellog d' = dellog d.
Proof.
  unfold remMessages_statement, removed_by. cbn [falsy_num].
  destruct (Z.eqb from 0 && falsy_num to) eqn:Hall.
  - eexists. split; [reflexivity|]. split; [|now repeat split].
    intros t n. cbn [messages with_messages]. rewrite andb_true_r.
    destruct (String.eqb_spec t topicName) as [->|Hne].
    + apply map_lookup_filter_None. right. intros x _ Hx. now apply Hx.
    + destruct (messages d !! (t, n)) as [r|] eqn:E.
      * now apply map_lookup_filter_Some.
      * apply map_lookup_filter_None. now left.
  - destruct to as [hi|]; [destruct (Z.ltb 0 hi)|].
    + eexists. split; [reflexivity|]. split; [|now repeat split].
      intros t n. cbn [messages with_messages].
      destruct (String.eqb t topicName && (Z.leb from n && Z.ltb n hi))
        eqn:Hin.
      * apply map_lookup_filter_None. right. intros x _ Hx.
        unfold msg_in_range in Hx. cbn [fst snd] in Hx.
        rewrite <- andb_assoc in Hx. congruence.
      * destruct (messages d !! (t, n)) as [r|] eqn:E.
        -- apply map_lookup_filter_Some. split; [exact E|].
           unfold msg_in_range. cbn [fst snd]. now rewrite <- andb_assoc.
        -- apply map_lookup_filter_None. now left.
    + eexists. split; [reflexivity|]. split; [|now repeat split].
      intros t n. cbn [messages with_messages].
      destruct (String.eqb_spec t topicName) as [->|Hne];
        [destruct (Z.eqb_spec n from) as [->|Hne]|]; cbn [andb].
      * apply lookup_delete_eq.
      * rewrite lookup_delete_ne; [reflexivity|congruence].
      * rewrite lookup_delete_ne; [reflexivity|congruence].
    + eexists. split; [reflexivity|]. split; [|now repeat split].
      intros t n. cbn [messages with_messages].
      destruct (String.eqb_spec t topicName) as [->|Hne];
        [destruct (Z.eqb_spec n from) as [->|Hne]|]; cbn [andb].
      * apply lookup_delete_eq.
      * rewrite lookup_delete_ne; [reflexivity|congruence].
      * rewrite lookup_delete_ne; [reflexivity|congruence].
Qed.

(** X14: [remMessages(topic, from, to)] removes from the
    topic exactly the messages whose sequence number [removed_by] selects:
    all of them when [from] and [to] are both zero or absent, those with
    [from <= seq < to] when [to] is positive, the one with [seq = from]
    otherwise.  Messages of other topics and the other tables are
    untouched.  When the call rejects nothing has changed; with no engine
    failure it resolves. *)
Theorem remMessages_removes_selected (topicName : string) (from : Z)
    (to : option Z) (s : Store) :
  isReady s = true ->
  (forall r s',
     remMessages topicName (Some from) to s = (r, s') ->
     match r with
     | inr _ =>
         (forall t n,
            messages (disk s') !! (t, n)
            = if String.eqb t topicName && removed_by from to n then None
              else messages (disk s) !! (t, n))
         /\ topics (disk s') = topics (disk s)
         /\ users (disk s') = users (disk s)
         /\ subscriptions (disk s') = subscriptions (disk s)
         /\ dellog (disk s') = dellog (disk s)
     | inl _ => disk s' = disk s
     end)
  /\ (calm s = true ->
      exists s', remMessages topicName (Some from) to s = (inr tt, s'))
  /\ (forall n, from = 0 -> falsy_num to = true -> removed_by from to n = true)
  /\ (forall n t, to = Some t -> 0 < t ->
        removed_by from to n = true <-> from <= n < t)
  /\ (forall n, from <> 0 -> positive_num to = false ->
        removed_by from to n = true <-> n = from)
  /\ remMessages topicName None None s = remMessages topicName (Some 0) None s.
Proof.
  intros Hr.
  assert (Habsent : remMessages topicName None None s
                    = remMessages topicName (Some 0) None s) by reflexivity.
  rewrite remMessages_as_statement.
  destruct (remMessages_exec topicName from to (disk s))
    as (d' & Hex & Hm & Ht & Hu & Hs & Hd).
  split; [|split; [|split; [|split; [|split; [|exact Habsent]]]]].
  - intros r s' H.
    apply guarded_statement_outcome in H; [|exact Hr].
    destruct r as [e|[]]; [exact H|].
    destruct H as (rows & H). rewrite Hex in H. inversion H; subst.
    now repeat split.
  - intros Hc.
    destruct (guarded_statement_steady _ s [] d' (conj Hr Hc) Hex)
      as (s' & E & _).
    now exists s'.
  - intros n -> Hf. unfold removed_by. now rewrite Hf.
  - intros n t -> Ht0. unfold removed_by. cbn [falsy_num].
    destruct (Z.eqb_spec t 0) as [->|_]; [lia|]. rewrite andb_false_r.
    destruct (Z.ltb_spec 0 t); [|lia].
    rewrite andb_true_iff, Z.leb_le, Z.ltb_lt. tauto.
  - intros n Hne Hp. unfold removed_by.
    destruct (Z.eqb_spec from 0) as [->|_]; [now elim Hne|]. cbn [andb].
    destruct to as [t|]; cbn [positive_num] in Hp;
      [rewrite Hp|]; apply Z.eqb_eq.
Qed.

Lemma remMessages_removes_selected_witness :
  exists s', remMessages "grp1" (Some 5) (Some 7) (ready_store sample_database)
             = (inr tt, s').
Proof.
  exact (proj1 (proj2 (remMessages_removes_selected "grp1" 5 (Some 7)
           (ready_store sample_database) eq_refl)) eq_refl).
Defined.

Lemma serializeMessage_invalid_date msg :
  hasOwnProperty "ts" msg = true -> get "ts" msg = JInvalidDate ->
  _serializeMessage None msg = inl (mkError "Invalid time value").
Proof.
  intros Hh Hts. unfold _serializeMessage, MESSAGE_FIELDS.
  cbn [fold_left].
  destruct (serialize_step_resolves msg [] "topic" eq_refl) as (r1 & ->).
  destruct (serialize_step_resolves msg r1 "seq" eq_refl) as (r2 & ->).
  assert (E : serialize_message_field msg (inr r2) "ts"
              = inl (mkError "Invalid time value")).
  { unfold serialize_message_field. rewrite Hh, Hts. reflexivity. }
  rewrite E. reflexivity.
Qed.

(** X15: a message whose [ts] is an invalid Date is refused
    before anything reaches the engine: [addMessage] rejects with the
    RangeError of [toISOString], makes no engine call, tries once, and
    leaves the store as it was. *)
Theorem addMessage_rejects_invalid_date (msg : Obj) (s : Store) :
  isReady s = true ->
  hasOwnProperty "ts" msg = true -> get "ts" msg = JInvalidDate ->
  addMessage msg s = (inl (mkError "Invalid time value"), count_attempt s).
Proof.
  intros Hr Hh Hts. unfold addMessage.
  rewrite (serializeMessage_invalid_date msg Hh Hts).
  rewrite guarded_ready by exact Hr.
  now apply withRecovery_rejected.
Qed.

Lemma addMessage_rejects_invalid_date_witness :
  let msg := [("topic", JStr "grp1"); ("seq", JNum 8); ("ts", JInvalidDate)] in
  addMessage msg (ready_store sample_database)
  = (inl (mkError "Invalid time value"),
     count_attempt (ready_store sample_database)).
Proof.
  intros msg.
  apply (addMessage_rejects_invalid_date msg (ready_store sample_database));
    reflexivity.
Defined.

Lemma written_ts msg topic seq row :
  written_by msg = Some ((topic, seq), row) ->
  hasOwnProperty "ts" msg = true ->
  forall iso, get "ts" msg = JDate iso -> MsgRow.ts row = SqlText iso.
Proof.
  unfold written_by.
  destruct (_serializeMessage None msg) as [e|data] eqn:Hser; [discriminate|].
  unfold _serializeMessage in Hser.
  pose proof (get_serialized_message msg MESSAGE_FIELDS [] data "ts" Hser) as G.
  intros H Hh iso Hts.
  change (existsb (String.eqb "ts") MESSAGE_FIELDS) with true in G.
  rewrite Hh in G. cbn [andb] in G.
  unfold message_field in G. cbn [String.eqb Ascii.eqb Bool.eqb orb] in G.
  rewrite Hts in G. cbn [is_date Date.toISOString] in G.
  injection G as G.
  destruct (message_of_params (addMessage_params data)) as [e|kr] eqn:Hp;
    [discriminate|].
  inversion H; subst kr; clear H.
  unfold message_of_params, addMessage_params in Hp. cbn [bind_all] in Hp.
  rewrite <- G in Hp. cbn [undefined_to_null] in Hp.
  change (bind_param (JStr iso)) with (Some (SqlText iso)) in Hp.
  destruct (bind_param (get "topic" data)) as [[| |t0]|]; try discriminate;
    destruct (bind_param (get "seq" data)) as [[|n0|]|]; try discriminate;
    destruct (bind_param (undefined_to_null (get "_status" data)));
    try discriminate;
    destruct (bind_param (undefined_to_null (get "from" data)));
    try discriminate;
    destruct (bind_param (undefined_to_null (get "head" data)));
    try discriminate;
    destruct (bind_param (undefined_to_null (get "content" data)));
    try discriminate.
  now inversion Hp.
Qed.

(** X16: what a stored message loads as.  Its topic and sequence
    number are those it was stored under; a sender that is a string and a
    status that is a number come back as they were, an absent status as
    0; a timestamp that is a valid Date comes back as the same Date; and
    a content or head that is an object or array of JSON-like shape comes
    back unchanged. *)
Theorem message_round_trip (msg : Obj) (topic : string) (seq : Z)
    (row : MsgRow.t) :
  written_by msg = Some ((topic, seq), row) ->
  let loaded := load_message ((topic, seq), row) in
  get "topic" loaded = JStr topic
  /\ get "seq" loaded = JNum seq
  /\ (forall u, get "from" msg = JStr u -> get "from" loaded = JStr u)
  /\ (forall n, get "_status" msg = JNum n -> get "_status" loaded = JNum n)
  /\ (hasOwnProperty "_status" msg = false -> get "_status" loaded = JNum 0)
  /\ (forall iso,
        hasOwnProperty "ts" msg = true -> get "ts" msg = JDate iso ->
        iso_text iso -> get "ts" loaded = JDate iso)
  /\ (forall v,
        json_like v = true -> is_object v = true ->
        (get "content" msg = v -> get "content" loaded = v)
        /\ (get "head" msg = v -> get "head" loaded = v)).
Proof.
  intros W loaded. unfold loaded.
  pose proof (written_by_fields msg topic seq row W)
    as (_ & _ & Hc & Hh & Hst & Hf).
  rewrite load_message_topic, load_message_seq, load_message_from,
    load_message_status, load_message_ts.
  destruct (load_message_blob ((topic, seq), row)) as [-> ->].
  cbn [fst snd]. rewrite Hc, Hh, Hst, Hf.
  split; [reflexivity|]. split; [reflexivity|].
  split; [now intros u ->|].
  split.
  { intros n ->. cbn [stored to_js]. unfold or_else. cbn [truthy].
    destruct (Z.eqb_spec n 0) as [->|]; reflexivity. }
  split.
  { intros Ha. now rewrite (get_absent _ _ Ha). }
  split.
  { intros iso Hhas Hts Hiso.
    rewrite (written_ts msg topic seq row W Hhas iso Hts). cbn [to_js].
    unfold iso_text in Hiso. rewrite Hiso.
    destruct (truthy (JStr iso)) eqn:Ht; [reflexivity|].
    cbn [truthy] in Ht. apply negb_false_iff, String.eqb_eq in Ht. subst iso.
    discriminate Hiso. }
  intros v Hj Ho.
  split; intros ->; rewrite (stored_object v Hj Ho), (stringify_truthy v Hj);
    now apply parseJSON_stringify.
Qed.

Lemma message_round_trip_witness :
  let msg := [("topic", JStr "grp1"); ("seq", JNum 8);
              ("ts", JDate "2024-05-06T07:08:09.010Z");
              ("from", JStr "usrA");
              ("content", JObj [("txt", JStr "hi")])] in
  let loaded :=
    load_message
      (("grp1", 8),
       MsgRow.mk (SqlText "2024-05-06T07:08:09.010Z") SqlNull (SqlText "usrA")
         SqlNull (stored (JObj [("txt", JStr "hi")]))) in
  get "ts" loaded = JDate "2024-05-06T07:08:09.010Z".
Proof.
  intros msg loaded.
  refine (proj1 (proj2 (proj2 (proj2 (proj2 (proj2
            (message_round_trip msg "grp1" 8 _ _))))))
            "2024-05-06T07:08:09.010Z" _ _ _); reflexivity.
Defined.

(** ** The deletion log *)

Lemma logged_cons topicName delId r rs d :
  logged topicName delId (r :: rs) d
  = logged topicName delId rs
      (with_dellog (insert (topicName, low r, hi_or_next r) delId) d).
Proof. reflexivity. Qed.

Lemma addDelLog_task_computes topicName delId ranges :
  computes (addDelLog_task topicName delId ranges)
    (fun d _ d' => d' = logged topicName delId ranges d).
Proof.
  induction ranges as [|r rs IH]; intros s [] s' H.
  - inversion H; subst. reflexivity.
  - unfold addDelLog_task in H. cbn [for_each] in H.
    apply and_then_inr in H as ([] & s1 & H1 & H).
    apply runAsync_inr in H1 as (rows & H1). simpl in H1.
    injection H1 as _ E1.
    apply IH in H. rewrite logged_cons.
    now rewrite H, <- E1.
Qed.

Lemma addDelLog_task_succeeds topicName delId ranges s :
  steady s ->
  exists s', addDelLog_task topicName delId ranges s = (inr tt, s')
             /\ steady s'.
Proof.
  revert s. induction ranges as [|r rs IH]; intros s Hs.
  - now exists s.
  - unfold addDelLog_task. cbn [for_each]. unfold and_then, runAsync at 1.
    unfold and_then.
    destruct (statement_steady
                (INSERT_OR_REPLACE_INTO_dellog topicName delId (low r)
                   (hi_or_next r)) s Hs) as (s1 & H1 & _ & E1 & _).
    simpl in E1. rewrite E1. unfold resolve.
    exact (IH s1 H1).
Qed.

Lemma logged_tables topicName delId ranges d :
  topics (logged topicName delId ranges d) = topics d
  /\ users (logged topicName delId ranges d) = users d
  /\ subscriptions (logged topicName delId ranges d) = subscriptions d
  /\ messages (logged topicName delId ranges d) = messages d.
Proof.
  revert d. induction ranges as [|r rs IH]; intros d; [now repeat split|].
  rewrite logged_cons.
  destruct (IH (with_dellog (insert (topicName, low r, hi_or_next r) delId) d))
    as (-> & -> & -> & ->).
  now repeat split.
Qed.

Lemma logged_other topicName delId ranges d key :
  (forall r, In r ranges -> key <> (topicName, low r, hi_or_next r)) ->
  dellog (logged topicName delId ranges d) !! key = dellog d !! key.
Proof.
  revert d. induction ranges as [|r rs IH]; intros d H; [reflexivity|].
  rewrite logged_cons.
  rewrite IH by (intros r' Hr'; apply H; now right).
  cbn [dellog with_dellog]. rewrite lookup_insert_ne; [reflexivity|].
  intros E. apply (H r); [now left|now symmetry].
Qed.

Lemma logged_keeps topicName delId ranges d key :
  dellog d !! key = Some delId ->
  dellog (logged topicName delId ranges d) !! key = Some delId.
Proof.
  revert d. induction ranges as [|r rs IH]; intros d H; [exact H|].
  rewrite logged_cons.
  apply IH. cbn [dellog with_dellog].
  destruct (decide (key = (topicName, low r, hi_or_next r))) as [->|Hne].
  - apply lookup_insert_eq.
  - now rewrite lookup_insert_ne.
Qed.

Lemma logged_range topicName delId ranges d r :
  In r ranges ->
  dellog (logged topicName delId ranges d) !! (topicName, low r, hi_or_next r)
  = Some delId.
Proof.
  revert d. induction ranges as [|r0 rs IH]; intros d H; [destruct H|].
  rewrite logged_cons.
  destruct H as [->|H]; [|now apply IH].
  apply logged_keeps. cbn [dellog with_dellog]. apply lookup_insert_eq.
Qed.

Lemma addDelLog_outcome topicName delId ranges s r s' :
  isReady s = true -> addDelLog topicName delId ranges s = (r, s') ->
  match r with
  | inr _ => disk s' = logged topicName delId ranges (disk s)
  | inl _ => disk s' = disk s
  end.
Proof.
  intros Hr H. unfold addDelLog in H.
  fold (addDelLog_task topicName delId ranges) in H.
  destruct r as [e|[]].
  - now apply (atomic_guarded tt _ (atomic_transaction _)) in H.
  - apply (computes_guarded tt _
             (fun d _ d' => d' = logged topicName delId ranges d)) in H;
      auto using atomic_transaction.
    apply computes_transaction, addDelLog_task_computes.
Qed.

Lemma addDelLog_steady topicName delId ranges s :
  steady s ->
  exists s', addDelLog topicName delId ranges s = (inr tt, s') /\ steady s'
             /\ disk s' = logged topicName delId ranges (disk s).
Proof.
  intros Hs. unfold addDelLog.
  fold (addDelLog_task topicName delId ranges).
  destruct (transaction_succeeds (addDelLog_task topicName delId ranges)
              (count_attempt s) (steady_count_attempt s Hs)
              (addDelLog_task_succeeds topicName delId ranges))
    as (s' & E & Hs').
  assert (G : guarded tt
                (withTransactionAsync (addDelLog_task topicName delId ranges)) s
              = (inr tt, s'))
    by (apply guarded_resolved; [apply Hs|exact E]).
  exists s'. split; [exact G|]. split; [exact Hs'|].
  exact (addDelLog_outcome topicName delId ranges s (inr tt) s' (proj1 Hs) G).
Qed.

(** X17: [addDelLog(topic, delId, ranges)] is all or nothing.
    When it resolves, every range of the list is in the log under
    (topic, low, hi), with [hi] defaulting to [low + 1], and holds
    [delId]; entries under other keys and the other tables are as they
    were.  When it rejects, whatever the engine did, nothing has changed.
    With no engine failure it resolves. *)
Theorem addDelLog_records_ranges (topicName : string) (delId : Z)
    (ranges : list IdRange) (s : Store) :
  isReady s = true ->
  let after := logged topicName delId ranges (disk s) in
  (forall r s',
     addDelLog topicName delId ranges s = (r, s') ->
     match r with
     | inr _ => disk s' = after
     | inl _ => disk s' = disk s
     end)
  /\ (calm s = true ->
      exists s', addDelLog topicName delId ranges s = (inr tt, s'))
  /\ (forall r, In r ranges ->
        dellog after !! (topicName, low r, hi_or_next r) = Some delId)
  /\ (forall key,
        (forall r, In r ranges -> key <> (topicName, low r, hi_or_next r)) ->
        dellog after !! key = dellog (disk s) !! key)
  /\ topics after = topics (disk s) /\ users after = users (disk s)
  /\ subscriptions after = subscriptions (disk s)
  /\ messages after = messages (disk s).
Proof.
  intros Hr after. split; [|split; [|split; [|split]]].
  - intros r s'. now apply addDelLog_outcome.
  - intros Hc.
    destruct (addDelLog_steady topicName delId ranges s (conj Hr Hc))
      as (s' & E & _).
    now exists s'.
  - intros r Hin. now apply logged_range.
  - intros key H. now apply logged_other.
  - apply logged_tables.
Qed.

Lemma addDelLog_records_ranges_witness :
  exists s',
    addDelLog "grp1" 4 [mkIdRange 2 (Some 5); mkIdRange 9 None]
      (ready_store sample_dellog) = (inr tt, s').
Proof.
  exact (proj1 (proj2 (addDelLog_records_ranges "grp1" 4
           [mkIdRange 2 (Some 5); mkIdRange 9 None]
           (ready_store sample_dellog) eq_refl)) eq_refl).
Defined.

Lemma dellog_of_spec topicName d :
  StronglySorted clear_desc (dellog_of topicName d)
  /\ forall kv, kv ∈ dellog_of topicName d
       <-> dellog d !! fst kv = Some (snd kv)
           /\ fst (fst (fst kv)) = topicName.
Proof.
  unfold dellog_of. split.
  - apply StronglySorted_merge_sort; apply _.
  - intros kv. rewrite merge_sort_Permutation.
    rewrite list_elem_of_In, filter_In, <- list_elem_of_In.
    destruct kv as [[[t lo] h] c]. rewrite elem_of_map_to_list.
    unfold dellog_of_topic. simpl. now rewrite String.eqb_eq.
Qed.

Lemma maxDelId_row topicName d :
  maxDelId_result
    (head (rows_of (SELECT_dellog_ORDER_BY_clear_DESC_LIMIT_1 topicName) d))
  = option_map max_entry (head (dellog_of topicName d)).
Proof.
  unfold rows_of, dellog_of. simpl.
  now destruct (merge_sort clear_desc _) as [|[[[t lo] h] c] l].
Qed.

Lemma maxDelId_steady topicName s :
  steady s ->
  exists s',
    maxDelId topicName s
    = (inr (option_map max_entry (head (dellog_of topicName (disk s)))), s')
    /\ steady s' /\ disk s' = disk s.
Proof.
  intros Hs. unfold maxDelId.
  destruct (first_row_steady
              (SELECT_dellog_ORDER_BY_clear_DESC_LIMIT_1 topicName)
              (fun row => [ ("topic", get "topic" row);
                            ("clear", get "clear" row);
                            ("low", get "low" row); ("hi", get "hi" row) ])
              s) as (s' & E & Hs' & Hd); [now intros d|exact Hs|].
  exists s'. split; [|now split].
  refine (eq_trans E _). do 2 f_equal. rewrite <- maxDelId_row.
  now destruct (head _).
Qed.

(** X18: [maxDelId(topic)] resolves with undefined exactly when
    the log holds no entry of the topic, and otherwise with a stored
    entry of the topic, clear id included, whose clear id no other entry
    of the topic exceeds; it writes nothing.  With no engine failure it
    resolves. *)
Theorem maxDelId_returns_greatest (topicName : string) (s : Store) :
  isReady s = true ->
  (forall r s',
     maxDelId topicName s = (inr r, s') ->
     disk s' = disk s
     /\ match r with
        | None =>
            forall lo hi, dellog (disk s) !! (topicName, lo, hi) = None
        | Some entry =>
            exists lo hi c,
              dellog (disk s) !! (topicName, lo, hi) = Some c
              /\ entry = [ ("topic", JStr topicName); ("clear", JNum c);
                           ("low", JNum lo); ("hi", JNum hi) ]
              /\ forall lo' hi' c',
                   dellog (disk s) !! (topicName, lo', hi') = Some c' ->
                   c' <= c
        end)
  /\ (calm s = true -> exists r s', maxDelId topicName s = (inr r, s')).
Proof.
  intros Hr. split.
  - intros r s' H. apply maxDelId_reads in H as [Hd [->|[E _]]];
      [|congruence].
    split; [exact Hd|]. rewrite maxDelId_row.
    destruct (dellog_of_spec topicName (disk s)) as [Hsorted Hin].
    destruct (dellog_of topicName (disk s)) as [|[[[t lo] h] c] l] eqn:E;
      cbn [head option_map].
    + intros lo hi.
      destruct (dellog (disk s) !! (topicName, lo, hi)) as [c|] eqn:El;
        [|reflexivity].
      exfalso.
      assert (Hx : ((topicName, lo, hi), c) ∈ @nil (string * Z * Z * Z)).
      { apply Hin. now split. }
      inversion Hx.
    + pose proof (proj1 (Hin ((t, lo, h), c)) (list_elem_of_here _ _))
        as [Hl Ht].
      cbn [fst snd] in Hl, Ht. subst t.
      exists lo, h, c. split; [exact Hl|]. split; [reflexivity|].
      intros lo' hi' c' Hl'.
      assert (Hx : ((topicName, lo', hi'), c') ∈ ((topicName, lo, h, c) :: l)).
      { apply Hin. now split. }
      inversion Hsorted as [|? ? _ Hall]; subst.
      apply list_elem_of_In in Hx. destruct Hx as [Hx|Hx].
      * inversion Hx; subst. lia.
      * rewrite Forall_forall in Hall.
        exact (Hall _ (proj2 (list_elem_of_In _ _) Hx)).
  - intros Hc. destruct (maxDelId_steady topicName s (conj Hr Hc))
      as (s' & E & _).
    eauto.
Qed.

Lemma maxDelId_returns_greatest_witness :
  exists r s', maxDelId "grp1" (ready_store sample_dellog) = (inr r, s').
Proof.
  exact (proj2 (maxDelId_returns_greatest "grp1" (ready_store sample_dellog)
           eq_refl) eq_refl).
Defined.

Lemma dellog_matching_spec topicName query d :
  StronglySorted clear_desc (dellog_matching topicName query d)
  /\ forall kv, kv ∈ dellog_matching topicName query d
       <-> dellog d !! fst kv = Some (snd kv)
           /\ fst (fst (fst kv)) = topicName
           /\ positive_or (since query) 0 <= snd kv
              < positive_or (before query) MAX_SAFE_INTEGER.
Proof.
  unfold dellog_matching. split.
  - apply StronglySorted_merge_sort; apply _.
  - intros kv. rewrite merge_sort_Permutation.
    rewrite list_elem_of_In, filter_In, <- list_elem_of_In.
    destruct kv as [[[t lo] h] c]. rewrite elem_of_map_to_list.
    unfold dellog_clear_in. simpl.
    rewrite !andb_true_iff, String.eqb_eq, Z.leb_le, Z.ltb_lt. tauto.
Qed.

Lemma dellog_scan_rows topicName query d :
  ranges query = None ->
  readDelLog_result topicName (Some query) d
  = List.map low_hi_pair (dellog_returned topicName query d).
Proof.
  intros Hr. unfold readDelLog_result, dellog_returned, dellog_matching.
  rewrite Hr. unfold rows_of. cbn [exec]. rewrite List.map_map.
  destruct (Z.ltb 0 (int32_of (limit query))) eqn:Hl; cbn [limit_rows].
  - destruct (Z.ltb_spec (int32_of (limit query)) 0); [lia|].
    apply map_ext. now intros [[[t lo] h] c].
  - apply map_ext. now intros [[[t lo] h] c].
Qed.

Lemma NoDup_list_filter {X} (f : X -> bool) (l : list X) :
  NoDup l -> NoDup (List.filter f l).
Proof.
  induction 1 as [|x l Hx Hl IH]; cbn [List.filter]; [constructor|].
  destruct (f x); [|exact IH]. constructor; [|exact IH].
  intros Hin. apply Hx. apply list_elem_of_In in Hin.
  apply filter_In in Hin as [Hin _]. now apply list_elem_of_In.
Qed.

Lemma dellog_matching_NoDup topicName query d :
  NoDup (dellog_matching topicName query d).
Proof.
  unfold dellog_matching. rewrite merge_sort_Permutation.
  apply NoDup_list_filter, NoDup_map_to_list.
Qed.

(** The first [n] rows of a list ordered by clear id: they are ordered,
    without repetition, rows of the list, [n] of them when the list has
    as many, and no row left out has a greater clear id than one kept. *)
Lemma take_keeps_greatest_clear (n : nat) (l : list ((string * Z * Z) * Z)) :
  StronglySorted clear_desc l -> NoDup l ->
  StronglySorted clear_desc (take n l)
  /\ NoDup (take n l)
  /\ length (take n l) = Nat.min n (length l)
  /\ (forall x, x ∈ take n l -> x ∈ l)
  /\ (forall x y, x ∈ take n l -> y ∈ l -> y ∉ take n l -> snd y <= snd x).
Proof.
  intros Hs Hn. rewrite <- (take_drop n l) in Hs, Hn.
  split; [now apply StronglySorted_app_1_l in Hs|].
  split; [now apply NoDup_app in Hn|].
  split; [apply length_take|].
  split.
  - intros x Hx. rewrite <- (take_drop n l). apply elem_of_app. now left.
  - intros x y Hx Hy Hny. rewrite <- (take_drop n l) in Hy.
    apply elem_of_app in Hy as [Hy|Hy]; [contradiction|].
    exact (StronglySorted_app_1_elem_of _ _ _ x y Hs Hx Hy).
Qed.

(** X19: without a list of ranges, [readDelLog] scans the log by clear
    id.  What it returns are the [{low, hi}] pairs of entries of the
    topic with [since <= clear < before] (defaults 0 and 2^53 - 1), each
    entry at most once, in descending order of clear id; the clear id
    itself is not part of what is returned.  With [L = limit | 0]
    positive there are [L] of them, or all when fewer match, and no
    matching entry left out has a greater clear id than one returned;
    which of several entries with the same clear id are kept is not
    determined.  With [L <= 0] every matching entry is returned.
    Nothing is written; with no engine failure the call resolves. *)
Theorem readDelLog_scans_by_clear (topicName : string) (query : Query)
    (s : Store) :
  ranges query = None -> isReady s = true ->
  let L := int32_of (limit query) in
  let matching := dellog_matching topicName query (disk s) in
  (forall rows s',
     readDelLog topicName (Some query) s = (inr rows, s') ->
     disk s' = disk s
     /\ exists returned,
          rows = List.map low_hi_pair returned
          /\ StronglySorted clear_desc returned
          /\ NoDup returned
          /\ (forall x, x ∈ returned -> x ∈ matching)
          /\ (forall x y, x ∈ returned -> y ∈ matching -> y ∉ returned ->
                snd y <= snd x)
          /\ (0 < L ->
              length returned = Nat.min (Z.to_nat L) (length matching))
          /\ (L <= 0 -> returned ≡ₚ matching))
  /\ (calm s = true ->
      exists rows s', readDelLog topicName (Some query) s = (inr rows, s'))
  /\ (forall kv, kv ∈ matching <->
        dellog (disk s) !! fst kv = Some (snd kv)
        /\ fst (fst (fst kv)) = topicName
        /\ positive_or (since query) 0 <= snd kv
           < positive_or (before query) MAX_SAFE_INTEGER)
  /\ NoDup matching
  /\ (forall kv, List.map fst (low_hi_pair kv) = ["low"; "hi"]).
Proof.
  intros Hrg Hr L matching.
  destruct (dellog_matching_spec topicName query (disk s)) as [Hsorted Hin].
  pose proof (dellog_matching_NoDup topicName query (disk s)) as Hnd.
  fold matching in Hsorted, Hnd.
  destruct (take_keeps_greatest_clear (Z.to_nat L) matching Hsorted Hnd)
    as (T1 & T2 & T3 & T4 & T5).
  split; [|split; [|split; [|split]]].
  - intros rows s' H. apply readDelLog_reads in H as [Hd [->|[E _]]];
      [|congruence].
    split; [exact Hd|].
    exists (dellog_returned topicName query (disk s)).
    split; [now apply dellog_scan_rows|].
    unfold dellog_returned. fold L. fold matching.
    destruct (Z.ltb_spec 0 L) as [Hpos|Hneg].
    + split; [exact T1|]. split; [exact T2|]. split; [exact T4|].
      split; [exact T5|]. split; [intros _; exact T3|lia].
    + split; [exact Hsorted|]. split; [exact Hnd|]. split; [trivial|].
      split; [intros x y _ Hy Hny; contradiction|].
      split; [lia|reflexivity].
  - intros Hc. unfold readDelLog. cbv zeta. rewrite Hrg.
    match goal with
    | |- context [getAllAsync ?st] =>
        destruct (statement_steady st (count_attempt s)
                    (steady_count_attempt s (conj Hr Hc)))
          as (s' & _ & _ & Hrun);
        cbn [exec disk count_attempt] in Hrun; destruct Hrun as [Hrun _]
    end.
    eexists. exists s'. apply guarded_resolved; [exact Hr|].
    unfold getAllAsync, and_then. rewrite Hrun. reflexivity.
  - exact Hin.
  - exact Hnd.
  - reflexivity.
Qed.

Lemma readDelLog_scans_by_clear_witness :
  exists rows s',
    readDelLog "grp1" (Some (mkQuery (Some 2) None (Some 5) None))
      (ready_store sample_dellog)
    = (inr rows, s').
Proof.
  exact (proj1 (proj2 (readDelLog_scans_by_clear "grp1"
           (mkQuery (Some 2) None (Some 5) None)
           (ready_store sample_dellog) eq_refl eq_refl)) eq_refl).
Defined.
